(** * Sparkify data lake ETL ([etl.py]): model and verified properties

    The pipeline reads two JSON sources (song catalog, event log), derives
    four dimension tables and one fact table with PySpark DataFrame
    operations, and writes each of them as a Parquet dataset.

    The embedding follows [etl.py] line by line.  The PySpark operations the
    script calls ([select], [filter], [withColumn], [join], [write.parquet],
    [monotonically_increasing_id]) are modelled on lists of partitions of
    rows:

    - a DataFrame has a schema (attributes with an expression id and a name)
      that is analysed eagerly, and rows that are computed lazily: a failing
      Python UDF only surfaces at the action ([write]) that forces the rows;
    - column names resolve case-insensitively (the default resolver), and a
      name that matches no column or several columns is an analysis error;
    - [df["x"]] and [df.x] bind to an attribute of [df] by expression id;
    - the physical partitioning chosen for the join, the Python UDF,
      Spark's calendar functions and the parsed [dl.cfg] belong to the
      runtime and are parameters of the model ([Runtime]); a UTC instance
      is given to run examples;
    - a stored dataset keeps the rows of the DataFrame that was written,
      partition by partition; the layout of the files under the path (one
      directory per value of the [partitionBy] keys) is not modelled, so
      the order of the rows and of the columns of a dataset carries no
      meaning beyond that of the DataFrame written. *)

From Stdlib Require Import String Ascii ZArith NArith Lia Bool List Permutation.
From Stdlib Require Import SpecFloat.
Import ListNotations.

Local Open Scope string_scope.
Local Open Scope list_scope.

(** ** Values, rows and errors *)

Inductive Value : Type :=
| VNull
| VBool (b : bool)
| VLong (z : Z)
| VDouble (bits : Z)      (* IEEE 754 binary64 bit pattern *)
| VStr (s : string)
| VTimestamp (micros : Z) (* microseconds since the epoch *).

Definition Row := list Value.

Inductive Error : Type :=
| AnalysisException (msg : string)
| AttributeError (name : string)
| KeyError (key : string)
| InterpolationError      (* configparser: a value that cannot be expanded *)
| ValueError              (* os.environ: embedded null byte *)
| PythonException         (* a Python UDF raised inside a Spark job *).

Inductive Res (A : Type) : Type :=
| Ok (a : A)
| Err (e : Error).
Arguments Ok {A} a.
Arguments Err {A} e.

Definition res_bind {A B} (r : Res A) (k : A -> Res B) : Res B :=
  match r with
  | Ok a => k a
  | Err e => Err e
  end.

Definition res_map {A B} (f : A -> B) (r : Res A) : Res B :=
  res_bind r (fun a => Ok (f a)).

Fixpoint res_mapM {A B} (f : A -> Res B) (l : list A) : Res (list B) :=
  match l with
  | [] => Ok []
  | x :: t => res_bind (f x) (fun y => res_bind (res_mapM f t) (fun t' => Ok (y :: t')))
  end.

(** SQL three-valued comparison: NULL on either side gives NULL.  The
    pipeline only compares string columns with strings. *)
Definition sql_eq (a b : Value) : Value :=
  match a, b with
  | VNull, _ => VNull
  | _, VNull => VNull
  | VBool x, VBool y => VBool (Bool.eqb x y)
  | VLong x, VLong y => VBool (x =? y)%Z
  | VDouble x, VDouble y => VBool (x =? y)%Z
  | VStr x, VStr y => VBool (x =? y)%string
  | VTimestamp x, VTimestamp y => VBool (x =? y)%Z
  | _, _ => VBool false
  end.

(** SQL conjunction (Kleene logic). *)
Definition sql_and (a b : Value) : Value :=
  match a, b with
  | VBool false, _ => VBool false
  | _, VBool false => VBool false
  | VBool true, VBool true => VBool true
  | _, _ => VNull
  end.

(** A filter or a join keeps a row only when the predicate is TRUE. *)
Definition is_true (v : Value) : bool :=
  match v with
  | VBool true => true
  | _ => false
  end.

(** ** Attributes and name resolution *)

Record Attr : Type := { attr_id : N; attr_name : string }.

Definition lower_ascii (c : ascii) : ascii :=
  let n := N_of_ascii c in
  if ((65 <=? n) && (n <=? 90))%N then ascii_of_N (n + 32) else c.

Fixpoint lower (s : string) : string :=
  match s with
  | EmptyString => EmptyString
  | String c t => String (lower_ascii c) (lower t)
  end.

(** The default resolver ([spark.sql.caseSensitive = false]). *)
Definition name_eq (a b : string) : bool := (lower a =? lower b)%string.

(** Indices of the elements of [l] that satisfy [p]. *)
Fixpoint positions {A} (p : A -> bool) (l : list A) : list nat :=
  match l with
  | [] => []
  | x :: t => (if p x then [0%nat] else []) ++ map S (positions p t)
  end.

Definition unique_position {A} (what : string) (p : A -> bool) (l : list A)
  : Res (nat * A) :=
  match positions p l with
  | [i] => match nth_error l i with
           | Some a => Ok (i, a)
           | None => Err (AnalysisException ("cannot resolve " ++ what)%string)
           end
  | [] => Err (AnalysisException ("cannot resolve " ++ what)%string)
  | _ => Err (AnalysisException ("ambiguous reference " ++ what)%string)
  end.

Definition resolve_name (n : string) (cols : list Attr) : Res (nat * Attr) :=
  unique_position n (fun a => name_eq n (attr_name a)) cols.

Definition resolve_id (a : Attr) (cols : list Attr) : Res (nat * Attr) :=
  unique_position (attr_name a) (fun c => (attr_id c =? attr_id a)%N) cols.

Definition cell (i : nat) (r : Row) : Value := nth i r VNull.

(** The value of the column called [n] in a row laid out with the column
    names [ns]; NULL when [n] names no column or several. *)
Definition field (ns : list string) (n : string) (r : Row) : Value :=
  match positions (name_eq n) ns with
  | [i] => cell i r
  | _ => VNull
  end.

(** ** Column expressions *)

Inductive Expr : Type :=
| ECol (n : string)                     (* col("x"), or a bare name *)
| ERef (a : Attr)                       (* df["x"], df.x *)
| ELit (v : Value)
| EEq (a b : Expr)                      (* a == b *)
| EAnd (a b : Expr)                     (* a & b *)
| ECall (f : Value -> Value) (a : Expr) (* built-in unary function *).

(** What [withColumn] can be given: a native expression, a Python UDF
    applied to an expression, or [monotonically_increasing_id()]. *)
Inductive Column : Type :=
| Plain (e : Expr)
| Udf (f : Value -> option Value) (arg : Expr)
| MonotonicallyIncreasingId.

(** What [select] can be given. *)
Inductive Selector : Type :=
| Sel (n : string)                  (* "x" *)
| SelRef (a : Attr)                 (* df["x"] *)
| SelAs (e : Expr) (alias : string) (* e.alias("y") *).

Fixpoint analyze (cols : list Attr) (e : Expr) : Res (Row -> Value) :=
  match e with
  | ECol n => res_map (fun ia r => cell (fst ia) r) (resolve_name n cols)
  | ERef a => res_map (fun ia r => cell (fst ia) r) (resolve_id a cols)
  | ELit v => Ok (fun _ => v)
  | EEq a b =>
      res_bind (analyze cols a) (fun fa =>
      res_bind (analyze cols b) (fun fb =>
      Ok (fun r => sql_eq (fa r) (fb r))))
  | EAnd a b =>
      res_bind (analyze cols a) (fun fa =>
      res_bind (analyze cols b) (fun fb =>
      Ok (fun r => sql_and (fa r) (fb r))))
  | ECall f a => res_map (fun fa r => f (fa r)) (analyze cols a)
  end.

(** ** Partitioned row collections *)

Fixpoint mapi_from {A B} (f : Z -> A -> B) (k : Z) (l : list A) : list B :=
  match l with
  | [] => []
  | x :: t => f k x :: mapi_from f (k + 1) t
  end.

(** [f p k r]: partition index [p], position [k] of [r] in its partition. *)
Definition map_rows {A B} (f : Z -> Z -> A -> B) (ps : list (list A))
  : list (list B) :=
  mapi_from (fun p part => mapi_from (f p) 0 part) 0 ps.

Definition mapM_rows {A B} (f : Z -> Z -> A -> Res B) (ps : list (list A))
  : Res (list (list B)) :=
  res_mapM (res_mapM (fun x => x)) (map_rows f ps).

(** [monotonically_increasing_id()]: the partition index in the upper 31
    bits, the record number within the partition in the lower 33 bits, as
    a signed 64-bit integer. *)
Definition wrap64 (z : Z) : Z := (z + 2 ^ 63) mod 2 ^ 64 - 2 ^ 63.

Definition monotonically_increasing_id (p k : Z) : Z :=
  wrap64 (wrap64 (p * 2 ^ 33) + k).

(** ** The session: expression ids, readable sources, written datasets *)

(** The records found under a JSON source path, laid out along the field
    names that occur in them; every record holds one value per field. *)
Record Table : Type := { names : list string; parts : list (list Row) }.

(** The schema Spark infers for a JSON source: the fields of its records,
    hence no column at all when the source holds no record. *)
Definition inferred_names (t : Table) : list string :=
  match concat (parts t) with
  | [] => []
  | _ :: _ => names t
  end.

(** A DataFrame: an analysed schema and lazily computed partitions. *)
Record DataFrame : Type := {
  columns : list Attr;
  rows : Res (list (list Row))
}.

Record Dataset : Type := {
  ds_partition_by : list string;
  ds_columns : list string;
  ds_rows : list (list Row)
}.

(** What a write leaves at its path: the new dataset, or nothing when the
    job failed after the old contents had been removed. *)
Inductive Event : Type :=
| Wrote (path : string) (ds : Dataset)
| Cleared (path : string).

Record Session : Type := {
  next_id : N;
  sources : string -> option Table;
  events : list Event   (* oldest first *)
}.

Definition event_path (ev : Event) : string :=
  match ev with
  | Wrote p _ => p
  | Cleared p => p
  end.

(** The dataset stored at [path] after the events [evs]. *)
Definition fs_lookup (path : string) (evs : list Event) : option Dataset :=
  fold_left (fun acc ev =>
               match ev with
               | Wrote p ds => if (p =? path)%string then Some ds else acc
               | Cleared p => if (p =? path)%string then None else acc
               end) evs None.

(** State that survives a failure, plus a result or an error. *)
Definition M (A : Type) : Type := Session -> Session * Res A.

Definition ret {A} (a : A) : M A := fun s => (s, Ok a).

Definition fail {A} (e : Error) : M A := fun s => (s, Err e).

Definition bind {A B} (m : M A) (k : A -> M B) : M B :=
  fun s =>
    match m s with
    | (s', Ok a) => k a s'
    | (s', Err e) => (s', Err e)
    end.

Definition lift {A} (r : Res A) : M A := fun s => (s, r).

Declare Scope etl_scope.
Delimit Scope etl_scope with etl.
Notation "x <- m ;; k" := (bind m (fun x => k))
  (at level 100, m at next level, right associativity) : etl_scope.
Notation "m ;;; k" := (bind m (fun _ => k))
  (at level 100, right associativity) : etl_scope.
Local Open Scope etl_scope.

Definition fresh : M N :=
  fun s => ({| next_id := N.succ (next_id s);
               sources := sources s;
               events := events s |}, Ok (next_id s)).

Definition emit (ev : Event) : M unit :=
  fun s => ({| next_id := next_id s;
               sources := sources s;
               events := events s ++ [ev] |}, Ok tt).

Fixpoint mapM {A B} (f : A -> M B) (l : list A) : M (list B) :=
  match l with
  | [] => ret []
  | x :: t => y <- f x ;; t' <- mapM f t ;; ret (y :: t')
  end.

Inductive JoinType : Type := Inner | LeftOuter.

(** ** DataFrame operations *)

Module Spark.

Definition table_ok (t : Table) : bool :=
    forallb (forallb (fun r => (length r =? length (names t))%nat)) (parts t).

Definition source (path : string) : M Table :=
    fun s =>
      match sources s path with
      | Some t => (s, Ok t)
      | None => (s, Err (AnalysisException ("Path does not exist: " ++ path)%string))
      end.

  (** [spark.read.json(path)] *)
Definition read_json (path : string) : M DataFrame :=
    t <- source path ;;
    if table_ok t then
      cols <- mapM (fun n => i <- fresh ;; ret {| attr_id := i; attr_name := n |})
                   (inferred_names t) ;;
      ret {| columns := cols; rows := Ok (parts t) |}
    else fail (AnalysisException ("malformed records: " ++ path)%string).

  (** [df["x"]] *)
Definition getitem (df : DataFrame) (n : string) : M Attr :=
    lift (res_map (fun ia => {| attr_id := attr_id (snd ia); attr_name := n |})
                  (resolve_name n (columns df))).

  (** [df.x] *)
Definition getattr (df : DataFrame) (n : string) : M Attr :=
    if existsb (String.eqb n) (map attr_name (columns df))
    then getitem df n
    else fail (AttributeError n).

  (** [df.filter(cond)] *)
Definition filter (df : DataFrame) (cond : Expr) : M DataFrame :=
    f <- lift (analyze (columns df) cond) ;;
    ret {| columns := columns df;
           rows := res_map (map (List.filter (fun r => is_true (f r))))
                           (rows df) |}.

Definition select_one (cols : list Attr) (sel : Selector)
    : M (Attr * (Row -> Value)) :=
    match sel with
    | Sel n =>
        ia <- lift (resolve_name n cols) ;;
        ret ({| attr_id := attr_id (snd ia); attr_name := n |}, cell (fst ia))
    | SelRef a =>
        ia <- lift (resolve_id a cols) ;;
        ret (a, cell (fst ia))
    | SelAs e alias =>
        f <- lift (analyze cols e) ;;
        i <- fresh ;;
        ret ({| attr_id := i; attr_name := alias |}, f)
    end.

  (** [df.select(...)] *)
Definition select (df : DataFrame) (sels : list Selector) : M DataFrame :=
    outs <- mapM (select_one (columns df)) sels ;;
    ret {| columns := map fst outs;
           rows := res_map (map (map (fun r => map (fun o => snd o r) outs)))
                           (rows df) |}.

Definition analyze_column (cols : list Attr) (c : Column)
    : Res (Z -> Z -> Row -> Res Value) :=
    match c with
    | Plain e => res_map (fun f _ _ r => Ok (f r)) (analyze cols e)
    | Udf f arg =>
        res_map (fun g _ _ r =>
                   match f (g r) with
                   | Some v => Ok v
                   | None => Err PythonException
                   end) (analyze cols arg)
    | MonotonicallyIncreasingId =>
        Ok (fun p k _ => Ok (VLong (monotonically_increasing_id p k)))
    end.

  (** Every column called [n] is replaced by a new attribute. *)
Fixpoint replace_attrs (n : string) (cols : list Attr) : M (list Attr) :=
    match cols with
    | [] => ret []
    | a :: t =>
        a' <- (if name_eq n (attr_name a)
               then i <- fresh ;; ret {| attr_id := i; attr_name := n |}
               else ret a) ;;
        t' <- replace_attrs n t ;;
        ret (a' :: t')
    end.

Definition has_column (n : string) (ns : list string) : bool :=
    existsb (name_eq n) ns.

  (** Column names after [withColumn(n, _)] on columns called [ns]. *)
Definition put_name (n : string) (ns : list string) : list string :=
    if has_column n ns
    then map (fun m => if name_eq n m then n else m) ns
    else ns ++ [n].

Fixpoint replace_cells (n : string) (ns : list string) (v : Value) (r : Row)
    : Row :=
    match ns, r with
    | m :: ns', x :: r' =>
        (if name_eq n m then v else x) :: replace_cells n ns' v r'
    | _, _ => []
    end.

  (** The row after [withColumn(n, _)] gave it the value [v]. *)
Definition put_value (n : string) (ns : list string) (v : Value) (r : Row)
    : Row :=
    if has_column n ns then replace_cells n ns v r else r ++ [v].

  (** [df.withColumn(n, c)]: replaces the columns called [n] when there are
      some, appends a column otherwise. *)
Definition withColumn (df : DataFrame) (n : string) (c : Column)
    : M DataFrame :=
    let ns := map attr_name (columns df) in
    gen <- lift (analyze_column (columns df) c) ;;
    cols <- (if has_column n ns
             then replace_attrs n (columns df)
             else i <- fresh ;;
                  ret (columns df ++ [{| attr_id := i; attr_name := n |}])) ;;
    ret {| columns := cols;
           rows := res_bind (rows df)
                     (mapM_rows (fun p k r =>
                        res_map (fun v => put_value n ns v r) (gen p k r))) |}.

Definition join_row (how : JoinType) (on : Row -> bool) (right : list Row)
             (width : nat) (l : Row) : list Row :=
    match List.filter (fun r => on (l ++ r)) right, how with
    | [], LeftOuter => [l ++ repeat VNull width]
    | ms, _ => map (fun r => l ++ r) ms
    end.

  (** [left.join(right, on, how)].  [exchange] is the redistribution of the
      left rows over partitions that the physical plan performs before the
      rows are matched (the identity for a broadcast join). *)
Definition join (exchange : list (list Row) -> list (list Row))
             (left right : DataFrame) (on : Expr) (how : JoinType)
    : M DataFrame :=
    let cols := columns left ++ columns right in
    f <- lift (analyze cols on) ;;
    ret {| columns := cols;
           rows := res_bind (rows left) (fun ls =>
                   res_bind (rows right) (fun rs =>
                   Ok (map (flat_map (join_row how (fun r => is_true (f r))
                                        (concat rs) (length (columns right))))
                           (exchange ls)))) |}.

Fixpoint distinct_names (ns : list string) : bool :=
    match ns with
    | [] => true
    | n :: t => negb (existsb (name_eq n) t) && distinct_names t
    end.

  (** [df.write.partitionBy(keys).parquet(path, 'overwrite')].  The schema
      is checked first; then the old contents of [path] are removed and the
      job runs, which forces the rows. *)
Definition write_parquet (df : DataFrame) (keys : list string) (path : string)
    : M unit :=
    lift (res_mapM (fun k => resolve_name k (columns df)) keys) ;;;
    if distinct_names (map attr_name (columns df)) then
      match rows df with
      | Ok ps =>
          emit (Wrote path {| ds_partition_by := keys;
                              ds_columns := map attr_name (columns df);
                              ds_rows := ps |})
      | Err e => emit (Cleared path) ;;; fail e
      end
    else fail (AnalysisException "Found duplicate column(s)").

End Spark.

(** ** The runtime the script runs on *)

(** What [config[section][key]] finds in a section of the parsed
    [dl.cfg]. *)
Inductive Lookup : Type :=
| Found (v : string)  (* the value, interpolated *)
| Missing             (* no such option: KeyError(key) *)
| BadValue            (* the value cannot be interpolated *).

Record Runtime : Type := {
  (** how the join redistributes the rows of its left side *)
  exchange : list (list Row) -> list (list Row);
  (** [datetime.fromtimestamp(x / 1000)] returned through a UDF declared
      with [TimestampType()]; [None] when Python raises *)
  fromtimestamp_millis : Value -> option Value;
  (** [pyspark.sql.functions] *)
  hour : Value -> Value;
  dayofweek : Value -> Value;
  weekofyear : Value -> Value;
  month : Value -> Value;
  year : Value -> Value;
  (** the configuration parsed from [dl.cfg] when the module is loaded:
      the options of each section it has ([None]: no such section) *)
  dl_cfg : string -> option (string -> Lookup)
}.

(** The value of [config[section][key]], when the lookup returns one. *)
Definition config (rt : Runtime) (section key : string) : option string :=
  match dl_cfg rt section with
  | Some options =>
      match options key with
      | Found v => Some v
      | _ => None
      end
  | None => None
  end.

Definition has_nul (s : string) : bool :=
  existsb (fun c => (N_of_ascii c =? 0)%N) (list_ascii_of_string s).

(** ** [etl.py] *)

Section Etl.

Variable rt : Runtime.

  (** [config[section][key]]: [config[section]] raises KeyError(section)
      when [dl.cfg] has no such section; the lookup of [key] in the section
      raises KeyError(key) when the option is missing, and an
      interpolation error when its value cannot be expanded. *)
Definition config_get (section key : string) : M string :=
    match dl_cfg rt section with
    | None => fail (KeyError section)
    | Some options =>
        match options key with
        | Found v => ret v
        | Missing => fail (KeyError key)
        | BadValue => fail InterpolationError
        end
    end.

  (** [os.environ[name] = value]: refused when the value holds a null
      byte.  The environment is not part of the session: what the
      credentials give access to is part of [sources]. *)
Definition setenv (value : string) : M unit :=
    if has_nul value then fail ValueError else ret tt.

Definition process_song_data (input_data output_dir : string) : M DataFrame :=
    (* read song data file *)
    df <- Spark.read_json input_data ;;
    (* extract columns to create songs table *)
    songs_table <- Spark.select df
      [Sel "song_id"; Sel "title"; Sel "artist_id"; Sel "year"; Sel "duration"] ;;
    (* write songs table to parquet files partitioned by year and artist *)
    Spark.write_parquet songs_table ["year"; "artist_id"]
      (output_dir ++ "/songs.parquet")%string ;;;
    (* extract columns to create artists table *)
    artists_table <- Spark.select df
      [Sel "artist_id";
       SelAs (ECol "artist_name") "name";
       SelAs (ECol "artist_location") "location";
       SelAs (ECol "artist_latitude") "latitude";
       SelAs (ECol "artist_longitude") "longitude"] ;;
    (* write artists table to parquet files *)
    Spark.write_parquet artists_table [] (output_dir ++ "/artists.parquet")%string ;;;
    ret df.

Definition process_log_data (input_data output_dir : string) : M DataFrame :=
    (* read log data file *)
    df <- Spark.read_json input_data ;;
    (* filter by actions for song plays *)
    page <- Spark.getattr df "page" ;;
    df <- Spark.filter df (EEq (ERef page) (ELit (VStr "NextSong"))) ;;
    (* extract columns for users table *)
    artists_table <- Spark.select df
      [SelAs (ECol "UserId") "user_id";
       SelAs (ECol "FirstName") "first_name";
       SelAs (ECol "LastName") "last_name";
       Sel "gender";
       Sel "level"] ;;
    (* write users table to parquet files *)
    Spark.write_parquet artists_table [] (output_dir ++ "/users.parquet")%string ;;;
    (* create timestamp column from original timestamp column *)
    let get_timestamp := Udf (fromtimestamp_millis rt) in
    ts <- Spark.getattr df "ts" ;;
    df <- Spark.withColumn df "start_time" (get_timestamp (ERef ts)) ;;
    (* extract columns to create time table *)
    df <- Spark.withColumn df "hour" (Plain (ECall (hour rt) (ECol "start_time"))) ;;
    df <- Spark.withColumn df "day" (Plain (ECall (dayofweek rt) (ECol "start_time"))) ;;
    df <- Spark.withColumn df "week" (Plain (ECall (weekofyear rt) (ECol "start_time"))) ;;
    df <- Spark.withColumn df "month" (Plain (ECall (month rt) (ECol "start_time"))) ;;
    df <- Spark.withColumn df "year" (Plain (ECall (year rt) (ECol "start_time"))) ;;
    df <- Spark.withColumn df "weekday" (Plain (ECall (dayofweek rt) (ECol "start_time"))) ;;
    time_table <- Spark.select df
      [Sel "start_time"; Sel "hour"; Sel "day"; Sel "week"; Sel "month";
       Sel "year"; Sel "weekday"] ;;
    (* write time table to parquet files partitioned by year and month *)
    Spark.write_parquet time_table ["year"; "month"]
      (output_dir ++ "/time.parquet")%string ;;;
    ret df.

Definition process_songplay_data (song_df log_df : DataFrame)
             (output_dir : string) : M unit :=
    (* Join song and log data on artist and song title *)
    artist <- Spark.getattr log_df "artist" ;;
    artist_name <- Spark.getattr song_df "artist_name" ;;
    song <- Spark.getattr log_df "song" ;;
    title <- Spark.getattr song_df "title" ;;
    df <- Spark.join (exchange rt) log_df song_df
            (EAnd (EEq (ERef artist) (ERef artist_name))
                  (EEq (ERef song) (ERef title)))
            LeftOuter ;;
    (* Add a songplay id column to data *)
    df <- Spark.withColumn df "songplay_id" MonotonicallyIncreasingId ;;
    log_year <- Spark.getitem log_df "year" ;;
    songplays <- Spark.select df
      [Sel "songplay_id";
       Sel "start_time";
       SelAs (ECol "userId") "user_id";
       Sel "level";
       Sel "song_id";
       Sel "artist_id";
       SelAs (ECol "sessionId") "session_id";
       Sel "location";
       Sel "useragent";
       SelRef log_year;
       Sel "month"] ;;
    Spark.write_parquet songplays ["year"; "month"]
      (output_dir ++ "/songplay.parquet")%string.

  (** The session state of the monad stands for [create_spark_session()];
      the AWS keys are only copied into the process environment. *)
Definition main (data_loc : string) : M unit :=
    (if (data_loc =? "AWS")%string
     then bind (config_get "AWS" "AWS_ACCESS_KEY_ID") (fun key_id =>
          bind (setenv key_id) (fun _ =>
          bind (config_get "AWS" "AWS_SECRET_ACCESS_KEY") (fun secret =>
          setenv secret)))
     else ret tt) ;;;
    input_song_data <- config_get data_loc "INPUT_SONG_DATA" ;;
    input_log_data <- config_get data_loc "INPUT_LOG_DATA" ;;
    output_dir <- config_get data_loc "OUTPUT_DATA" ;;
    song_df <- process_song_data input_song_data output_dir ;;
    log_df <- process_log_data input_log_data output_dir ;;
    process_songplay_data song_df log_df output_dir.

End Etl.

(** ** A runtime to execute the model: UTC as the time zone of Python and
    of the Spark session, a join that keeps the partitions of its left
    side *)

Module UTC.

Local Open Scope Z_scope.

Definition micros_per_day : Z := 86400000000.

  (** Proleptic Gregorian date of a day number (days since 1970-01-01). *)
Definition civil_from_days (days : Z) : Z * Z * Z :=
    let z := days + 719468 in
    let era := z / 146097 in
    let doe := z - era * 146097 in
    let yoe := (doe - doe / 1460 + doe / 36524 - doe / 146096) / 365 in
    let doy := doe - (365 * yoe + yoe / 4 - yoe / 100) in
    let mp := (5 * doy + 2) / 153 in
    let d := doy - (153 * mp + 2) / 5 + 1 in
    let m := if mp <? 10 then mp + 3 else mp - 9 in
    (yoe + era * 400 + (if m <=? 2 then 1 else 0), m, d).

Definition days_from_civil (y m d : Z) : Z :=
    let y' := if m <=? 2 then y - 1 else y in
    let era := y' / 400 in
    let yoe := y' - era * 400 in
    let doy := (153 * (if 2 <? m then m - 3 else m + 9) + 2) / 5 + d - 1 in
    era * 146097 + (yoe * 365 + yoe / 4 - yoe / 100 + doy) - 719468.

Definition on_timestamp (f : Z -> Z) (v : Value) : Value :=
    match v with
    | VTimestamp us => VLong (f us)
    | _ => VNull
    end.

Definition year_of (us : Z) : Z :=
    fst (fst (civil_from_days (us / micros_per_day))).

Definition month_of (us : Z) : Z :=
    snd (fst (civil_from_days (us / micros_per_day))).

Definition hour_of (us : Z) : Z := (us mod micros_per_day) / 3600000000.

  (** 1 = Sunday, ..., 7 = Saturday *)
Definition dayofweek_of (us : Z) : Z := (us / micros_per_day + 4) mod 7 + 1.

  (** ISO 8601 week: the week of the year that holds its Thursday. *)
Definition weekofyear_of (us : Z) : Z :=
    let days := us / micros_per_day in
    let thursday := days - (days + 3) mod 7 + 3 in
    let y := fst (fst (civil_from_days thursday)) in
    (thursday - days_from_civil y 1 1) / 7 + 1.

  (** *** [datetime.fromtimestamp(x / 1000)] in CPython 3 on a 64-bit
      POSIX platform whose local time zone is UTC *)

  (** Python floats are IEEE 754 binary64 numbers. *)
Definition prec : Z := 53.
Definition emax : Z := 1024.

Definition double_of_Z (z : Z) : spec_float :=
    match z with
    | Z0 => S754_zero false
    | Zpos p => S754_finite false p 0
    | Zneg p => S754_finite true p 0
    end.

Definition double_of_bits (bits : Z) : spec_float :=
    let b := bits mod 2 ^ 64 in
    let sign := 2 ^ 63 <=? b in
    let e := (b / 2 ^ 52) mod 2 ^ 11 in
    let m := b mod 2 ^ 52 in
    if e =? 2047 then (if m =? 0 then S754_infinity sign else S754_nan)
    else if e =? 0 then
      match m with
      | Zpos p => S754_finite sign p (-1074)
      | _ => S754_zero sign
      end
    else S754_finite sign (Z.to_pos (m + 2 ^ 52)) (e - 1075).

  (** [x / 1000]: the true division of Python, correctly rounded. *)
Definition div_1000 (x : spec_float) : spec_float :=
    SFdiv prec emax x (S754_finite false 1000 0).

  (** C's [modf] on [m * 2^e]: the magnitudes of the integral part and of
      the fractional part, which carry the sign of the number. *)
Definition modf (m : positive) (e : Z) : Z * spec_float :=
    if 0 <=? e then (Zpos m * 2 ^ e, S754_zero false)
    else
      (Zpos m / 2 ^ (- e),
       match Zpos m mod 2 ^ (- e) with
       | Zpos r => S754_finite false r e
       | _ => S754_zero false
       end).

  (** The nearest integer, ties going to the even one. *)
Definition round_half_even (x : spec_float) : Z :=
    match x with
    | S754_finite _ m e =>
        if 0 <=? e then Zpos m * 2 ^ e
        else
          let q := Zpos m / 2 ^ (- e) in
          let r := Zpos m mod 2 ^ (- e) in
          match 2 * r ?= 2 ^ (- e) with
          | Lt => q
          | Gt => q + 1
          | Eq => if Z.even q then q else q + 1
          end
    | _ => 0
    end.

  (** The seconds and microseconds CPython reads off a float timestamp
      ([_PyTime_ObjectToTimeval] with half-even rounding): the fractional
      part is scaled by [1e6] in floating point, then rounded. *)
Definition timeval (d : spec_float) : option (Z * Z) :=
    match d with
    | S754_zero _ => Some (0, 0)
    | S754_finite sign m e =>
        let '(int_part, frac) := modf m e in
        let us := round_half_even
                    (SFmul prec emax frac (S754_finite false 1000000 0)) in
        if sign then
          (if us =? 0 then Some (- int_part, 0)
           else Some (- int_part - 1, 1000000 - us))
        else
          (if 1000000 <=? us then Some (int_part + 1, us - 1000000)
           else Some (int_part, us))
    | _ => None
    end.

  (** A local [datetime] exists for the seconds from 0001-01-02 to the end
      of year 9999: the conversion also looks one day back, which must not
      leave year 1.  The UDF's result goes back to Spark as the
      microseconds of that [datetime]. *)
Definition timestamp_of (d : spec_float) : option Value :=
    match timeval d with
    | Some (sec, us) =>
        if (-62135510400 <=? sec) && (sec <=? 253402300799)
        then Some (VTimestamp (sec * 1000000 + us))
        else None
    | None => None
    end.

  (** The UDF [lambda x: datetime.fromtimestamp(x / 1000)] on a cell: a
      long, a boolean (an [int] in Python) or a double is divided; NULL, a
      string or a timestamp makes the division raise TypeError. *)
Definition fromtimestamp (v : Value) : option Value :=
    match v with
    | VLong ms => timestamp_of (div_1000 (double_of_Z ms))
    | VBool b => timestamp_of (div_1000 (double_of_Z (if b then 1 else 0)))
    | VDouble bits => timestamp_of (div_1000 (double_of_bits bits))
    | VNull | VStr _ | VTimestamp _ => None
    end.

Definition runtime (cfg : string -> option (string -> Lookup)) : Runtime :=
    {| exchange := fun ps => ps;
       fromtimestamp_millis := fromtimestamp;
       hour := on_timestamp hour_of;
       dayofweek := on_timestamp dayofweek_of;
       weekofyear := on_timestamp weekofyear_of;
       month := on_timestamp month_of;
       year := on_timestamp year_of;
       dl_cfg := cfg |}.

End UTC.

(** ** Sample data: the layout of the Sparkify song and log files *)

Module Sample.

Definition song_columns : list string :=
    ["artist_id"; "artist_latitude"; "artist_location"; "artist_longitude";
     "artist_name"; "duration"; "num_songs"; "song_id"; "title"; "year"].

Definition log_columns : list string :=
    ["artist"; "auth"; "firstName"; "gender"; "itemInSession"; "lastName";
     "length"; "level"; "location"; "method"; "page"; "registration";
     "sessionId"; "song"; "status"; "ts"; "userAgent"; "userId"].

Definition song (artist_id artist_name song_id title : string) (y : Z) : Row :=
    [VStr artist_id; VNull; VStr "NY"; VNull; VStr artist_name;
     VDouble 4640537203540230144; VLong 1; VStr song_id; VStr title; VLong y].

Definition play (artist song_title : Value) (page user : string) (ts : Value)
    : Row :=
    [artist; VStr "Logged In"; VStr "Ann"; VStr "F"; VLong 0; VStr "Lee";
     VNull; VStr "free"; VStr "NY"; VStr "PUT"; VStr page; VNull;
     VLong 5; song_title; VLong 200; ts; VStr "x"; VStr user].

  (** A [dl.cfg] with a LOCAL section and no AWS section; option names
      are matched whatever their letter case, as configparser does. *)
Definition config_of (input_song_data input_log_data output_data : string)
             (section : string) : option (string -> Lookup) :=
    if (section =? "LOCAL")%string then
      Some (fun key =>
              if name_eq key "INPUT_SONG_DATA" then Found input_song_data
              else if name_eq key "INPUT_LOG_DATA" then Found input_log_data
              else if name_eq key "OUTPUT_DATA" then Found output_data
              else Missing)
    else if (section =? "DEFAULT")%string then Some (fun _ => Missing)
    else None.

Definition config : string -> option (string -> Lookup) :=
    config_of "data/song_data" "data/log_data" "out".

Definition rt : Runtime := UTC.runtime config.

Definition session (songs logs : list (list Row)) : Session :=
    {| next_id := 0;
       sources := fun path =>
         if (path =? "data/song_data")%string
         then Some {| names := song_columns; parts := songs |}
         else if (path =? "data/log_data")%string
         then Some {| names := log_columns; parts := logs |}
         else None;
       events := [] |}.

Definition run (songs logs : list (list Row)) : Session * Res unit :=
    main rt "LOCAL" (session songs logs).

Definition written (songs logs : list (list Row)) (path : string)
    : option Dataset :=
    fs_lookup path (events (fst (run songs logs))).

  (** One catalog entry, one matching play, one play of an unknown song,
      one login event. *)
Definition songs1 : list (list Row) :=
    [[song "A1" "Test Artist" "S1" "Test Song" 2000]].

Definition logs1 : list (list Row) :=
    [[play (VStr "Test Artist") (VStr "Test Song") "NextSong" "U1"
        (VLong 1000000000000);
      play (VStr "Test Artist") (VStr "Other Song") "NextSong" "U1"
        (VLong 1000000000000);
      play VNull VNull "Login" "U2" (VLong 1000000000001)]].

  (** The same song released twice under two song ids. *)
Definition songs2 : list (list Row) :=
    [[song "A1" "Test Artist" "S1" "Test Song" 2000;
      song "A1" "Test Artist" "S2" "Test Song" 2005]].

Definition logs2 : list (list Row) :=
    [[play (VStr "Test Artist") (VStr "Test Song") "NextSong" "U1"
        (VLong 1000000000000)]].

End Sample.

(** ** Predicates used in the statements *)

(** Steps that only analyse: they leave sources and datasets alone and
    never fail with a Python exception. *)
Definition analysis_only {A} (m : M A) : Prop :=
  forall s s1 r, m s = (s1, r) ->
    events s1 = events s /\ sources s1 = sources s /\
    forall e, r = Err e -> e <> PythonException.

Definition res_static {A} (r : Res A) : Prop :=
  forall e, r = Err e -> e <> PythonException.

(** ** The rows the five tables hold *)

(** [ns]: the column names of the frame the row is taken from. *)
Definition songs_row (ns : list string) (r : Row) : Row :=
  [field ns "song_id" r; field ns "title" r; field ns "artist_id" r;
   field ns "year" r; field ns "duration" r].

Definition artists_row (ns : list string) (r : Row) : Row :=
  [field ns "artist_id" r; field ns "artist_name" r;
   field ns "artist_location" r; field ns "artist_latitude" r;
   field ns "artist_longitude" r].

Definition users_row (ns : list string) (r : Row) : Row :=
  [field ns "UserId" r; field ns "FirstName" r; field ns "LastName" r;
   field ns "gender" r; field ns "level" r].

Definition is_next_song (ns : list string) (r : Row) : bool :=
  is_true (sql_eq (field ns "page" r) (VStr "NextSong")).

Definition songs_dataset (t : Table) : Dataset :=
  {| ds_partition_by := ["year"; "artist_id"];
     ds_columns := ["song_id"; "title"; "artist_id"; "year"; "duration"];
     ds_rows := map (map (songs_row (names t))) (parts t) |}.

Definition artists_dataset (t : Table) : Dataset :=
  {| ds_partition_by := [];
     ds_columns := ["artist_id"; "name"; "location"; "latitude"; "longitude"];
     ds_rows := map (map (artists_row (names t))) (parts t) |}.

Definition users_dataset (t : Table) : Dataset :=
  {| ds_partition_by := [];
     ds_columns := ["user_id"; "first_name"; "last_name"; "gender"; "level"];
     ds_rows := map (fun part => map (users_row (names t))
                                     (filter (is_next_song (names t)) part))
                    (parts t) |}.

(** ** The rows of the log frame *)

(** A frame seen from one of its rows: the column names and the row. *)
Definition with_value (n : string) (v : Value) (fr : list string * Row)
  : list string * Row :=
  (Spark.put_name n (fst fr), Spark.put_value n (fst fr) v (snd fr)).

Definition with_call (n : string) (f : Value -> Value) (fr : list string * Row)
  : list string * Row :=
  with_value n (f (field (fst fr) "start_time" (snd fr))) fr.

(** The log row [r], laid out as [ns], after the seven [withColumn] steps
    of [process_log_data], [st] being its converted timestamp. *)
Definition log_frame (rt : Runtime) (ns : list string) (st : Value) (r : Row)
  : list string * Row :=
  with_call "weekday" (dayofweek rt)
    (with_call "year" (year rt)
       (with_call "month" (month rt)
          (with_call "week" (weekofyear rt)
             (with_call "day" (dayofweek rt)
                (with_call "hour" (hour rt)
                   (with_value "start_time" st (ns, r))))))).

Definition log_row (rt : Runtime) (ns : list string) (st : Value) (r : Row)
  : Row :=
  snd (log_frame rt ns st r).

Definition log_names (ns : list string) : list string :=
  Spark.put_name "weekday"
    (Spark.put_name "year"
       (Spark.put_name "month"
          (Spark.put_name "week"
             (Spark.put_name "day"
                (Spark.put_name "hour"
                   (Spark.put_name "start_time" ns)))))).

Definition time_row (ns : list string) (l : Row) : Row :=
  [field ns "start_time" l; field ns "hour" l; field ns "day" l;
   field ns "week" l; field ns "month" l; field ns "year" l;
   field ns "weekday" l].

Definition time_columns : list string :=
  ["start_time"; "hour"; "day"; "week"; "month"; "year"; "weekday"].

(** The plays: the log rows that pass the filter, partition by partition. *)
Definition plays (t : Table) : list (list Row) :=
  map (filter (is_next_song (names t))) (parts t).

(** [l] is the log-frame row of the play [r]. *)
Definition derived_from (rt : Runtime) (ns : list string) (r l : Row) : Prop :=
  exists st, fromtimestamp_millis rt (field ns "ts" r) = Some st /\
             l = log_row rt ns st r.

(** ** The rows of the fact table *)

(** The join predicate of [process_songplay_data] on a log row and a
    catalog row. *)
Definition song_matches (nsL nsS : list string) (l r : Row) : bool :=
  is_true (sql_and (sql_eq (field nsL "artist" l) (field nsS "artist_name" r))
                   (sql_eq (field nsL "song" l) (field nsS "title" r))).

(** The joined rows one log row gives rise to. *)
Definition joined (nsL nsS : list string) (catalog : list Row) (l : Row)
  : list Row :=
  match filter (song_matches nsL nsS l) catalog with
  | [] => [l ++ repeat VNull (length nsS)]
  | ms => map (fun r => l ++ r) ms
  end.

(** The projection of a joined row [j] that was given the id [id]. *)
Definition songplay_row (nsL nsS : list string) (id : Z) (j : Row) : Row :=
  let ns := Spark.put_name "songplay_id" (nsL ++ nsS) in
  let j' := Spark.put_value "songplay_id" (nsL ++ nsS) (VLong id) j in
  [field ns "songplay_id" j'; field ns "start_time" j'; field ns "userId" j';
   field ns "level" j'; field ns "song_id" j'; field ns "artist_id" j';
   field ns "sessionId" j'; field ns "location" j'; field ns "useragent" j';
   field nsL "year" j; field ns "month" j'].

Definition songplay_columns : list string :=
  ["songplay_id"; "start_time"; "user_id"; "level"; "song_id"; "artist_id";
   "session_id"; "location"; "useragent"; "year"; "month"].

(** The names [process_songplay_data] looks up in the joined frame. *)
Definition songplay_inputs : list string :=
  ["songplay_id"; "start_time"; "userId"; "level"; "song_id"; "artist_id";
   "sessionId"; "location"; "useragent"; "month"].

Definition songplay_rows (rt : Runtime) (nsL nsS : list string)
           (PL PS : list (list Row)) : list (list Row) :=
  map_rows (fun p k j => songplay_row nsL nsS (monotonically_increasing_id p k) j)
           (map (flat_map (joined nsL nsS (concat PS))) (exchange rt PL)).

(** Every row has one cell per column. *)
Definition wf_rows (ns : list string) (ps : list (list Row)) : Prop :=
  Forall (Forall (fun r => length r = length ns)) ps.

(** The join's exchange neither loses nor invents rows. *)
Definition exchange_ok (rt : Runtime) : Prop :=
  forall ps, Permutation (concat (exchange rt ps)) (concat ps).

(** A frame row with one cell per column. *)
Definition well_formed (fr : list string * Row) : Prop :=
  length (snd fr) = length (fst fr).

Definition time_dataset (ns : list string) (P : list (list Row)) : Dataset :=
  {| ds_partition_by := ["year"; "month"];
     ds_columns := time_columns;
     ds_rows := map (map (time_row (log_names ns))) P |}.

(** ** Completed runs *)

(** [main data_loc] ran to completion from session [s] to session [s'],
    having read the catalog [songs] and the log [logs] and written under
    [output_dir]. *)
Definition Run (rt : Runtime) (data_loc : string) (s s' : Session)
           (songs logs : Table) (output_dir : string) : Prop :=
  main rt data_loc s = (s', Ok tt) /\
  exists input_song_data input_log_data,
    config rt data_loc "INPUT_SONG_DATA" = Some input_song_data /\
    sources s input_song_data = Some songs /\
    config rt data_loc "INPUT_LOG_DATA" = Some input_log_data /\
    sources s input_log_data = Some logs /\
    config rt data_loc "OUTPUT_DATA" = Some output_dir.

(** ** Lineage of the fact rows *)

(** [os] is made, in order, of one group of rows per element of [ls]. *)
Inductive grouped {A B} (R : A -> list B -> Prop) : list A -> list B -> Prop :=
| grouped_nil : grouped R [] []
| grouped_cons l outs ls os :
    R l outs -> grouped R ls os -> grouped R (l :: ls) (outs ++ os).

(** The fact rows that stem from the log-frame row [l]: one per joined
    row, each with an id of its own. *)
Definition songplay_group (nsL nsS : list string) (catalog : list Row)
           (l : Row) (outs : list Row) : Prop :=
  Forall2 (fun j o => exists id, o = songplay_row nsL nsS id j)
          (joined nsL nsS catalog l) outs.

(** The catalog rows a play matches. *)
Definition matches (ns nsS : list string) (catalog : list Row) (r : Row)
  : list Row :=
  filter (song_matches ns nsS r) catalog.

Definition has_field (ns : list string) (n : string) : Prop :=
  positions (name_eq n) ns <> [].

(** The fact columns taken over from the log: output name, log name. *)
Definition songplay_sources : list (string * string) :=
  [("user_id", "userId"); ("level", "level"); ("session_id", "sessionId");
   ("location", "location"); ("useragent", "useragent")].

(** ** Sample runs *)

Module Runs.

Definition songs1 : Table :=
  {| names := Sample.song_columns; parts := Sample.songs1 |}.

Definition logs1 : Table :=
  {| names := Sample.log_columns; parts := Sample.logs1 |}.

Definition songs2 : Table :=
  {| names := Sample.song_columns; parts := Sample.songs2 |}.

Definition logs2 : Table :=
  {| names := Sample.log_columns; parts := Sample.logs2 |}.

Definition start1 : Session := Sample.session Sample.songs1 Sample.logs1.
Definition end1 : Session := fst (Sample.run Sample.songs1 Sample.logs1).

Definition start2 : Session := Sample.session Sample.songs2 Sample.logs2.
Definition end2 : Session := fst (Sample.run Sample.songs2 Sample.logs2).

End Runs.

(** ** Log tables that differ in their timestamps only *)



(** A log with a play that has no timestamp: the conversion raises. *)
Module Failing.

Definition log_rows : list (list Row) :=
  [[Sample.play (VStr "Test Artist") (VStr "Test Song") "NextSong" "U1" VNull]].

Definition logs : Table :=
  {| names := Sample.log_columns; parts := log_rows |}.

Definition start : Session := Sample.session Sample.songs1 log_rows.

Definition finish : Session := fst (Sample.run Sample.songs1 log_rows).

End Failing.

(** A play whose artist is unknown and a play whose song is unknown. *)
Module NullKey.

Definition log_rows : list (list Row) :=
  [[Sample.play VNull (VStr "Test Song") "NextSong" "U1" (VLong 1000000000000);
    Sample.play (VStr "Test Artist") VNull "NextSong" "U2"
      (VLong 1000000000001)]].

Definition logs : Table :=
  {| names := Sample.log_columns; parts := log_rows |}.

Definition start : Session := Sample.session Sample.songs1 log_rows.

Definition finish : Session := fst (Sample.run Sample.songs1 log_rows).

End NullKey.

(** A log whose records have no ts field. *)
Module NoTimestamp.

Definition log_columns : list string :=
  ["artist"; "auth"; "firstName"; "gender"; "itemInSession"; "lastName";
   "length"; "level"; "location"; "method"; "page"; "registration";
   "sessionId"; "song"; "status"; "userAgent"; "userId"].

Definition play (page user : string) : Row :=
  [VStr "Test Artist"; VStr "Logged In"; VStr "Ann"; VStr "F"; VLong 0;
   VStr "Lee"; VNull; VStr "free"; VStr "NY"; VStr "PUT"; VStr page; VNull;
   VLong 5; VStr "Test Song"; VLong 200; VStr "x"; VStr user].

Definition logs : Table :=
  {| names := log_columns;
     parts := [[play "NextSong" "U1"; play "Login" "U2"]] |}.

Definition start : Session :=
  {| next_id := 0;
     sources := fun path =>
       if (path =? "data/log_data")%string then Some logs else None;
     events := [] |}.

End NoTimestamp.

(** A log frame with more rows in one partition than the record number
    of [monotonically_increasing_id] can tell apart. *)
Module Overfull.

(** The frames [main] hands to [process_songplay_data] in the first
    sample run, and the session it is in at that point. *)
Definition handed_over : Session * Res (DataFrame * DataFrame) :=
  (song_df <- process_song_data "data/song_data" "out" ;;
   log_df <- process_log_data Sample.rt "data/log_data" "out" ;;
   ret (song_df, log_df)) Runs.start1.

Definition session : Session := fst handed_over.

Definition song_df : DataFrame :=
  match snd handed_over with
  | Ok (song_df, _) => song_df
  | Err _ => {| columns := []; rows := Ok [] |}
  end.

Definition sample_log_df : DataFrame :=
  match snd handed_over with
  | Ok (_, log_df) => log_df
  | Err _ => {| columns := []; rows := Ok [] |}
  end.

(** The first row of that log frame. *)
Definition row : Row :=
  match rows sample_log_df with
  | Ok ((r :: _) :: _) => r
  | _ => []
  end.

(** The log frame with this row [n] times in a first partition and once
    in a second partition. *)
Definition log_df (n : nat) : DataFrame :=
  {| columns := columns sample_log_df;
     rows := Ok [repeat row n; [row]] |}.

End Overfull.

(** ** The columns of the log that the users table is made from *)


(** ** The configuration a run reads *)

(** The options [main] reads from the section [data_loc], in the order
    in which it reads them. *)
Definition config_keys (data_loc : string) : list string :=
  (if (data_loc =? "AWS")%string
   then ["AWS_ACCESS_KEY_ID"; "AWS_SECRET_ACCESS_KEY"]
   else []) ++
  ["INPUT_SONG_DATA"; "INPUT_LOG_DATA"; "OUTPUT_DATA"].

(** ** What a program writes, whatever its outcome *)

(** The paths of the five datasets, in the order in which [main] writes
    them. *)
Definition dataset_paths (output_dir : string) : list string :=
  [(output_dir ++ "/songs.parquet")%string;
   (output_dir ++ "/artists.parquet")%string;
   (output_dir ++ "/users.parquet")%string;
   (output_dir ++ "/time.parquet")%string;
   (output_dir ++ "/songplay.parquet")%string].

(** [m] leaves the sources alone and touches the store at the paths
    [paths], in this order: at all of them when it returns, at the first
    few of them when it fails. *)
Definition emits {A} (paths : list string) (m : M A) : Prop :=
  forall s s1 r, m s = (s1, r) ->
    sources s1 = sources s /\
    exists new,
      events s1 = events s ++ new /\
      match r with
      | Ok _ => map event_path new = paths
      | Err _ => exists rest, map event_path new ++ rest = paths
      end.

(** * Properties *)

(** ** Lists, positions and names *)

Lemma positions_lt {A} (p : A -> bool) (l : list A) (i : nat) :
  In i (positions p l) -> (i < length l)%nat.
Proof.
  revert i; induction l as [|x t IH]; simpl; intros i H; [contradiction|].
  apply in_app_or in H; destruct H as [H|H].
  - destruct (p x); simpl in H; [destruct H as [<-|[]]; lia | contradiction].
  - apply in_map_iff in H; destruct H as (j & <- & Hj).
    apply IH in Hj; lia.
Qed.

Lemma positions_spec {A} (p : A -> bool) (l : list A) (i : nat) :
  In i (positions p l) <-> exists x, nth_error l i = Some x /\ p x = true.
Proof.
  revert i; induction l as [|x t IH]; simpl; intros i.
  - split; [contradiction|]. intros (y & H & _). destruct i; discriminate.
  - rewrite in_app_iff, in_map_iff. split.
    + intros [H|(j & <- & Hj)].
      * destruct (p x) eqn:E; simpl in H; [|contradiction].
        destruct H as [<-|[]]. exists x; auto.
      * apply IH in Hj. exact Hj.
    + intros (y & Hy & Hp). destruct i as [|j]; simpl in Hy.
      * injection Hy as ->. rewrite Hp. left; simpl; auto.
      * right. exists j; split; [reflexivity|]. apply IH. eauto.
Qed.

Lemma positions_app {A} (p : A -> bool) (l r : list A) :
  positions p (l ++ r) =
  positions p l ++ map (fun i => (length l + i)%nat) (positions p r).
Proof.
  induction l as [|x t IH]; simpl.
  - rewrite map_id; reflexivity.
  - rewrite IH, map_app, map_map, <- app_assoc. reflexivity.
Qed.

Lemma positions_ext {A} (p q : A -> bool) (l : list A) :
  (forall x, In x l -> p x = q x) -> positions p l = positions q l.
Proof.
  induction l as [|x t IH]; simpl; intros H; [reflexivity|].
  rewrite (H x), IH; auto.
Qed.

Lemma positions_map {A B} (g : A -> B) (p : B -> bool) (l : list A) :
  positions p (map g l) = positions (fun x => p (g x)) l.
Proof.
  induction l as [|x t IH]; simpl; [reflexivity|]. rewrite IH; reflexivity.
Qed.

Lemma positions_nil_iff {A} (p : A -> bool) (l : list A) :
  positions p l = [] <-> existsb p l = false.
Proof.
  induction l as [|x t IH]; simpl; [tauto|].
  destruct (p x); simpl.
  - split; discriminate.
  - rewrite <- IH. destruct (positions p t); simpl; split; congruence.
Qed.

Lemma unique_position_ok {A} what (p : A -> bool) (l : list A) i a :
  unique_position what p l = Ok (i, a) ->
  positions p l = [i] /\ nth_error l i = Some a /\ p a = true.
Proof.
  unfold unique_position. intros H.
  destruct (positions p l) as [|j [|k t]] eqn:E; try discriminate.
  destruct (nth_error l j) as [b|] eqn:Eb; try discriminate.
  injection H as -> ->. repeat split; auto.
  assert (Hin : In i (positions p l)) by (rewrite E; simpl; auto).
  apply positions_spec in Hin. destruct Hin as (x & Hx & Hp). congruence.
Qed.

Lemma unique_position_at {A} what (p : A -> bool) (l : list A) i a j b :
  unique_position what p l = Ok (i, a) ->
  nth_error l j = Some b -> p b = true -> j = i.
Proof.
  intros H Hj Hb. apply unique_position_ok in H. destruct H as (E & _ & _).
  assert (Hin : In j (positions p l)) by (apply positions_spec; eauto).
  rewrite E in Hin. simpl in Hin. destruct Hin as [->|[]]. reflexivity.
Qed.

Lemma name_eq_true (a b : string) : name_eq a b = true <-> lower a = lower b.
Proof. unfold name_eq. apply String.eqb_eq. Qed.

Lemma name_eq_refl (a : string) : name_eq a a = true.
Proof. apply name_eq_true; reflexivity. Qed.

Lemma name_eq_sym (a b : string) : name_eq a b = name_eq b a.
Proof. unfold name_eq. apply String.eqb_sym. Qed.

(** Two names that match a third one in different ways differ. *)
Lemma name_eq_left (a b c : string) :
  name_eq a c = true -> name_eq a b = name_eq c b.
Proof.
  intros H. apply name_eq_true in H. unfold name_eq. rewrite H. reflexivity.
Qed.

Lemma resolve_name_positions (n : string) (cols : list Attr) :
  positions (fun a => name_eq n (attr_name a)) cols =
  positions (name_eq n) (map attr_name cols).
Proof. rewrite positions_map. reflexivity. Qed.

Lemma resolve_name_cell (cols : list Attr) (n : string) i a (r : Row) :
  resolve_name n cols = Ok (i, a) -> cell i r = field (map attr_name cols) n r.
Proof.
  intros H. apply unique_position_ok in H. destruct H as (E & _ & _).
  unfold field. rewrite <- resolve_name_positions, E. reflexivity.
Qed.

(** ** The session monad *)

Lemma bind_ok {A B} (m : M A) (k : A -> M B) s s' b :
  bind m k s = (s', Ok b) ->
  exists a s1, m s = (s1, Ok a) /\ k a s1 = (s', Ok b).
Proof.
  unfold bind. destruct (m s) as [s1 [a|e]]; intros H; [eauto | discriminate].
Qed.

Lemma bind_inv {A B} (m : M A) (k : A -> M B) s s' (r : Res B) :
  bind m k s = (s', r) ->
  (exists a s1, m s = (s1, Ok a) /\ k a s1 = (s', r)) \/
  (exists e, m s = (s', Err e) /\ r = Err e).
Proof.
  unfold bind. destruct (m s) as [s1 [a|e]]; intros H.
  - left; eauto.
  - right. injection H as -> <-. eauto.
Qed.

Lemma analysis_only_ret {A} (a : A) : analysis_only (ret a).
Proof. intros s s1 r H. injection H as <- <-. repeat split; discriminate. Qed.

Lemma analysis_only_lift {A} (r : Res A) : res_static r -> analysis_only (lift r).
Proof. intros Hr s s1 r' H. injection H as <- <-. repeat split; auto. Qed.

Lemma analysis_only_fail {A} (e : Error) :
  e <> PythonException -> analysis_only (@fail A e).
Proof.
  intros He s s1 r H. injection H as <- <-. repeat split; congruence.
Qed.

Lemma analysis_only_fresh : analysis_only fresh.
Proof. intros s s1 r H. injection H as <- <-. repeat split; discriminate. Qed.

Lemma analysis_only_bind {A B} (m : M A) (k : A -> M B) :
  analysis_only m -> (forall a, analysis_only (k a)) -> analysis_only (bind m k).
Proof.
  intros Hm Hk s s1 r H. apply bind_inv in H.
  destruct H as [(a & s2 & H1 & H2) | (e & H1 & ->)].
  - apply Hm in H1. apply Hk in H2.
    destruct H1 as (E1 & E2 & _), H2 as (E3 & E4 & N).
    repeat split; try congruence. exact N.
  - apply Hm in H1. destruct H1 as (E1 & E2 & N).
    repeat split; auto. intros e' [= <-]. apply (N e). reflexivity.
Qed.

Lemma analysis_only_mapM {A B} (f : A -> M B) (l : list A) :
  (forall x, analysis_only (f x)) -> analysis_only (mapM f l).
Proof.
  intros Hf. induction l as [|x t IH]; simpl.
  - apply analysis_only_ret.
  - apply analysis_only_bind; [apply Hf|]. intros y.
    apply analysis_only_bind; [apply IH|]. intros t'. apply analysis_only_ret.
Qed.

Lemma res_static_ok {A} (a : A) : res_static (Ok a).
Proof. intros e; discriminate. Qed.

Lemma res_static_bind {A B} (r : Res A) (k : A -> Res B) :
  res_static r -> (forall a, res_static (k a)) -> res_static (res_bind r k).
Proof.
  unfold res_static. destruct r as [a|e]; simpl; intros Hr Hk; [apply Hk|].
  intros e' [= <-]. apply (Hr e). reflexivity.
Qed.

Lemma res_static_map {A B} (f : A -> B) (r : Res A) :
  res_static r -> res_static (res_map f r).
Proof.
  intros Hr. apply res_static_bind; [exact Hr|]. intros a; apply res_static_ok.
Qed.

Lemma res_static_unique {A} what (p : A -> bool) (l : list A) :
  res_static (unique_position what p l).
Proof.
  unfold res_static, unique_position. intros e.
  destruct (positions p l) as [|i [|j t]]; try (intros [= <-]; discriminate).
  destruct (nth_error l i); [discriminate | intros [= <-]; discriminate].
Qed.

Lemma res_static_analyze (cols : list Attr) (e : Expr) :
  res_static (analyze cols e).
Proof.
  induction e; simpl.
  - apply res_static_map, res_static_unique.
  - apply res_static_map, res_static_unique.
  - apply res_static_ok.
  - apply res_static_bind; [assumption|]. intros fa.
    apply res_static_bind; [assumption|]. intros fb. apply res_static_ok.
  - apply res_static_bind; [assumption|]. intros fa.
    apply res_static_bind; [assumption|]. intros fb. apply res_static_ok.
  - apply res_static_map; assumption.
Qed.

Lemma res_static_mapM {A B} (f : A -> Res B) (l : list A) :
  (forall x, res_static (f x)) -> res_static (res_mapM f l).
Proof.
  intros Hf. induction l as [|x t IH]; simpl; [apply res_static_ok|].
  apply res_static_bind; [apply Hf|]. intros y.
  apply res_static_bind; [apply IH|]. intros t'. apply res_static_ok.
Qed.

Create HintDb etl.
#[local] Hint Resolve analysis_only_ret analysis_only_lift analysis_only_fresh
  analysis_only_bind analysis_only_mapM res_static_analyze res_static_map
  res_static_unique res_static_mapM res_static_ok : etl.

Lemma analysis_only_getitem df n : analysis_only (Spark.getitem df n).
Proof.
  unfold Spark.getitem, resolve_name. auto with etl.
Qed.

Lemma analysis_only_getattr df n : analysis_only (Spark.getattr df n).
Proof.
  unfold Spark.getattr. destruct (existsb _ _).
  - apply analysis_only_getitem.
  - apply analysis_only_fail. discriminate.
Qed.

Lemma analysis_only_filter df c : analysis_only (Spark.filter df c).
Proof. unfold Spark.filter. auto with etl. Qed.

Lemma analysis_only_select df sels : analysis_only (Spark.select df sels).
Proof.
  unfold Spark.select. apply analysis_only_bind; [|auto with etl].
  apply analysis_only_mapM. intros [n|a|e alias]; simpl;
    unfold resolve_name, resolve_id; auto 6 with etl.
Qed.

Lemma analysis_only_replace_attrs n cols :
  analysis_only (Spark.replace_attrs n cols).
Proof.
  induction cols as [|a t IH]; simpl; [auto with etl|].
  apply analysis_only_bind; [destruct (name_eq _ _); auto with etl|].
  auto with etl.
Qed.

Lemma analysis_only_withColumn df n c : analysis_only (Spark.withColumn df n c).
Proof.
  unfold Spark.withColumn. apply analysis_only_bind.
  - apply analysis_only_lift. destruct c; simpl; auto with etl.
  - intros gen. apply analysis_only_bind; [|auto with etl].
    destruct (Spark.has_column _ _);
      [apply analysis_only_replace_attrs | auto with etl].
Qed.

Lemma analysis_only_join ex l r c how : analysis_only (Spark.join ex l r c how).
Proof. unfold Spark.join. auto with etl. Qed.

Lemma analysis_only_source path : analysis_only (Spark.source path).
Proof.
  intros s s1 r H. unfold Spark.source in H.
  destruct (sources s path); injection H as <- <-; repeat split;
    intros e [= <-]; discriminate.
Qed.

Lemma analysis_only_read_json path : analysis_only (Spark.read_json path).
Proof.
  unfold Spark.read_json. apply analysis_only_bind;
    [apply analysis_only_source|]. intros t.
  destruct (Spark.table_ok t); [auto 6 with etl|].
  apply analysis_only_fail; discriminate.
Qed.

Lemma analysis_only_config_get rt sec key : analysis_only (config_get rt sec key).
Proof.
  unfold config_get. destruct (dl_cfg rt sec) as [options|];
    [destruct (options key)|]; auto with etl;
    apply analysis_only_fail; discriminate.
Qed.

Lemma analysis_only_setenv value : analysis_only (setenv value).
Proof.
  unfold setenv. destruct (has_nul value); [|auto with etl].
  apply analysis_only_fail; discriminate.
Qed.

#[local] Hint Resolve analysis_only_getitem analysis_only_getattr
  analysis_only_filter analysis_only_select analysis_only_withColumn
  analysis_only_join analysis_only_read_json analysis_only_config_get
  analysis_only_setenv : etl.

(** ** What each DataFrame operation returns *)

Lemma mapM_ok {A B} (f : A -> M B) (l : list A) s s1 ys :
  mapM f l s = (s1, Ok ys) ->
  Forall2 (fun x y => exists sa sb, f x sa = (sb, Ok y)) l ys.
Proof.
  revert s ys; induction l as [|x t IH]; simpl; intros s ys H.
  - injection H as <- <-. constructor.
  - apply bind_ok in H. destruct H as (y & s2 & Hy & H).
    apply bind_ok in H. destruct H as (t' & s3 & Ht & H).
    injection H as <- <-. constructor; eauto.
Qed.

Lemma lift_ok {A} (r : Res A) s s1 a : lift r s = (s1, Ok a) -> r = Ok a.
Proof. intros H. injection H as <- ->. reflexivity. Qed.

Lemma res_map_ok {A B} (f : A -> B) (r : Res A) b :
  res_map f r = Ok b -> exists a, r = Ok a /\ b = f a.
Proof.
  destruct r as [a|e]; simpl; intros H; [|discriminate].
  injection H as <-. eauto.
Qed.

Lemma res_bind_ok {A B} (r : Res A) (k : A -> Res B) b :
  res_bind r k = Ok b -> exists a, r = Ok a /\ k a = Ok b.
Proof. destruct r as [a|e]; simpl; intros H; [eauto | discriminate]. Qed.

Lemma read_json_inferred path s s1 df :
  Spark.read_json path s = (s1, Ok df) ->
  exists t, sources s path = Some t /\
            Spark.table_ok t = true /\
            map attr_name (columns df) = inferred_names t /\
            rows df = Ok (parts t).
Proof.
  unfold Spark.read_json. intros H.
  apply bind_ok in H. destruct H as (t & s2 & Ht & H).
  unfold Spark.source in Ht.
  destruct (sources s path) as [t0|] eqn:Es; [|discriminate].
  injection Ht as <- ->.
  destruct (Spark.table_ok t) eqn:Et; [|discriminate].
  apply bind_ok in H. destruct H as (cols & s3 & Hc & H).
  injection H as <- <-. exists t. repeat split; auto. simpl.
  apply mapM_ok in Hc. induction Hc as [|n a ns cs Hna _ IH]; simpl;
    [reflexivity|].
  destruct Hna as (sa & sb & Hna). apply bind_ok in Hna.
  destruct Hna as (i & s4 & _ & Hna). injection Hna as _ <-.
  simpl. rewrite IH. reflexivity.
Qed.

(** A source whose schema has a column holds a record, and its schema is
    made of the fields of its records. *)
Lemma inferred_names_used t :
  inferred_names t <> [] ->
  inferred_names t = names t /\ concat (parts t) <> [].
Proof.
  unfold inferred_names. destruct (concat (parts t)); [congruence|].
  split; [reflexivity | discriminate].
Qed.

Lemma read_json_ok path s s1 df :
  Spark.read_json path s = (s1, Ok df) ->
  columns df <> [] ->
  exists t, sources s path = Some t /\
            Spark.table_ok t = true /\
            map attr_name (columns df) = names t /\
            rows df = Ok (parts t).
Proof.
  intros H Hc. apply read_json_inferred in H.
  destruct H as (t & Hs & Hok & Hn & Hr). exists t.
  destruct (inferred_names_used t) as (E & _).
  - rewrite <- Hn. destruct (columns df); [congruence | discriminate].
  - repeat split; congruence.
Qed.

Lemma read_json_nonempty path s s1 df t :
  Spark.read_json path s = (s1, Ok df) ->
  columns df <> [] ->
  sources s path = Some t ->
  concat (parts t) <> [].
Proof.
  intros H Hc Hs. apply read_json_inferred in H.
  destruct H as (t' & Hs' & _ & Hn & _).
  assert (t' = t) by congruence. subst t'.
  apply inferred_names_used. rewrite <- Hn.
  destruct (columns df); [congruence | discriminate].
Qed.

Lemma getitem_ok df n s s1 a :
  Spark.getitem df n s = (s1, Ok a) ->
  exists i a0, resolve_name n (columns df) = Ok (i, a0) /\
               attr_id a = attr_id a0 /\ attr_name a = n.
Proof.
  unfold Spark.getitem. intros H. apply lift_ok in H.
  apply res_map_ok in H. destruct H as ([i a0] & H & ->). eauto.
Qed.

Lemma getattr_ok df n s s1 a :
  Spark.getattr df n s = (s1, Ok a) ->
  exists i a0, resolve_name n (columns df) = Ok (i, a0) /\
               attr_id a = attr_id a0 /\ attr_name a = n.
Proof.
  unfold Spark.getattr. destruct (existsb _ _); [apply getitem_ok|].
  discriminate.
Qed.

(** A reference taken from a frame by name denotes, in any schema that
    still holds that attribute at position [j], the cell at [j]. *)
Lemma ref_position (cols cols' : list Attr) n i a0 a j k b :
  resolve_name n cols = Ok (i, a0) ->
  attr_id a = attr_id a0 ->
  nth_error cols' j = Some a0 ->
  resolve_id a cols' = Ok (k, b) ->
  k = j.
Proof.
  intros _ Hid Hj Hk. symmetry.
  eapply unique_position_at; [exact Hk | exact Hj |].
  simpl. rewrite Hid. apply N.eqb_refl.
Qed.

Lemma filter_ok df c s s1 df' :
  Spark.filter df c s = (s1, Ok df') ->
  exists f, analyze (columns df) c = Ok f /\
            columns df' = columns df /\
            rows df' = res_map (map (filter (fun r => is_true (f r)))) (rows df).
Proof.
  unfold Spark.filter. intros H.
  apply bind_ok in H. destruct H as (f & s2 & Hf & H).
  apply lift_ok in Hf. injection H as <- <-. eauto.
Qed.

(** What one selector contributes to the output of [select]. *)
Lemma select_one_ok cols sel s s1 o :
  Spark.select_one cols sel s = (s1, Ok o) ->
  match sel with
  | Sel n => exists i a, resolve_name n cols = Ok (i, a) /\
                         attr_name (fst o) = n /\ snd o = cell i
  | SelRef a => exists i b, resolve_id a cols = Ok (i, b) /\
                            fst o = a /\ snd o = cell i
  | SelAs e alias => exists f, analyze cols e = Ok f /\
                               attr_name (fst o) = alias /\ snd o = f
  end.
Proof.
  destruct sel as [n|a|e alias]; simpl; intros H.
  - apply bind_ok in H. destruct H as ([i a] & s2 & Hr & H).
    apply lift_ok in Hr. injection H as <- <-. simpl. eauto.
  - apply bind_ok in H. destruct H as ([i b] & s2 & Hr & H).
    apply lift_ok in Hr. injection H as <- <-. simpl. eauto.
  - apply bind_ok in H. destruct H as (f & s2 & Hr & H).
    apply lift_ok in Hr. apply bind_ok in H. destruct H as (i & s3 & _ & H).
    injection H as <- <-. simpl. eauto.
Qed.

Lemma select_ok df sels s s1 df' :
  Spark.select df sels s = (s1, Ok df') ->
  exists outs,
    Forall2 (fun sel o => exists sa sb,
               Spark.select_one (columns df) sel sa = (sb, Ok o)) sels outs /\
    columns df' = map fst outs /\
    rows df' = res_map (map (map (fun r => map (fun o => snd o r) outs)))
                       (rows df).
Proof.
  unfold Spark.select. intros H.
  apply bind_ok in H. destruct H as (outs & s2 & Ho & H).
  apply mapM_ok in Ho. injection H as <- <-. eauto.
Qed.

(** A frame in which a name resolves has a column. *)
Lemma resolved_nonempty n cols x : resolve_name n cols = Ok x -> cols <> [].
Proof. intros H ->. discriminate H. Qed.

Lemma getattr_nonempty df n s s1 a :
  Spark.getattr df n s = (s1, Ok a) -> columns df <> [].
Proof.
  intros H. apply getattr_ok in H. destruct H as (i & a0 & H & _).
  eapply resolved_nonempty; eauto.
Qed.

Lemma select_nonempty df n sels s s1 df' :
  Spark.select df (Sel n :: sels) s = (s1, Ok df') -> columns df <> [].
Proof.
  intros H. apply select_ok in H. destruct H as (outs & HF & _).
  inversion HF as [|? o ? ? (sa & sb & Ho) _]; subst.
  apply select_one_ok in Ho. destruct Ho as (i & a & Hr & _).
  eapply resolved_nonempty; eauto.
Qed.

(** ** Operations that cannot fail *)

(** The attributes [read_json] creates carry the names given and
    expression ids of their own. *)
Lemma fresh_columns ns s0 :
  exists s1 cols,
    mapM (fun n => i <- fresh ;; ret {| attr_id := i; attr_name := n |})
         ns s0 = (s1, Ok cols) /\
    map attr_name cols = ns /\
    Forall (fun a => (next_id s0 <= attr_id a < next_id s1)%N) cols /\
    NoDup (map attr_id cols) /\
    (next_id s0 <= next_id s1)%N /\
    events s1 = events s0 /\ sources s1 = sources s0.
Proof.
  revert s0. induction ns as [|n ns IH]; intros s0.
  - exists s0, []. simpl. unfold ret.
    repeat split; auto; try constructor; lia.
  - destruct (IH {| next_id := N.succ (next_id s0);
                    sources := sources s0;
                    events := events s0 |})
      as (s1 & cols & Hm & Hn & Hid & Hnd & Hle & He & Hsr).
    simpl in Hid, Hle, He, Hsr.
    exists s1, ({| attr_id := next_id s0; attr_name := n |} :: cols).
    split; [|split; [|split; [|split; [|split; [|split]]]]]; auto.
    + cbn [mapM]. unfold bind at 1. unfold bind at 1. unfold fresh at 1.
      unfold ret at 1. unfold bind at 1. rewrite Hm. reflexivity.
    + simpl. rewrite Hn. reflexivity.
    + constructor; [simpl; lia|].
      eapply Forall_impl; [|exact Hid]. simpl. intros a Ha. lia.
    + simpl. constructor; [|exact Hnd].
      intros Hin. apply in_map_iff in Hin. destruct Hin as (a & Ea & Ha).
      rewrite Forall_forall in Hid. specialize (Hid a Ha). lia.
    + lia.
Qed.

Lemma read_json_total path s t :
  sources s path = Some t -> Spark.table_ok t = true ->
  exists s1 df,
    Spark.read_json path s = (s1, Ok df) /\
    map attr_name (columns df) = inferred_names t /\
    rows df = Ok (parts t) /\
    NoDup (map attr_id (columns df)) /\
    events s1 = events s /\ sources s1 = sources s.
Proof.
  intros Hs Hok.
  destruct (fresh_columns (inferred_names t) s)
    as (s1 & cols & Hm & Hn & _ & Hnd & _ & He & Hsr).
  exists s1, {| columns := cols; rows := Ok (parts t) |}.
  split; [|simpl; auto].
  unfold Spark.read_json. unfold bind at 1. unfold Spark.source.
  rewrite Hs. cbv beta iota. rewrite Hok.
  unfold bind at 1. rewrite Hm. reflexivity.
Qed.







Lemma mapM_err {A B} (f : A -> M B) (l : list A) s s1 e :
  mapM f l s = (s1, Err e) ->
  exists x sa sb, In x l /\ f x sa = (sb, Err e).
Proof.
  revert s; induction l as [|x t IH]; simpl; intros s H; [discriminate|].
  apply bind_inv in H. destruct H as [(y & s2 & Hy & H) | (e' & Hy & [= <-])].
  - apply bind_inv in H.
    destruct H as [(t' & s3 & Ht & H) | (e' & Ht & [= <-])]; [discriminate|].
    destruct (IH _ Ht) as (x' & sa & sb & Hx & Hf). exists x', sa, sb. auto.
  - exists x, s, s1. auto.
Qed.

Lemma select_one_err cols sel s s1 e :
  Spark.select_one cols sel s = (s1, Err e) ->
  match sel with
  | Sel n => resolve_name n cols = Err e
  | SelRef a => resolve_id a cols = Err e
  | SelAs ex _ => analyze cols ex = Err e
  end.
Proof.
  destruct sel as [n|a|ex alias]; simpl; intros H; apply bind_inv in H;
    destruct H as [(x & s2 & Hx & H) | (e' & Hx & [= <-])];
    try (injection Hx as _ ->; reflexivity); discriminate.
Qed.

(** A [select] fails only when one of its selectors does not resolve. *)
Lemma select_err df sels s s1 e :
  Spark.select df sels s = (s1, Err e) ->
  exists sel, In sel sels /\
    match sel with
    | Sel n => resolve_name n (columns df) = Err e
    | SelRef a => resolve_id a (columns df) = Err e
    | SelAs ex _ => analyze (columns df) ex = Err e
    end.
Proof.
  unfold Spark.select. intros H. apply bind_inv in H.
  destruct H as [(outs & s2 & _ & H) | (e' & H & [= <-])]; [discriminate|].
  apply mapM_err in H. destruct H as (sel & sa & sb & Hin & H).
  exists sel. split; [exact Hin|]. eapply select_one_err; eauto.
Qed.

Lemma write_parquet_inv df keys path s s1 r :
  Spark.write_parquet df keys path s = (s1, r) ->
  sources s1 = sources s /\
  ((events s1 = events s /\ exists e, r = Err e /\ e <> PythonException) \/
   match rows df with
   | Ok ps => r = Ok tt /\
              events s1 = events s ++
                [Wrote path {| ds_partition_by := keys;
                               ds_columns := map attr_name (columns df);
                               ds_rows := ps |}]
   | Err e => r = Err e /\ events s1 = events s ++ [Cleared path]
   end).
Proof.
  unfold Spark.write_parquet. intros H. apply bind_inv in H.
  destruct H as [(x & s2 & H1 & H) | (e & H1 & ->)].
  - injection H1 as <- _.
    destruct (Spark.distinct_names _).
    + destruct (rows df) as [ps|e] eqn:Er.
      * injection H as <- <-. split; [reflexivity|]. right. auto.
      * apply bind_inv in H. destruct H as [(u & s3 & H2 & H)|(e' & H2 & _)];
          [|discriminate].
        injection H2 as <-. injection H as <- <-. split; [reflexivity|].
        right. auto.
    + injection H as <- <-. split; [reflexivity|].
      left. split; [reflexivity|].
      eexists; split; [reflexivity | discriminate].
  - assert (Ha : analysis_only
                   (lift (res_mapM (fun k => resolve_name k (columns df)) keys)))
      by (unfold resolve_name; auto with etl).
    apply Ha in H1. destruct H1 as (E1 & E2 & N). split; [exact E2|].
    left. split; [exact E1|]. exists e. split; [reflexivity|].
    apply N. reflexivity.
Qed.

Lemma write_parquet_ok df keys path s s1 :
  Spark.write_parquet df keys path s = (s1, Ok tt) ->
  sources s1 = sources s /\
  exists ps, rows df = Ok ps /\
             events s1 = events s ++
               [Wrote path {| ds_partition_by := keys;
                              ds_columns := map attr_name (columns df);
                              ds_rows := ps |}].
Proof.
  intros H. apply write_parquet_inv in H. destruct H as (Hs & H).
  split; [exact Hs|].
  destruct H as [(_ & e & H & _) | H]; [discriminate|].
  destruct (rows df) as [ps|e]; destruct H as (H & He); [eauto | discriminate].
Qed.

Lemma analyze_col cols n f :
  analyze cols (ECol n) = Ok f ->
  exists i a, resolve_name n cols = Ok (i, a) /\
              forall r, f r = field (map attr_name cols) n r.
Proof.
  simpl. intros H. apply res_map_ok in H. destruct H as ([i a] & H & ->).
  exists i, a. split; [exact H|]. intros r. simpl.
  eapply resolve_name_cell; eauto.
Qed.

Lemma map_map_ext {A B} (f g : A -> B) (ps : list (list A)) :
  (forall x, f x = g x) -> map (map f) ps = map (map g) ps.
Proof. intros H. apply map_ext. intros part. apply map_ext. exact H. Qed.

(** Rewrites the cells a [select] reads into [field]s of the input row. *)
Ltac cells_to_fields r :=
  repeat match goal with
         | H : snd _ = _ |- _ => rewrite H; clear H
         end;
  repeat match goal with
         | H : resolve_name _ _ = Ok _ |- _ =>
             rewrite (resolve_name_cell _ _ _ _ r H); clear H
         | H : forall r, _ = field _ _ r |- _ => rewrite H; clear H
         end.

(** ** [process_song_data] *)

Ltac inv_forall2 :=
  repeat match goal with
         | H : Forall2 _ (_ :: _) _ |- _ => inversion H; clear H; subst
         | H : Forall2 _ [] _ |- _ => inversion H; clear H; subst
         end.

Ltac inv_select_one :=
  repeat match goal with
         | H : exists sa sb, Spark.select_one _ _ sa = (sb, Ok _) |- _ =>
             let sa := fresh "sa" in
             let sb := fresh "sb" in
             destruct H as (sa & sb & H); apply select_one_ok in H;
             cbv beta iota in H;
             first [ destruct H as (? & ? & H & ? & ?)
                   | destruct H as (? & H & ? & ?) ]
         end.

Ltac inv_select H outs :=
  let HF := fresh "HF" in
  let Hc := fresh "Hcols" in
  let Hr := fresh "Hrows" in
  apply select_ok in H; destruct H as (outs & HF & Hc & Hr);
  inv_forall2; inv_select_one.

(** A step that only analyses, run to a result. *)
Ltac quiet H :=
  let E1 := fresh "Eev" in
  let E2 := fresh "Esrc" in
  match type of H with
  | ?m ?s = (?s1, _) =>
      assert (E1 : events s1 = events s /\ sources s1 = sources s)
        by (let Q := fresh in
            assert (Q : analysis_only m) by auto with etl;
            destruct (Q _ _ _ H) as (? & ? & _); split; assumption);
      destruct E1 as (E1 & E2)
  end.

Lemma process_song_data_ok input_data output_dir s s1 df :
  process_song_data input_data output_dir s = (s1, Ok df) ->
  exists t,
    sources s input_data = Some t /\
    Spark.table_ok t = true /\
    map attr_name (columns df) = names t /\
    rows df = Ok (parts t) /\
    sources s1 = sources s /\
    events s1 = events s ++
      [Wrote (output_dir ++ "/songs.parquet")%string (songs_dataset t);
       Wrote (output_dir ++ "/artists.parquet")%string (artists_dataset t)].
Proof.
  unfold process_song_data. intros H.
  apply bind_ok in H. destruct H as (df0 & sa & Hread & H).
  apply bind_ok in H. destruct H as (songs_table & sb & Hsel1 & H).
  apply bind_ok in H. destruct H as ([] & sc & Hw1 & H).
  apply bind_ok in H. destruct H as (artists_table & sd & Hsel2 & H).
  apply bind_ok in H. destruct H as ([] & se & Hw2 & H).
  injection H as <- <-.
  quiet Hread. quiet Hsel1. quiet Hsel2.
  apply read_json_ok in Hread; [|eapply select_nonempty; exact Hsel1].
  destruct Hread as (t & Hsrc & Hok & Hns & Hrows).
  apply write_parquet_ok in Hw1. destruct Hw1 as (Es1 & ps1 & Hr1 & Ev1).
  apply write_parquet_ok in Hw2. destruct Hw2 as (Es2 & ps2 & Hr2 & Ev2).
  exists t. repeat split; auto; try congruence.
  inv_select Hsel1 outs1. inv_select Hsel2 outs2.
  repeat match goal with
         | H : analyze _ (ECol _) = Ok _ |- _ =>
             apply analyze_col in H; destruct H as (? & ? & ? & H)
         end.
  assert (R1 : ps1 = map (map (songs_row (names t))) (parts t)).
  { rewrite Hrows0, Hrows in Hr1. simpl in Hr1. injection Hr1 as <-.
    apply map_map_ext. intros r. unfold songs_row. rewrite <- Hns.
    cells_to_fields r. reflexivity. }
  assert (R2 : ps2 = map (map (artists_row (names t))) (parts t)).
  { rewrite Hrows1, Hrows in Hr2. simpl in Hr2. injection Hr2 as <-.
    apply map_map_ext. intros r. unfold artists_row. rewrite <- Hns.
    cells_to_fields r. reflexivity. }
  rewrite Ev2, Eev1, Ev1, Eev0, Eev, <- app_assoc. simpl.
  rewrite Hcols, Hcols0, R1, R2. simpl.
  repeat match goal with
         | H : attr_name (fst _) = _ |- _ => rewrite H; clear H
         end.
  reflexivity.
Qed.

(** ** Partition-wise maps *)

Lemma mapi_from_ext {A B} (f g : Z -> A -> B) k l :
  (forall i x, f i x = g i x) -> mapi_from f k l = mapi_from g k l.
Proof.
  intros H. revert k; induction l as [|x t IH]; simpl; intros k;
    [reflexivity|]. rewrite H, IH. reflexivity.
Qed.

Lemma mapi_from_const {A B} (h : A -> B) k l :
  mapi_from (fun _ => h) k l = map h l.
Proof.
  revert k; induction l as [|x t IH]; simpl; intros k; [reflexivity|].
  rewrite IH. reflexivity.
Qed.

Lemma mapi_from_length {A B} (f : Z -> A -> B) k l :
  length (mapi_from f k l) = length l.
Proof.
  revert k; induction l as [|x t IH]; simpl; intros k; [reflexivity|].
  rewrite IH. reflexivity.
Qed.

Lemma mapi_from_forall2 {A B} (f : Z -> A -> B) k l :
  Forall2 (fun x y => exists i, y = f i x) l (mapi_from f k l).
Proof.
  revert k; induction l as [|x t IH]; simpl; intros k; constructor; eauto.
Qed.

Lemma map_rows_const {A B} (h : A -> B) ps :
  map_rows (fun _ _ => h) ps = map (map h) ps.
Proof.
  unfold map_rows. rewrite <- mapi_from_const with (k := 0%Z).
  apply mapi_from_ext. intros i part. apply mapi_from_const.
Qed.

Lemma map_rows_forall2 {A B} (f : Z -> Z -> A -> B) ps :
  Forall2 (Forall2 (fun x y => exists p k, y = f p k x)) ps (map_rows f ps).
Proof.
  unfold map_rows.
  assert (H : forall p,
             Forall2 (Forall2 (fun x y => exists p k, y = f p k x)) ps
               (mapi_from (fun p part => mapi_from (f p) 0 part) p ps)).
  { induction ps as [|part t IH]; simpl; intros p; constructor; auto.
    eapply Forall2_impl; [|apply mapi_from_forall2].
    simpl. intros x y (k & ->). eauto. }
  apply H.
Qed.

Lemma res_mapM_ok {A B} (f : A -> Res B) l l' :
  res_mapM f l = Ok l' -> Forall2 (fun x y => f x = Ok y) l l'.
Proof.
  revert l'; induction l as [|x t IH]; simpl; intros l' H.
  - injection H as <-. constructor.
  - apply res_bind_ok in H. destruct H as (y & Hy & H).
    apply res_bind_ok in H. destruct H as (t' & Ht & H).
    injection H as <-. constructor; auto.
Qed.

Lemma res_mapM_total {A B} (f : A -> Res B) (g : A -> B) l :
  (forall x, f x = Ok (g x)) -> res_mapM f l = Ok (map g l).
Proof.
  intros H. induction l as [|x t IH]; simpl; [reflexivity|].
  rewrite H, IH. reflexivity.
Qed.

Lemma res_mapM_err {A B} (f : A -> Res B) l e :
  res_mapM f l = Err e -> exists x, In x l /\ f x = Err e.
Proof.
  induction l as [|x t IH]; simpl; intros H; [discriminate|].
  destruct (f x) as [y|e'] eqn:Ex; simpl in H.
  - destruct (res_mapM f t) as [t'|e'] eqn:Et; simpl in H; [discriminate|].
    injection H as ->. destruct (IH eq_refl) as (z & Hz & Hfz). eauto.
  - injection H as ->. eauto.
Qed.

Lemma mapM_rows_ok {A B} (f : Z -> Z -> A -> Res B) ps ps' :
  mapM_rows f ps = Ok ps' ->
  Forall2 (Forall2 (fun x y => exists p k, f p k x = Ok y)) ps ps'.
Proof.
  unfold mapM_rows. intros H. apply res_mapM_ok in H.
  pose proof (map_rows_forall2 f ps) as HF.
  revert ps' H. induction HF as [|part fpart ps fps Hp _ IH]; intros ps' H.
  - inversion H; subst. constructor.
  - inversion H as [|? part' ? ps'' Hm Ht]; subst. constructor; [|auto].
    apply res_mapM_ok in Hm. clear - Hp Hm. revert part' Hm.
    induction Hp as [|x fx part fpart (p & k & ->) _ IH]; intros part' Hm.
    + inversion Hm; subst. constructor.
    + inversion Hm; subst. constructor; eauto.
Qed.

Lemma mapM_rows_total {A B} (f : Z -> Z -> A -> Res B) (g : Z -> Z -> A -> B)
      ps :
  (forall p k x, f p k x = Ok (g p k x)) -> mapM_rows f ps = Ok (map_rows g ps).
Proof.
  intros H. unfold mapM_rows, map_rows.
  assert (E : forall p k part,
             res_mapM (fun x => x) (mapi_from (f p) k part) =
             Ok (mapi_from (g p) k part)).
  { intros p k part. revert k.
    induction part as [|x part IH]; simpl; intros k; [reflexivity|].
    rewrite H, IH. reflexivity. }
  assert (G : forall p,
             res_mapM (res_mapM (fun x => x))
               (mapi_from (fun p part => mapi_from (f p) 0 part) p ps) =
             Ok (mapi_from (fun p part => mapi_from (g p) 0 part) p ps)).
  { induction ps as [|part t IH]; simpl; intros p; [reflexivity|].
    rewrite E, IH. reflexivity. }
  apply G.
Qed.

Lemma mapM_rows_err {A B} (f : Z -> Z -> A -> Res B) ps e :
  mapM_rows f ps = Err e -> exists p k x, f p k x = Err e.
Proof.
  unfold mapM_rows. intros H. apply res_mapM_err in H.
  destruct H as (fpart & Hin & H). apply res_mapM_err in H.
  destruct H as (fx & Hfx & H). subst fx.
  pose proof (map_rows_forall2 f ps) as HF.
  clear - HF Hin Hfx. induction HF as [|part fp ps fps Hp _ IH];
    [contradiction|].
  destruct Hin as [->|Hin]; [|auto].
  clear - Hp Hfx. induction Hp as [|x fx part fp' (p & k & ->) _ IH];
    [contradiction|].
  destruct Hfx as [Hx|Hfx]; [|auto]. exists p, k, x. auto.
Qed.

(** ** [withColumn] on names and rows *)

Lemma has_column_positions n ns :
  Spark.has_column n ns = false <-> positions (name_eq n) ns = [].
Proof. unfold Spark.has_column. symmetry. apply positions_nil_iff. Qed.

Lemma replace_cells_length n ns v r :
  length r = length ns -> length (Spark.replace_cells n ns v r) = length ns.
Proof.
  revert r; induction ns as [|m t IH]; intros [|x r] H; simpl in *;
    try discriminate; auto.
Qed.

Lemma replace_cells_cell n ns v r i m :
  length r = length ns -> nth_error ns i = Some m ->
  cell i (Spark.replace_cells n ns v r) = if name_eq n m then v else cell i r.
Proof.
  unfold cell. revert r i; induction ns as [|m' t IH]; intros [|x r] i H Hi;
    simpl in *; try discriminate; try (destruct i; discriminate).
  destruct i as [|i]; simpl in *.
  - injection Hi as ->. reflexivity.
  - apply IH; auto.
Qed.

Lemma put_value_length n ns v r :
  length r = length ns ->
  length (Spark.put_value n ns v r) = length (Spark.put_name n ns).
Proof.
  intros H. unfold Spark.put_value, Spark.put_name.
  destruct (Spark.has_column n ns).
  - rewrite replace_cells_length, length_map; auto.
  - rewrite !length_app, H. reflexivity.
Qed.

Lemma put_name_positions_other n m ns :
  name_eq n m = false ->
  positions (name_eq m) (Spark.put_name n ns) = positions (name_eq m) ns.
Proof.
  intros Hnm. unfold Spark.put_name. destruct (Spark.has_column n ns).
  - rewrite positions_map. apply positions_ext. intros x _.
    destruct (name_eq n x) eqn:E; [|reflexivity].
    rewrite (name_eq_sym m n), (name_eq_sym m x), Hnm.
    rewrite <- (name_eq_left n m x E). rewrite Hnm. reflexivity.
  - rewrite positions_app. simpl. rewrite (name_eq_sym m n), Hnm. simpl.
    apply app_nil_r.
Qed.

Lemma put_value_cell_other n m ns v r i :
  name_eq n m = false -> length r = length ns ->
  In i (positions (name_eq m) ns) ->
  cell i (Spark.put_value n ns v r) = cell i r.
Proof.
  intros Hnm Hlen Hi. unfold Spark.put_value.
  destruct (Spark.has_column n ns).
  - apply positions_spec in Hi. destruct Hi as (x & Hx & Hm).
    rewrite (replace_cells_cell n ns v r i x Hlen Hx).
    destruct (name_eq n x) eqn:E; [|reflexivity].
    rewrite (name_eq_left n m x E) in Hnm.
    rewrite name_eq_sym in Hnm. congruence.
  - apply positions_lt in Hi. unfold cell. apply app_nth1. lia.
Qed.

Lemma put_field_other n m ns v r :
  name_eq n m = false -> length r = length ns ->
  field (Spark.put_name n ns) m (Spark.put_value n ns v r) = field ns m r.
Proof.
  intros Hnm Hlen. unfold field. rewrite put_name_positions_other by exact Hnm.
  destruct (positions (name_eq m) ns) as [|i [|j t]] eqn:E; try reflexivity.
  apply put_value_cell_other with (m := m); auto. rewrite E; simpl; auto.
Qed.

Lemma put_field_same n ns v r i :
  positions (name_eq n) (Spark.put_name n ns) = [i] ->
  length r = length ns ->
  field (Spark.put_name n ns) n (Spark.put_value n ns v r) = v.
Proof.
  intros Hpos Hlen. unfold field. rewrite Hpos.
  unfold Spark.put_name, Spark.put_value in *.
  destruct (Spark.has_column n ns) eqn:Eh.
  - assert (Hin : In i (positions (name_eq n)
                          (map (fun m => if name_eq n m then n else m) ns)))
      by (rewrite Hpos; simpl; auto).
    apply positions_spec in Hin. destruct Hin as (x & Hx & Hm).
    rewrite nth_error_map in Hx.
    destruct (nth_error ns i) as [m|] eqn:Ei; [|discriminate].
    simpl in Hx. injection Hx as <-.
    rewrite (replace_cells_cell n ns v r i m Hlen Ei).
    destruct (name_eq n m) eqn:E; [reflexivity | congruence].
  - apply has_column_positions in Eh. rewrite positions_app, Eh in Hpos.
    simpl in Hpos. rewrite name_eq_refl in Hpos. simpl in Hpos.
    injection Hpos as <-. rewrite Nat.add_0_r, <- Hlen.
    unfold cell. rewrite nth_middle. reflexivity.
Qed.

Lemma replace_attrs_ok n cols s s1 cols' :
  Spark.replace_attrs n cols s = (s1, Ok cols') ->
  map attr_name cols' =
    map (fun m => if name_eq n m then n else m) (map attr_name cols) /\
  forall i a, nth_error cols i = Some a -> name_eq n (attr_name a) = false ->
              nth_error cols' i = Some a.
Proof.
  revert s cols'; induction cols as [|a t IH]; simpl; intros s cols' H.
  - injection H as <- <-. split; [reflexivity|]. intros [|i]; discriminate.
  - apply bind_ok in H. destruct H as (a' & s2 & Ha & H).
    apply bind_ok in H. destruct H as (t' & s3 & Ht & H).
    injection H as <- <-. apply IH in Ht. destruct Ht as (Hn & Hk).
    assert (Ea : attr_name a' = (if name_eq n (attr_name a) then n
                                 else attr_name a) /\
                 (name_eq n (attr_name a) = false -> a' = a)).
    { destruct (name_eq n (attr_name a)).
      - apply bind_ok in Ha. destruct Ha as (i & s4 & _ & Ha).
        injection Ha as <- <-. split; [reflexivity | discriminate].
      - injection Ha as <- <-. auto. }
    destruct Ea as (Ea & Eb). split.
    + simpl. rewrite Ea, Hn. reflexivity.
    + intros [|i] b; simpl; intros Hb Hnb.
      * injection Hb as <-. rewrite Eb; auto.
      * apply Hk; auto.
Qed.

Lemma withColumn_ok df n c s s1 df' :
  Spark.withColumn df n c s = (s1, Ok df') ->
  exists gen,
    Spark.analyze_column (columns df) c = Ok gen /\
    map attr_name (columns df') = Spark.put_name n (map attr_name (columns df)) /\
    rows df' =
      res_bind (rows df)
        (mapM_rows (fun p k r =>
           res_map (fun v => Spark.put_value n (map attr_name (columns df)) v r)
                   (gen p k r))) /\
    forall i a, nth_error (columns df) i = Some a ->
                name_eq n (attr_name a) = false ->
                nth_error (columns df') i = Some a.
Proof.
  unfold Spark.withColumn. intros H.
  apply bind_ok in H. destruct H as (gen & s2 & Hg & H).
  apply lift_ok in Hg.
  apply bind_ok in H. destruct H as (cols & s3 & Hc & H).
  injection H as <- <-. exists gen. simpl.
  split; [exact Hg|]. unfold Spark.put_name.
  destruct (Spark.has_column n (map attr_name (columns df))).
  - apply replace_attrs_ok in Hc. destruct Hc as (Hn & Hk). auto.
  - apply bind_ok in Hc. destruct Hc as (i & s4 & _ & Hc).
    injection Hc as <- <-. rewrite map_app. simpl.
    repeat split; auto. intros j a Hj _. rewrite nth_error_app1; auto.
    apply nth_error_Some. congruence.
Qed.

(** [withColumn(n, f(m))] for a built-in function [f] of the column [m]. *)
Lemma withColumn_call_ok df n f m s s1 df' :
  Spark.withColumn df n (Plain (ECall f (ECol m))) s = (s1, Ok df') ->
  let ns := map attr_name (columns df) in
  map attr_name (columns df') = Spark.put_name n ns /\
  rows df' = res_map (map (map (fun r =>
               Spark.put_value n ns (f (field ns m r)) r))) (rows df).
Proof.
  intros H ns. apply withColumn_ok in H.
  destruct H as (gen & Hg & Hn & Hr & _). split; [exact Hn|].
  rewrite Hr. simpl in Hg.
  apply res_map_ok in Hg. destruct Hg as (g & Hg & ->).
  apply res_map_ok in Hg. destruct Hg as (h & Hg & ->).
  apply res_map_ok in Hg. destruct Hg as ([i a] & Hg & ->). simpl.
  destruct (rows df) as [ps|e]; simpl; [|reflexivity].
  rewrite <- map_rows_const. apply mapM_rows_total.
  intros p k r. simpl. rewrite (resolve_name_cell _ _ _ _ r Hg). reflexivity.
Qed.

(** [withColumn(n, udf(df.x))] *)
Lemma withColumn_udf_ok df n f x a s s1 df' i a0 :
  resolve_name x (columns df) = Ok (i, a0) ->
  attr_id a = attr_id a0 ->
  Spark.withColumn df n (Udf f (ERef a)) s = (s1, Ok df') ->
  let ns := map attr_name (columns df) in
  map attr_name (columns df') = Spark.put_name n ns /\
  rows df' =
    res_bind (rows df)
      (mapM_rows (fun _ _ r =>
         match f (field ns x r) with
         | Some v => Ok (Spark.put_value n ns v r)
         | None => Err PythonException
         end)).
Proof.
  intros Hx Hid H ns. apply withColumn_ok in H.
  destruct H as (gen & Hg & Hn & Hr & _). split; [exact Hn|].
  rewrite Hr. simpl in Hg.
  apply res_map_ok in Hg. destruct Hg as (g & Hg & ->).
  apply res_map_ok in Hg. destruct Hg as ([k b] & Hg & ->). simpl.
  assert (k = i).
  { pose proof (unique_position_ok _ _ _ _ _ Hx) as (_ & Hi & _).
    eapply ref_position; eauto. }
  subst k.
  destruct (rows df) as [ps|e]; simpl; [|reflexivity].
  unfold mapM_rows. f_equal. unfold map_rows.
  apply mapi_from_ext. intros p part. apply mapi_from_ext. intros q r.
  rewrite (resolve_name_cell _ _ _ _ r Hx). fold ns.
  destruct (f (field ns x r)); reflexivity.
Qed.

(** [withColumn(n, monotonically_increasing_id())] *)
Lemma withColumn_id_ok df n s s1 df' :
  Spark.withColumn df n MonotonicallyIncreasingId s = (s1, Ok df') ->
  let ns := map attr_name (columns df) in
  map attr_name (columns df') = Spark.put_name n ns /\
  rows df' = res_map (map_rows (fun p k r =>
               Spark.put_value n ns (VLong (monotonically_increasing_id p k)) r))
               (rows df) /\
  forall i a, nth_error (columns df) i = Some a ->
              name_eq n (attr_name a) = false ->
              nth_error (columns df') i = Some a.
Proof.
  intros H ns. apply withColumn_ok in H.
  destruct H as (gen & Hg & Hn & Hr & Hk). split; [exact Hn|].
  split; [|exact Hk]. rewrite Hr. simpl in Hg. injection Hg as <-.
  destruct (rows df) as [ps|e]; simpl; [|reflexivity].
  apply mapM_rows_total. reflexivity.
Qed.

(** ** [process_log_data] *)

Lemma Forall2_map_r {A B C} (R : A -> B -> Prop) (h : B -> C) l l' :
  Forall2 R l l' -> Forall2 (fun x z => exists y, R x y /\ z = h y) l (map h l').
Proof. induction 1; simpl; constructor; eauto. Qed.

Lemma map_map_map {A B C} (f : A -> B) (g : B -> C) (ps : list (list A)) :
  map (map g) (map (map f) ps) = map (map (fun x => g (f x))) ps.
Proof.
  rewrite map_map. apply map_ext. intros part. apply map_map.
Qed.

Lemma Forall2_rows_map {A B C} (R : A -> B -> Prop) (R' : A -> C -> Prop)
      (h : B -> C) ps qs :
  (forall x y, R x y -> R' x (h y)) ->
  Forall2 (Forall2 R) ps qs -> Forall2 (Forall2 R') ps (map (map h) qs).
Proof.
  intros Hh. induction 1 as [|p q ps qs Hpq _ IH]; simpl; constructor; auto.
  induction Hpq; simpl; constructor; auto.
Qed.

Lemma log_frame_names rt ns st r : fst (log_frame rt ns st r) = log_names ns.
Proof. reflexivity. Qed.

Lemma filter_next_song (cols : list Attr) page i a0 f :
  resolve_name "page" cols = Ok (i, a0) ->
  attr_id page = attr_id a0 ->
  analyze cols (EEq (ERef page) (ELit (VStr "NextSong"))) = Ok f ->
  forall r, is_true (f r) = is_next_song (map attr_name cols) r.
Proof.
  intros Hp Hid Hf r. simpl in Hf.
  apply res_bind_ok in Hf. destruct Hf as (g & Hg & Hf).
  injection Hf as <-.
  apply res_map_ok in Hg. destruct Hg as ([k b] & Hg & ->). simpl.
  assert (k = i).
  { pose proof (unique_position_ok _ _ _ _ _ Hp) as (_ & Hi & _).
    eapply ref_position; eauto. }
  subst k. unfold is_next_song.
  rewrite (resolve_name_cell _ _ _ _ r Hp). reflexivity.
Qed.

Lemma process_log_data_ok rt input_data output_dir s s1 df :
  process_log_data rt input_data output_dir s = (s1, Ok df) ->
  exists t P,
    sources s input_data = Some t /\
    Spark.table_ok t = true /\
    map attr_name (columns df) = log_names (names t) /\
    rows df = Ok P /\
    Forall2 (Forall2 (derived_from rt (names t))) (plays t) P /\
    (forall n, In n time_columns ->
               exists i, positions (name_eq n) (log_names (names t)) = [i]) /\
    sources s1 = sources s /\
    events s1 = events s ++
      [Wrote (output_dir ++ "/users.parquet")%string (users_dataset t);
       Wrote (output_dir ++ "/time.parquet")%string
         {| ds_partition_by := ["year"; "month"];
            ds_columns := time_columns;
            ds_rows := map (map (time_row (log_names (names t)))) P |}].
Proof.
  unfold process_log_data. intros H.
  apply bind_ok in H. destruct H as (df0 & sa & Hread & H).
  apply bind_ok in H. destruct H as (page & sb & Hpage & H).
  apply bind_ok in H. destruct H as (df1 & sc & Hfilter & H).
  apply bind_ok in H. destruct H as (users & sd & Hsel1 & H).
  apply bind_ok in H. destruct H as ([] & se & Hw1 & H).
  apply bind_ok in H. destruct H as (ts & sf & Hts & H).
  apply bind_ok in H. destruct H as (df2 & s2 & Hc2 & H).
  apply bind_ok in H. destruct H as (df3 & s3 & Hc3 & H).
  apply bind_ok in H. destruct H as (df4 & s4 & Hc4 & H).
  apply bind_ok in H. destruct H as (df5 & s5 & Hc5 & H).
  apply bind_ok in H. destruct H as (df6 & s6 & Hc6 & H).
  apply bind_ok in H. destruct H as (df7 & s7 & Hc7 & H).
  apply bind_ok in H. destruct H as (df8 & s8 & Hc8 & H).
  apply bind_ok in H. destruct H as (time_table & s9 & Hsel2 & H).
  apply bind_ok in H. destruct H as ([] & s10 & Hw2 & H).
  injection H as <- <-.
  quiet Hread. quiet Hpage. quiet Hfilter. quiet Hsel1. quiet Hts.
  quiet Hc2. quiet Hc3. quiet Hc4. quiet Hc5. quiet Hc6. quiet Hc7. quiet Hc8.
  quiet Hsel2.
  apply read_json_ok in Hread; [|eapply getattr_nonempty; exact Hpage].
  destruct Hread as (t & Hsrc & Hok & Hns & Hrows).
  apply write_parquet_ok in Hw1. destruct Hw1 as (Es1 & ps1 & Hr1 & Ev1).
  apply write_parquet_ok in Hw2. destruct Hw2 as (Es2 & ps2 & Hr2 & Ev2).
  apply getattr_ok in Hpage. destruct Hpage as (ip & ap & Hpage & Hpid & _).
  apply filter_ok in Hfilter. destruct Hfilter as (f & Hf & Hc1 & Hrows1).
  assert (R1 : rows df1 = Ok (plays t)).
  { rewrite Hrows1, Hrows. simpl. unfold plays. f_equal.
    apply map_ext. intros part. apply filter_ext. intros r.
    rewrite <- Hns. eapply filter_next_song; eauto. }
  apply getattr_ok in Hts. destruct Hts as (its & ats & Hts & Htid & _).
  apply (withColumn_udf_ok _ _ _ _ _ _ _ _ _ _ Hts Htid) in Hc2.
  apply withColumn_call_ok in Hc3, Hc4, Hc5, Hc6, Hc7, Hc8.
  cbv zeta in *.
  destruct Hc2 as (N2 & Hrows2). destruct Hc3 as (N3 & Hrows3).
  destruct Hc4 as (N4 & Hrows4). destruct Hc5 as (N5 & Hrows5).
  destruct Hc6 as (N6 & Hrows6). destruct Hc7 as (N7 & Hrows7).
  destruct Hc8 as (N8 & Hrows8).
  rewrite Hc1, Hns in *.
  assert (Nall : map attr_name (columns df8) = log_names (names t)).
  { unfold log_names. rewrite N8, N7, N6, N5, N4, N3, N2. reflexivity. }
  (* the users table *)
  assert (U : ps1 = ds_rows (users_dataset t)).
  { inv_select Hsel1 outs1. rewrite Hrows0, R1 in Hr1. simpl in Hr1.
    injection Hr1 as <-. unfold users_dataset, plays. simpl.
    rewrite map_map. apply map_ext. intros part. apply map_ext. intros r.
    unfold users_row.
    repeat match goal with
           | H : analyze _ (ECol _) = Ok _ |- _ =>
               apply analyze_col in H; destruct H as (? & ? & ? & H)
           end.
    cells_to_fields r. rewrite ?Hc1, ?Hns. reflexivity. }
  assert (Uc : map attr_name (columns users) = ds_columns (users_dataset t)).
  { inv_select Hsel1 outs1. rewrite Hcols. simpl.
    repeat match goal with
           | H : attr_name (fst _) = _ |- _ => rewrite H; clear H
           end.
    reflexivity. }
  clear Hsel1.
  (* the log frame *)
  inv_select Hsel2 outs2.
  rewrite Hrows0 in Hr2.
  destruct (rows df8) as [P8|] eqn:E8; [|discriminate].
  destruct (rows df7) as [P7|] eqn:E7; [|discriminate].
  destruct (rows df6) as [P6|] eqn:E6; [|discriminate].
  destruct (rows df5) as [P5|] eqn:E5; [|discriminate].
  destruct (rows df4) as [P4|] eqn:E4; [|discriminate].
  destruct (rows df3) as [P3|] eqn:E3; [|discriminate].
  destruct (rows df2) as [P2|] eqn:E2; [|discriminate].
  simpl in Hrows3, Hrows4, Hrows5, Hrows6, Hrows7, Hrows8, Hr2.
  injection Hr2 as <-.
  assert (HP : Forall2 (Forall2 (derived_from rt (names t))) (plays t) P8).
  { injection Hrows3 as ->. injection Hrows4 as ->. injection Hrows5 as ->.
    injection Hrows6 as ->. injection Hrows7 as ->. injection Hrows8 as ->.
    rewrite R1 in Hrows2. simpl in Hrows2. symmetry in Hrows2.
    apply mapM_rows_ok in Hrows2.
    rewrite !map_map_map. rewrite N7, N6, N5, N4, N3, N2.
    eapply Forall2_rows_map; [|exact Hrows2].
    intros r l1 (p & k & Hl). unfold derived_from.
    destruct (fromtimestamp_millis rt (field (names t) "ts" r)) as [st|];
      [|discriminate].
    injection Hl as <-. exists st. split; reflexivity. }
  exists t, P8. split; [congruence|]. split; [exact Hok|].
  split; [exact Nall|]. split; [reflexivity|]. split; [exact HP|].
  split; [|split; [congruence|]].
  - intros n Hn. rewrite <- Nall. unfold time_columns in Hn. simpl in Hn.
    repeat (destruct Hn as [<-|Hn];
            [match goal with
             | H : resolve_name ?m (columns df8) = Ok (?i, _) |- context [?m] =>
                 exists i; apply unique_position_ok in H;
                 destruct H as (H & _); rewrite <- resolve_name_positions;
                 exact H
             end|]).
    contradiction.
  - rewrite Ev2, Eev11, Eev10, Eev9, Eev8, Eev7, Eev6, Eev5, Eev4, Eev3, Ev1,
      Eev2, Eev1, Eev0, Eev, <- app_assoc. simpl.
    rewrite Uc, Hcols. simpl.
    repeat match goal with
           | H : attr_name (fst _) = _ |- _ => rewrite H; clear H
           end.
    rewrite (map_map_ext _ (time_row (log_names (names t)))).
    + reflexivity.
    + intros r. unfold time_row. rewrite <- Nall. cells_to_fields r.
      reflexivity.
Qed.

(** ** [process_songplay_data] *)

Lemma cell_app_l (l r : Row) i : (i < length l)%nat -> cell i (l ++ r) = cell i l.
Proof. intros H. unfold cell. apply app_nth1. exact H. Qed.

Lemma cell_app_r (l r : Row) i : cell (length l + i) (l ++ r) = cell i r.
Proof. unfold cell. apply app_nth2_plus. Qed.

Lemma nth_error_app_l {A} (l r : list A) i a :
  nth_error l i = Some a -> nth_error (l ++ r) i = Some a.
Proof.
  intros H. rewrite nth_error_app1; [exact H|].
  apply nth_error_Some. congruence.
Qed.

Lemma nth_error_app_r {A} (l r : list A) i a :
  nth_error r i = Some a -> nth_error (l ++ r) (length l + i) = Some a.
Proof.
  intros H. rewrite nth_error_app2 by lia.
  replace (length l + i - length l)%nat with i by lia. exact H.
Qed.

Lemma resolved_lt n cols i a :
  resolve_name n cols = Ok (i, a) -> (i < length cols)%nat.
Proof.
  intros H. apply unique_position_ok in H. destruct H as (_ & H & _).
  apply nth_error_Some. congruence.
Qed.

(** The join condition, read on a log row and a catalog row. *)
Lemma join_condition colsL colsS artist artist_name song title f
      iA aA iN aN iS aS iT aT :
  resolve_name "artist" colsL = Ok (iA, aA) -> attr_id artist = attr_id aA ->
  resolve_name "artist_name" colsS = Ok (iN, aN) ->
  attr_id artist_name = attr_id aN ->
  resolve_name "song" colsL = Ok (iS, aS) -> attr_id song = attr_id aS ->
  resolve_name "title" colsS = Ok (iT, aT) -> attr_id title = attr_id aT ->
  analyze (colsL ++ colsS)
          (EAnd (EEq (ERef artist) (ERef artist_name))
                (EEq (ERef song) (ERef title))) = Ok f ->
  forall l r, length l = length colsL ->
    is_true (f (l ++ r)) =
    song_matches (map attr_name colsL) (map attr_name colsS) l r.
Proof.
  intros HA EA HN EN HS ES HT ET Hf l r Hl. simpl in Hf.
  destruct (resolve_id artist _) as [[kA bA]|] eqn:E; [|discriminate].
  destruct (resolve_id artist_name _) as [[kN bN]|] eqn:E0; [|discriminate].
  destruct (resolve_id song _) as [[kS bS]|] eqn:E1; [|discriminate].
  destruct (resolve_id title _) as [[kT bT]|] eqn:E2; [|discriminate].
  simpl in Hf. injection Hf as <-. simpl.
  pose proof (unique_position_ok _ _ _ _ _ HA) as (_ & PA & _).
  pose proof (unique_position_ok _ _ _ _ _ HN) as (_ & PN & _).
  pose proof (unique_position_ok _ _ _ _ _ HS) as (_ & PS & _).
  pose proof (unique_position_ok _ _ _ _ _ HT) as (_ & PT & _).
  rewrite (ref_position _ _ _ _ _ _ _ _ _ HA EA (nth_error_app_l _ colsS _ _ PA) E).
  rewrite (ref_position _ _ _ _ _ _ _ _ _ HN EN (nth_error_app_r colsL _ _ _ PN) E0).
  rewrite (ref_position _ _ _ _ _ _ _ _ _ HS ES (nth_error_app_l _ colsS _ _ PS) E1).
  rewrite (ref_position _ _ _ _ _ _ _ _ _ HT ET (nth_error_app_r colsL _ _ _ PT) E2).
  rewrite <- Hl, !cell_app_r.
  rewrite !cell_app_l by (rewrite Hl; eapply resolved_lt; eauto).
  unfold song_matches.
  rewrite (resolve_name_cell _ _ _ _ l HA), (resolve_name_cell _ _ _ _ r HN),
    (resolve_name_cell _ _ _ _ l HS), (resolve_name_cell _ _ _ _ r HT).
  reflexivity.
Qed.

Lemma join_row_joined nsL nsS catalog (on : Row -> bool) l :
  (forall r, on (l ++ r) = song_matches nsL nsS l r) ->
  Spark.join_row LeftOuter on catalog (length nsS) l = joined nsL nsS catalog l.
Proof.
  intros H. unfold Spark.join_row, joined.
  rewrite (filter_ext _ (song_matches nsL nsS l)) by exact H.
  destruct (filter _ catalog); reflexivity.
Qed.

Lemma flat_map_ext_in {A B} (f g : A -> list B) l :
  (forall x, In x l -> f x = g x) -> flat_map f l = flat_map g l.
Proof.
  induction l as [|x t IH]; simpl; intros H; [reflexivity|].
  rewrite H, IH; auto.
Qed.

Lemma map_ext_in_parts {A B} (f g : A -> B) (ps : list (list A)) :
  (forall x, In x (concat ps) -> f x = g x) ->
  forall h : (A -> B) -> list A -> list B,
    (forall part, (forall x, In x part -> f x = g x) -> h f part = h g part) ->
    map (h f) ps = map (h g) ps.
Proof.
  intros H h Hh. induction ps as [|part t IH]; simpl; [reflexivity|].
  simpl in H. rewrite Hh, IH; auto.
  - intros x Hx. apply H. apply in_or_app; auto.
  - intros x Hx. apply H. apply in_or_app; auto.
Qed.

Lemma wf_rows_concat ns ps :
  wf_rows ns ps <-> Forall (fun r => length r = length ns) (concat ps).
Proof.
  unfold wf_rows. induction ps as [|part t IH]; simpl.
  - split; constructor.
  - rewrite Forall_app, <- IH. split.
    + intros H. inversion H; subst. auto.
    + intros (H1 & H2). constructor; auto.
Qed.

Lemma wf_rows_exchange rt ns ps :
  exchange_ok rt -> wf_rows ns ps -> wf_rows ns (exchange rt ps).
Proof.
  intros Hx H. apply wf_rows_concat. apply wf_rows_concat in H.
  eapply Permutation_Forall; [|exact H]. symmetry. apply Hx.
Qed.

Lemma join_ok ex left right c how s s1 df' :
  Spark.join ex left right c how s = (s1, Ok df') ->
  exists f,
    analyze (columns left ++ columns right) c = Ok f /\
    columns df' = columns left ++ columns right /\
    rows df' =
      res_bind (rows left) (fun ls =>
      res_bind (rows right) (fun rs =>
      Ok (map (flat_map (Spark.join_row how (fun r => is_true (f r))
                           (concat rs) (length (columns right))))
              (ex ls)))).
Proof.
  unfold Spark.join. intros H.
  apply bind_ok in H. destruct H as (f & s2 & Hf & H).
  apply lift_ok in Hf. injection H as <- <-. eauto.
Qed.

Lemma mapi_from_ext_in {A B} (f g : Z -> A -> B) k l :
  (forall i x, In x l -> f i x = g i x) -> mapi_from f k l = mapi_from g k l.
Proof.
  revert k; induction l as [|x t IH]; simpl; intros k H; [reflexivity|].
  rewrite H, IH; auto.
Qed.

Lemma map_rows_ext_in {A B} (f g : Z -> Z -> A -> B) ps :
  (forall p k x, In x (concat ps) -> f p k x = g p k x) ->
  map_rows f ps = map_rows g ps.
Proof.
  intros H. unfold map_rows. apply mapi_from_ext_in. intros p part Hp.
  apply mapi_from_ext_in. intros k x Hx. apply H.
  apply in_concat. eauto.
Qed.

Lemma map_mapi_from {A B C} (g : B -> C) (f : Z -> A -> B) k l :
  map g (mapi_from f k l) = mapi_from (fun i x => g (f i x)) k l.
Proof.
  revert k; induction l as [|x t IH]; simpl; intros k; [reflexivity|].
  rewrite IH. reflexivity.
Qed.

Lemma map_map_rows {A B C} (g : B -> C) (f : Z -> Z -> A -> B) ps :
  map (map g) (map_rows f ps) = map_rows (fun p k x => g (f p k x)) ps.
Proof.
  unfold map_rows. rewrite map_mapi_from. apply mapi_from_ext.
  intros p part. apply map_mapi_from.
Qed.

Lemma joined_length nsL nsS catalog l j :
  length l = length nsL ->
  Forall (fun r => length r = length nsS) catalog ->
  In j (joined nsL nsS catalog l) ->
  length j = length (nsL ++ nsS).
Proof.
  intros Hl Hc Hj. unfold joined in Hj. rewrite length_app.
  destruct (filter (song_matches nsL nsS l) catalog) as [|m ms] eqn:E.
  - destruct Hj as [<-|[]]. rewrite length_app, repeat_length. lia.
  - rewrite <- E in Hj. apply in_map_iff in Hj. destruct Hj as (r & <- & Hr).
    apply filter_In in Hr. destruct Hr as (Hr & _).
    rewrite Forall_forall in Hc. rewrite length_app, (Hc r Hr). lia.
Qed.

Lemma names_differ a b x :
  name_eq a b = false -> name_eq a x = true -> name_eq b x = false.
Proof.
  intros Hab Hax. rewrite name_eq_sym, <- (name_eq_left a b x Hax).
  exact Hab.
Qed.

Lemma process_songplay_data_ok rt song_df log_df output_dir s s1 :
  process_songplay_data rt song_df log_df output_dir s = (s1, Ok tt) ->
  let nsL := map attr_name (columns log_df) in
  let nsS := map attr_name (columns song_df) in
  sources s1 = sources s /\
  (forall n, In n songplay_inputs ->
     exists i, positions (name_eq n)
                 (Spark.put_name "songplay_id" (nsL ++ nsS)) = [i]) /\
  (exists i, positions (name_eq "year") nsL = [i]) /\
  exists ds,
    events s1 = events s ++ [Wrote (output_dir ++ "/songplay.parquet")%string ds] /\
    ds_partition_by ds = ["year"; "month"] /\
    ds_columns ds = songplay_columns /\
    forall PL PS,
      exchange_ok rt ->
      rows log_df = Ok PL -> wf_rows nsL PL ->
      rows song_df = Ok PS -> wf_rows nsS PS ->
      ds_rows ds = songplay_rows rt nsL nsS PL PS.
Proof.
  intros H nsL nsS. unfold process_songplay_data in H.
  apply bind_ok in H. destruct H as (artist & sa & Hartist & H).
  apply bind_ok in H. destruct H as (artist_name & sb & Hname & H).
  apply bind_ok in H. destruct H as (song & sc & Hsong & H).
  apply bind_ok in H. destruct H as (title & sd & Htitle & H).
  apply bind_ok in H. destruct H as (df1 & se & Hjoin & H).
  apply bind_ok in H. destruct H as (df2 & sf & Hid & H).
  apply bind_ok in H. destruct H as (log_year & sg & Hyear & H).
  apply bind_ok in H. destruct H as (songplays & sh & Hsel & H).
  quiet Hartist. quiet Hname. quiet Hsong. quiet Htitle. quiet Hjoin.
  quiet Hid. quiet Hyear. quiet Hsel.
  apply write_parquet_ok in H. destruct H as (Es & ps & Hr & Ev).
  apply getattr_ok in Hartist. destruct Hartist as (iA & aA & HA & EA & _).
  apply getattr_ok in Hname. destruct Hname as (iN & aN & HN & EN & _).
  apply getattr_ok in Hsong. destruct Hsong as (iS & aS & HS & ES & _).
  apply getattr_ok in Htitle. destruct Htitle as (iT & aT & HT & ET & _).
  apply getitem_ok in Hyear. destruct Hyear as (iY & aY & HY & EY & NmY).
  apply join_ok in Hjoin. destruct Hjoin as (f & Hf & Hc1 & Hrows1).
  apply withColumn_id_ok in Hid. cbv zeta in Hid.
  destruct Hid as (N2 & Hrows2 & Hkeep).
  rewrite Hc1, map_app in N2, Hrows2. fold nsL nsS in N2, Hrows2.
  inv_select Hsel outs.
  repeat match goal with
         | H : analyze _ (ECol _) = Ok _ |- _ =>
             apply analyze_col in H; destruct H as (? & ? & ? & H)
         end.
  (* the reference to the year of the log side *)
  pose proof (unique_position_ok _ _ _ _ _ HY) as (PY & NY & MY).
  assert (KY : nth_error (columns df2) iY = Some aY).
  { apply Hkeep; [rewrite Hc1; apply nth_error_app_l; exact NY|].
    apply names_differ with (a := "year"); [reflexivity | exact MY]. }
  match goal with
  | H : resolve_id log_year (columns df2) = Ok (?k, _) |- _ =>
      assert (k = iY) by (exact (ref_position _ _ _ _ _ _ _ _ _ HY EY KY H));
      subst k
  end.
  split; [congruence|]. split; [|split].
  - intros n Hn. rewrite <- N2. unfold songplay_inputs in Hn. simpl in Hn.
    repeat (destruct Hn as [<-|Hn];
            [match goal with
             | H : resolve_name ?m (columns df2) = Ok (?i, _) |- context [?m] =>
                 exists i; apply unique_position_ok in H;
                 destruct H as (H & _); rewrite <- resolve_name_positions;
                 exact H
             end|]).
    contradiction.
  - exists iY. unfold nsL. rewrite <- resolve_name_positions. exact PY.
  - eexists. split; [rewrite Ev, Eev6, Eev5, Eev4, Eev3, Eev2, Eev1, Eev0, Eev;
                     reflexivity|].
    simpl. split; [reflexivity|]. split.
    + rewrite Hcols. simpl.
      repeat match goal with
             | H : attr_name (fst _) = _ |- _ => rewrite H; clear H
             end.
      match goal with
      | H : fst _ = log_year |- _ => rewrite H
      end.
      rewrite NmY. reflexivity.
    + intros PL PS Hx HPL WL HPS WS.
      rewrite Hrows, Hrows2, Hrows1, HPL, HPS in Hr. simpl in Hr.
      injection Hr as <-. unfold songplay_rows.
      rewrite map_map_rows.
      assert (WX : wf_rows nsL (exchange rt PL))
        by (apply wf_rows_exchange; assumption).
      assert (EJ : map (flat_map (Spark.join_row LeftOuter
                                    (fun r => is_true (f r)) (concat PS)
                                    (length (columns song_df))))
                       (exchange rt PL) =
                   map (flat_map (joined nsL nsS (concat PS))) (exchange rt PL)).
      { apply map_ext_in. intros part Hpart. apply flat_map_ext_in.
        intros l Hl. unfold nsS at 1. rewrite <- (length_map attr_name).
        apply join_row_joined. intros r.
        eapply join_condition; eauto.
        unfold wf_rows in WX. rewrite Forall_forall in WX.
        specialize (WX part Hpart). rewrite Forall_forall in WX.
        rewrite (WX l Hl). unfold nsL. apply length_map. }
      rewrite EJ. apply map_rows_ext_in. intros p k j Hj.
      assert (Lj : length j = length (nsL ++ nsS)).
      { apply in_concat in Hj. destruct Hj as (part' & Hp' & Hj).
        apply in_map_iff in Hp'. destruct Hp' as (part & <- & Hpart).
        apply in_flat_map in Hj. destruct Hj as (l & Hl & Hj).
        eapply joined_length; [| |exact Hj].
        - unfold wf_rows in WX. rewrite Forall_forall in WX.
          specialize (WX part Hpart). rewrite Forall_forall in WX. auto.
        - apply Forall_concat. exact WS. }
      unfold songplay_row. simpl.
      assert (CY : cell iY (Spark.put_value "songplay_id" (nsL ++ nsS)
                              (VLong (monotonically_increasing_id p k)) j) =
                   field nsL "year" j).
      { rewrite (put_value_cell_other "songplay_id" "year") by
          (auto; rewrite positions_app; apply in_or_app; left;
           unfold nsL; rewrite <- resolve_name_positions, PY; simpl; auto).
        apply (resolve_name_cell _ _ _ _ j HY). }
      rewrite <- N2.
      repeat match goal with
             | H : snd _ = _ |- _ => rewrite H; clear H
             end.
      rewrite CY. clear HY.
      cells_to_fields (Spark.put_value "songplay_id" (nsL ++ nsS)
                         (VLong (monotonically_increasing_id p k)) j).
      reflexivity.
Qed.

(** ** The rows of the log frame, column by column *)

Lemma with_value_wf n v fr : well_formed fr -> well_formed (with_value n v fr).
Proof. unfold well_formed, with_value. simpl. apply put_value_length. Qed.

Lemma with_call_wf n f fr : well_formed fr -> well_formed (with_call n f fr).
Proof. apply with_value_wf. Qed.

Lemma with_value_other n v fr m :
  name_eq n m = false -> well_formed fr ->
  field (fst (with_value n v fr)) m (snd (with_value n v fr)) =
  field (fst fr) m (snd fr).
Proof. intros. apply put_field_other; assumption. Qed.

Lemma with_call_other n f fr m :
  name_eq n m = false -> well_formed fr ->
  field (fst (with_call n f fr)) m (snd (with_call n f fr)) =
  field (fst fr) m (snd fr).
Proof. apply with_value_other. Qed.

Lemma with_value_same n v fr i :
  positions (name_eq n) (fst (with_value n v fr)) = [i] -> well_formed fr ->
  field (fst (with_value n v fr)) n (snd (with_value n v fr)) = v.
Proof. intros. eapply put_field_same; eassumption. Qed.

Lemma with_call_same n f fr i :
  positions (name_eq n) (fst (with_call n f fr)) = [i] -> well_formed fr ->
  field (fst (with_call n f fr)) n (snd (with_call n f fr)) =
  f (field (fst fr) "start_time" (snd fr)).
Proof. intros. unfold with_call. eapply with_value_same; eassumption. Qed.

Lemma with_value_positions n v fr m :
  name_eq n m = false ->
  positions (name_eq m) (fst (with_value n v fr)) =
  positions (name_eq m) (fst fr).
Proof. intros. apply put_name_positions_other; assumption. Qed.

Lemma with_call_positions n f fr m :
  name_eq n m = false ->
  positions (name_eq m) (fst (with_call n f fr)) =
  positions (name_eq m) (fst fr).
Proof. apply with_value_positions. Qed.

#[local] Hint Resolve with_value_wf with_call_wf : etl.

Lemma log_frame_wf rt ns st r :
  length r = length ns -> well_formed (log_frame rt ns st r).
Proof.
  intros H. unfold log_frame. repeat apply with_call_wf.
  apply with_value_wf. exact H.
Qed.

Lemma log_row_length rt ns st r :
  length r = length ns -> length (log_row rt ns st r) = length (log_names ns).
Proof. intros H. apply (log_frame_wf rt ns st r H). Qed.

(** Peels the [withColumn] steps that leave the column [m] alone. *)
Ltac peel_frames :=
  repeat first
    [ rewrite with_call_other by
        (first [reflexivity | repeat apply with_call_wf; apply with_value_wf;
                                assumption])
    | rewrite with_value_other by (first [reflexivity | assumption]) ].

Ltac peel_positions H :=
  repeat first
    [ rewrite with_call_positions in H by reflexivity
    | rewrite with_value_positions in H by reflexivity ].

(** Columns that no [withColumn] step touches keep their values. *)
Lemma log_row_other rt ns st r m :
  existsb (fun d => name_eq d m) time_columns = false ->
  length r = length ns ->
  positions (name_eq m) (log_names ns) = positions (name_eq m) ns /\
  field (log_names ns) m (log_row rt ns st r) = field ns m r.
Proof.
  intros Hm Hlen. simpl in Hm.
  repeat (apply orb_false_elim in Hm; destruct Hm as (? & Hm)).
  assert (W : well_formed (ns, r)) by exact Hlen.
  split.
  - rewrite <- (log_frame_names rt ns st r). unfold log_frame.
    rewrite !with_call_positions, with_value_positions by assumption.
    reflexivity.
  - unfold log_row. rewrite <- (log_frame_names rt ns st r). unfold log_frame.
    rewrite !with_call_other, with_value_other;
      auto 10 with etl.
Qed.

Lemma log_row_start_time rt ns st r i :
  positions (name_eq "start_time") (log_names ns) = [i] ->
  length r = length ns ->
  field (log_names ns) "start_time" (log_row rt ns st r) = st.
Proof.
  intros Hp Hlen. assert (W : well_formed (ns, r)) by exact Hlen.
  unfold log_row. rewrite <- (log_frame_names rt ns st r) in *.
  unfold log_frame in *. peel_frames. peel_positions Hp.
  eapply with_value_same; eauto.
Qed.

Ltac calendar_field rt ns st r Hp m :=
  let i := fresh "i" in
  let Hi := fresh "Hi" in
  let j := fresh "j" in
  let Hj := fresh "Hj" in
  destruct (Hp m) as (i & Hi); [simpl; tauto|];
  destruct (Hp "start_time") as (j & Hj); [simpl; tauto|];
  unfold log_row; rewrite <- (log_frame_names rt ns st r) in *;
  unfold log_frame in *;
  peel_frames; peel_positions Hi;
  rewrite (with_call_same _ _ _ _ Hi) by auto 10 with etl;
  peel_frames; peel_positions Hj;
  rewrite (with_value_same _ _ _ _ Hj) by assumption;
  reflexivity.

Section LogRow.

Variables (rt : Runtime) (ns : list string) (st : Value) (r : Row).

Hypothesis resolved :
    forall n, In n time_columns ->
              exists i, positions (name_eq n) (log_names ns) = [i].

Hypothesis row_length : length r = length ns.

Let W : well_formed (ns, r) := row_length.

Lemma log_row_hour :
    field (log_names ns) "hour" (log_row rt ns st r) = hour rt st.
Proof. calendar_field rt ns st r resolved "hour". Qed.

Lemma log_row_day :
    field (log_names ns) "day" (log_row rt ns st r) = dayofweek rt st.
Proof. calendar_field rt ns st r resolved "day". Qed.

Lemma log_row_week :
    field (log_names ns) "week" (log_row rt ns st r) = weekofyear rt st.
Proof. calendar_field rt ns st r resolved "week". Qed.

Lemma log_row_month :
    field (log_names ns) "month" (log_row rt ns st r) = month rt st.
Proof. calendar_field rt ns st r resolved "month". Qed.

Lemma log_row_year :
    field (log_names ns) "year" (log_row rt ns st r) = year rt st.
Proof. calendar_field rt ns st r resolved "year". Qed.

Lemma log_row_weekday :
    field (log_names ns) "weekday" (log_row rt ns st r) = dayofweek rt st.
Proof. calendar_field rt ns st r resolved "weekday". Qed.

  (** The calendar fields of a log row, all computed from its [start_time]. *)
Lemma log_row_calendar :
    time_row (log_names ns) (log_row rt ns st r) =
    [st; hour rt st; dayofweek rt st; weekofyear rt st; month rt st;
     year rt st; dayofweek rt st].
Proof.
    unfold time_row.
    destruct (resolved "start_time") as (i & Hi); [simpl; tauto|].
    rewrite (log_row_start_time rt ns st r i Hi row_length).
    rewrite log_row_hour, log_row_day, log_row_week, log_row_month,
      log_row_year, log_row_weekday.
    reflexivity.
Qed.

End LogRow.

(** ** [main] *)

Lemma config_get_ok rt sec key s s1 v :
  config_get rt sec key s = (s1, Ok v) -> config rt sec key = Some v /\ s1 = s.
Proof.
  unfold config_get, config.
  destruct (dl_cfg rt sec) as [options|]; [|discriminate].
  destruct (options key) as [x| |]; try discriminate.
  intros H. injection H as <- <-. auto.
Qed.

Lemma config_get_found rt sec key v s :
  config rt sec key = Some v -> config_get rt sec key s = (s, Ok v).
Proof.
  unfold config_get, config.
  destruct (dl_cfg rt sec) as [options|]; [|discriminate].
  destruct (options key) as [x| |]; try discriminate.
  intros [= ->]. reflexivity.
Qed.

Lemma analysis_only_aws rt data_loc :
  analysis_only
    (if (data_loc =? "AWS")%string
     then bind (config_get rt "AWS" "AWS_ACCESS_KEY_ID") (fun key_id =>
          bind (setenv key_id) (fun _ =>
          bind (config_get rt "AWS" "AWS_SECRET_ACCESS_KEY") (fun secret =>
          setenv secret)))
     else ret tt).
Proof. destruct (data_loc =? "AWS")%string; auto 8 with etl. Qed.

Lemma table_ok_wf t : Spark.table_ok t = true -> wf_rows (names t) (parts t).
Proof.
  unfold Spark.table_ok, wf_rows. intros H.
  rewrite forallb_forall in H. apply Forall_forall. intros part Hp.
  specialize (H part Hp). rewrite forallb_forall in H.
  apply Forall_forall. intros r Hr. apply Nat.eqb_eq. auto.
Qed.

Lemma plays_wf t : Spark.table_ok t = true -> wf_rows (names t) (plays t).
Proof.
  intros H. apply table_ok_wf in H. unfold plays, wf_rows in *.
  rewrite Forall_forall in *. intros fp Hfp.
  apply in_map_iff in Hfp. destruct Hfp as (part & <- & Hp).
  specialize (H part Hp). rewrite Forall_forall in *.
  intros r Hr. apply filter_In in Hr. apply H. tauto.
Qed.

Lemma derived_wf rt ns F P :
  wf_rows ns F -> Forall2 (Forall2 (derived_from rt ns)) F P ->
  wf_rows (log_names ns) P.
Proof.
  unfold wf_rows. intros HF H. induction H as [|f p F P Hfp _ IH];
    [constructor|].
  inversion HF as [|? ? Hf HF']; subst. constructor; [|auto].
  clear - Hf Hfp. induction Hfp as [|r l f p (st & _ & ->) _ IH];
    [constructor|].
  inversion Hf; subst. constructor; [|auto].
  apply log_row_length. assumption.
Qed.

Lemma main_ok rt data_loc s s' songs logs output_dir :
  Run rt data_loc s s' songs logs output_dir ->
  Spark.table_ok songs = true /\
  Spark.table_ok logs = true /\
  (forall n, In n time_columns ->
     exists i, positions (name_eq n) (log_names (names logs)) = [i]) /\
  (forall n, In n songplay_inputs ->
     exists i, positions (name_eq n)
                 (Spark.put_name "songplay_id"
                    (log_names (names logs) ++ names songs)) = [i]) /\
  exists P ds,
    Forall2 (Forall2 (derived_from rt (names logs))) (plays logs) P /\
    events s' = events s ++
      [Wrote (output_dir ++ "/songs.parquet")%string (songs_dataset songs);
       Wrote (output_dir ++ "/artists.parquet")%string (artists_dataset songs);
       Wrote (output_dir ++ "/users.parquet")%string (users_dataset logs);
       Wrote (output_dir ++ "/time.parquet")%string
             (time_dataset (names logs) P);
       Wrote (output_dir ++ "/songplay.parquet")%string ds] /\
    ds_partition_by ds = ["year"; "month"] /\
    ds_columns ds = songplay_columns /\
    (exchange_ok rt ->
     ds_rows ds = songplay_rows rt (log_names (names logs)) (names songs)
                                P (parts songs)).
Proof.
  intros (H & isd & ild & C1 & S1 & C2 & S2 & C3). unfold main in H.
  apply bind_ok in H. destruct H as ([] & s0 & Haws & H).
  pose proof (analysis_only_aws rt data_loc _ _ _ Haws) as (Ev0 & Sr0 & _).
  apply bind_ok in H. destruct H as (isd' & sa & Ha & H).
  apply config_get_ok in Ha. destruct Ha as (Ha & ->).
  apply bind_ok in H. destruct H as (ild' & sb & Hb & H).
  apply config_get_ok in Hb. destruct Hb as (Hb & ->).
  apply bind_ok in H. destruct H as (out' & sc & Hc & H).
  apply config_get_ok in Hc. destruct Hc as (Hc & ->).
  assert (isd' = isd) by congruence. assert (ild' = ild) by congruence.
  assert (out' = output_dir) by congruence. subst.
  apply bind_ok in H. destruct H as (song_df & sd & Hsong & H).
  apply bind_ok in H. destruct H as (log_df & se & Hlog & H).
  apply process_song_data_ok in Hsong.
  destruct Hsong as (t1 & Hs1 & Hok1 & Hn1 & Hr1 & Hsrc1 & Hev1).
  apply process_log_data_ok in Hlog.
  destruct Hlog as (t2 & P & Hs2 & Hok2 & Hn2 & Hr2 & HP & Hpos2 & Hsrc2 & Hev2).
  apply process_songplay_data_ok in H. cbv zeta in H.
  destruct H as (Hsrc3 & Hpos3 & _ & ds & Hev3 & Hpb & Hcols & Hrows).
  assert (t1 = songs) by congruence.
  assert (t2 = logs) by congruence. subst t1 t2.
  rewrite Hn1, Hn2 in *.
  repeat split; auto.
  exists P, ds. repeat split; auto.
  - rewrite Hev3, Hev2, Hev1, Ev0, <- !app_assoc. reflexivity.
  - intros Hx. apply (Hrows P (parts songs) Hx Hr2); auto.
    + eapply derived_wf; [|exact HP]. apply plays_wf; assumption.
    + apply table_ok_wf; assumption.
Qed.

(** A run that completes has read a catalog and a log that hold records:
    an empty source has no column for the first [select], or for
    [df.page], to resolve. *)
Lemma process_song_data_nonempty input_data output_dir s s1 df t :
  process_song_data input_data output_dir s = (s1, Ok df) ->
  sources s input_data = Some t ->
  concat (parts t) <> [].
Proof.
  unfold process_song_data. intros H Hs.
  apply bind_ok in H. destruct H as (df0 & sa & Hread & H).
  apply bind_ok in H. destruct H as (songs_table & sb & Hsel & _).
  eapply read_json_nonempty; eauto. eapply select_nonempty; eauto.
Qed.

Lemma process_log_data_nonempty rt input_data output_dir s s1 df t :
  process_log_data rt input_data output_dir s = (s1, Ok df) ->
  sources s input_data = Some t ->
  concat (parts t) <> [].
Proof.
  unfold process_log_data. intros H Hs.
  apply bind_ok in H. destruct H as (df0 & sa & Hread & H).
  apply bind_ok in H. destruct H as (page & sb & Hpage & _).
  eapply read_json_nonempty; eauto. eapply getattr_nonempty; eauto.
Qed.

Lemma run_sources_nonempty rt data_loc s s' songs logs output_dir :
  Run rt data_loc s s' songs logs output_dir ->
  concat (parts songs) <> [] /\ concat (parts logs) <> [].
Proof.
  intros (H & isd & ild & C1 & S1 & C2 & S2 & C3). unfold main in H.
  apply bind_ok in H. destruct H as ([] & s0 & Haws & H).
  pose proof (analysis_only_aws rt data_loc _ _ _ Haws) as (Ev0 & Sr0 & _).
  apply bind_ok in H. destruct H as (isd' & sa & Ha & H).
  apply config_get_ok in Ha. destruct Ha as (Ha & ->).
  apply bind_ok in H. destruct H as (ild' & sb & Hb & H).
  apply config_get_ok in Hb. destruct Hb as (Hb & ->).
  apply bind_ok in H. destruct H as (out' & sc & Hc & H).
  apply config_get_ok in Hc. destruct Hc as (Hc & ->).
  assert (isd' = isd) by congruence. assert (ild' = ild) by congruence.
  subst.
  apply bind_ok in H. destruct H as (song_df & sd & Hsong & H).
  apply bind_ok in H. destruct H as (log_df & se & Hlog & H).
  split.
  - eapply process_song_data_nonempty; [exact Hsong|]. congruence.
  - eapply process_log_data_nonempty; [exact Hlog|].
    apply process_song_data_ok in Hsong.
    destruct Hsong as (t1 & _ & _ & _ & _ & Hsrc1 & _). congruence.
Qed.

(** ** The fields of a fact row *)

Lemma joined_inv nsL nsS catalog l j :
  In j (joined nsL nsS catalog l) ->
  exists x, j = l ++ x /\
            ((filter (song_matches nsL nsS l) catalog = [] /\
              x = repeat VNull (length nsS)) \/
             (In x catalog /\ song_matches nsL nsS l x = true)).
Proof.
  unfold joined. intros Hj.
  destruct (filter (song_matches nsL nsS l) catalog) as [|m ms] eqn:E.
  - destruct Hj as [<-|[]]. eauto.
  - rewrite <- E in Hj. apply in_map_iff in Hj. destruct Hj as (x & <- & Hx).
    apply filter_In in Hx. exists x. split; [reflexivity|]. right. exact Hx.
Qed.

Lemma cell_nulls i w : cell i (repeat VNull w) = VNull.
Proof.
  unfold cell. revert i; induction w as [|w IH]; intros [|i]; simpl; auto.
Qed.

Lemma singleton_app_l {A} (a : list A) (b : list A) i k :
  a = [i] -> a ++ b = [k] -> k = i /\ b = [].
Proof. intros -> H. simpl in H. injection H as -> ->. auto. Qed.

Section FactRow.

Variables (nsL nsS : list string) (catalog : list Row) (l j : Row) (id : Z).

Hypothesis l_length : length l = length nsL.
Hypothesis catalog_wf : Forall (fun r => length r = length nsS) catalog.
Hypothesis j_joined : In j (joined nsL nsS catalog l).

Let ns' := Spark.put_name "songplay_id" (nsL ++ nsS).
Let j' := Spark.put_value "songplay_id" (nsL ++ nsS) (VLong id) j.

Lemma j_length : length j = length (nsL ++ nsS).
Proof. eapply joined_length; eauto. Qed.

Lemma fact_row_id i :
    positions (name_eq "songplay_id") ns' = [i] ->
    field ns' "songplay_id" j' = VLong id.
Proof. intros H. eapply put_field_same; [exact H | apply j_length]. Qed.

Lemma fact_row_left n i k :
    positions (name_eq n) nsL = [i] ->
    positions (name_eq n) ns' = [k] ->
    name_eq "songplay_id" n = false ->
    field ns' n j' = field nsL n l.
Proof.
    intros Hi Hk Hn. unfold ns', j'.
    rewrite put_field_other by (auto using j_length).
    unfold ns' in Hk. rewrite put_name_positions_other in Hk by exact Hn.
    rewrite positions_app in Hk.
    destruct (singleton_app_l _ _ _ _ Hi Hk) as (-> & Hr).
    unfold field. rewrite positions_app, Hi, Hr. simpl.
    destruct (joined_inv _ _ _ _ _ j_joined) as (x & -> & _).
    apply cell_app_l. rewrite l_length.
    apply (positions_lt (name_eq n)). rewrite Hi. simpl; auto.
Qed.

Lemma fact_row_year i :
    positions (name_eq "year") nsL = [i] ->
    field nsL "year" j = field nsL "year" l.
Proof.
    intros Hi. unfold field. rewrite Hi.
    destruct (joined_inv _ _ _ _ _ j_joined) as (x & -> & _).
    apply cell_app_l. rewrite l_length.
    apply (positions_lt (name_eq "year")). rewrite Hi. simpl; auto.
Qed.

  (** A column of the catalog side holds the catalog row's value, or NULL
      when the log row matched nothing. *)
Lemma fact_row_right n k :
    has_field nsS n ->
    positions (name_eq n) ns' = [k] ->
    name_eq "songplay_id" n = false ->
    exists x, j = l ++ x /\ field ns' n j' = field nsS n x /\
              ((matches nsL nsS catalog l = [] /\ field nsS n x = VNull) \/
               (In x catalog /\ song_matches nsL nsS l x = true)).
Proof.
    intros Hs Hk Hn. unfold ns', j'.
    destruct (joined_inv _ _ _ _ _ j_joined) as (x & Ej & Hx).
    exists x. split; [exact Ej|].
    assert (E : field (Spark.put_name "songplay_id" (nsL ++ nsS)) n
                  (Spark.put_value "songplay_id" (nsL ++ nsS) (VLong id) j) =
                field nsS n x).
    { rewrite put_field_other by (auto using j_length).
      unfold ns' in Hk. rewrite put_name_positions_other in Hk by exact Hn.
      rewrite positions_app in Hk. unfold has_field in Hs.
      destruct (positions (name_eq n) nsL) as [|a t] eqn:El.
      - simpl in Hk.
        destruct (positions (name_eq n) nsS) as [|b [|c u]] eqn:Er;
          try discriminate; try congruence.
        simpl in Hk. injection Hk as <-.
        unfold field. rewrite positions_app, El, Er. simpl.
        rewrite Ej, <- l_length. apply cell_app_r.
      - destruct (positions (name_eq n) nsS) as [|b u] eqn:Er; [congruence|].
        simpl in Hk. destruct t; discriminate. }
    split; [exact E|].
    destruct Hx as [(Hm & ->) | Hx]; [left | right; exact Hx].
    split; [exact Hm|]. unfold field.
    destruct (positions (name_eq n) nsS) as [|b [|c u]]; auto.
    apply cell_nulls.
Qed.

End FactRow.

(** ** Stored datasets *)

Lemma append_eqb_prefix (p a b : string) :
  ((p ++ a) =? (p ++ b))%string = (a =? b)%string.
Proof.
  induction p as [|c p IH]; simpl; [reflexivity|].
  rewrite Ascii.eqb_refl. exact IH.
Qed.

Lemma fs_lookup_snoc path evs p ds :
  fs_lookup path (evs ++ [Wrote p ds]) =
  if (p =? path)%string then Some ds else fs_lookup path evs.
Proof. unfold fs_lookup. rewrite fold_left_app. reflexivity. Qed.

(** The lookups after the five writes of a run. *)
Lemma fs_lookup_run out evs d1 d2 d3 d4 d5 :
  let evs' := evs ++
    [Wrote (out ++ "/songs.parquet")%string d1;
     Wrote (out ++ "/artists.parquet")%string d2;
     Wrote (out ++ "/users.parquet")%string d3;
     Wrote (out ++ "/time.parquet")%string d4;
     Wrote (out ++ "/songplay.parquet")%string d5] in
  fs_lookup (out ++ "/songs.parquet")%string evs' = Some d1 /\
  fs_lookup (out ++ "/artists.parquet")%string evs' = Some d2 /\
  fs_lookup (out ++ "/users.parquet")%string evs' = Some d3 /\
  fs_lookup (out ++ "/time.parquet")%string evs' = Some d4 /\
  fs_lookup (out ++ "/songplay.parquet")%string evs' = Some d5.
Proof.
  intros evs'. unfold evs', fs_lookup.
  repeat split; rewrite fold_left_app; simpl;
    rewrite !append_eqb_prefix; reflexivity.
Qed.

(** ** Lineage of the fact rows *)

Lemma mapi_from_app {A B} (f : Z -> A -> B) k a b :
  mapi_from f k (a ++ b) =
  mapi_from f k a ++ mapi_from f (k + Z.of_nat (length a)) b.
Proof.
  revert k; induction a as [|x a IH]; intros k.
  - simpl. rewrite Z.add_0_r. reflexivity.
  - cbn [mapi_from app length]. rewrite IH. do 3 f_equal. lia.
Qed.

Lemma mapi_from_grouped {A B C} (F : Z -> B -> C) (g : A -> list B)
      (R : A -> list C -> Prop) k ls :
  (forall l k', R l (mapi_from F k' (g l))) ->
  grouped R ls (mapi_from F k (flat_map g ls)).
Proof.
  intros H. revert k; induction ls as [|l ls IH]; intros k; simpl.
  - constructor.
  - rewrite mapi_from_app. constructor; auto.
Qed.

Lemma songplay_rows_grouped rt nsL nsS PL PS :
  Forall2 (grouped (songplay_group nsL nsS (concat PS)))
          (exchange rt PL) (songplay_rows rt nsL nsS PL PS).
Proof.
  unfold songplay_rows, map_rows. generalize (exchange rt PL) as X.
  intros X.
  assert (H : forall p,
    Forall2 (grouped (songplay_group nsL nsS (concat PS))) X
      (mapi_from (fun p part =>
         mapi_from (fun k j =>
           songplay_row nsL nsS (monotonically_increasing_id p k) j) 0 part)
         p (map (flat_map (joined nsL nsS (concat PS))) X))).
  { induction X as [|part X IH]; intros p; simpl; constructor; auto.
    apply mapi_from_grouped. intros l k'. unfold songplay_group.
    eapply Forall2_impl; [|apply mapi_from_forall2].
    simpl. intros j o (i & ->). eauto. }
  apply H.
Qed.

Lemma in_rows_forall2 {A B} (R : A -> B -> Prop) ps qs y :
  Forall2 (Forall2 R) ps qs -> In y (concat qs) ->
  exists x, In x (concat ps) /\ R x y.
Proof.
  intros H. induction H as [|p q ps qs Hpq _ IH]; simpl; [contradiction|].
  rewrite in_app_iff. intros [Hy|Hy].
  - clear IH. induction Hpq as [|a b p q Hab _ IH]; [contradiction|].
    destruct Hy as [<-|Hy].
    + exists a. split; [simpl; auto | exact Hab].
    + destruct (IH Hy) as (x & Hx & HR). exists x. split; [|exact HR].
      simpl in *. rewrite in_app_iff in *. tauto.
  - destruct (IH Hy) as (x & Hx & HR). exists x. split; [|exact HR].
    rewrite in_app_iff. tauto.
Qed.

Lemma in_grouped {A B} (R : A -> list B -> Prop) ls os o :
  grouped R ls os -> In o os -> exists l outs, In l ls /\ R l outs /\ In o outs.
Proof.
  induction 1 as [|l outs ls os HR _ IH]; [contradiction|].
  rewrite in_app_iff. intros [Ho|Ho].
  - exists l, outs. simpl; auto.
  - destruct (IH Ho) as (l' & outs' & Hl & HR' & Ho'). exists l', outs'.
    simpl; auto.
Qed.

Lemma in_rows_grouped {A B} (R : A -> list B -> Prop) X rows o :
  Forall2 (grouped R) X rows -> In o (concat rows) ->
  exists l outs, In l (concat X) /\ R l outs /\ In o outs.
Proof.
  intros H. induction H as [|ls os X rows Hg _ IH]; simpl; [contradiction|].
  rewrite in_app_iff. intros [Ho|Ho].
  - destruct (in_grouped _ _ _ _ Hg Ho) as (l & outs & Hl & HR & Hin).
    exists l, outs. rewrite in_app_iff. auto.
  - destruct (IH Ho) as (l & outs & Hl & HR & Hin).
    exists l, outs. rewrite in_app_iff. auto.
Qed.

Lemma is_next_song_page ns r :
  is_next_song ns r = true <-> field ns "page" r = VStr "NextSong".
Proof.
  unfold is_next_song. destruct (field ns "page" r) as [| | | |x|]; simpl;
    try (split; discriminate).
  destruct (String.eqb_spec x "NextSong") as [->|Hx]; simpl.
  - tauto.
  - split; [discriminate | congruence].
Qed.

Lemma in_plays t r :
  In r (concat (plays t)) <->
  In r (concat (parts t)) /\ field (names t) "page" r = VStr "NextSong".
Proof.
  unfold plays. rewrite <- is_next_song_page, !in_concat. split.
  - intros (fp & Hfp & Hr). apply in_map_iff in Hfp.
    destruct Hfp as (part & <- & Hp). apply filter_In in Hr. split; [|tauto].
    exists part. tauto.
  - intros ((part & Hp & Hr) & Hn).
    exists (filter (is_next_song (names t)) part). split.
    + apply in_map. exact Hp.
    + apply filter_In. auto.
Qed.

(** ** The shape of a fact row *)

Section FactRowShape.

Variables (rt : Runtime) (ns nsS : list string) (catalog : list Row).
Variables (st : Value) (r j : Row) (id : Z).

Let nsL := log_names ns.
Let l := log_row rt ns st r.

Hypothesis calendar_resolved :
    forall n, In n time_columns ->
              exists i, positions (name_eq n) nsL = [i].

Hypothesis inputs_resolved :
    forall n, In n songplay_inputs ->
      exists i, positions (name_eq n)
                  (Spark.put_name "songplay_id" (nsL ++ nsS)) = [i].

Hypothesis r_length : length r = length ns.
Hypothesis catalog_wf : Forall (fun x => length x = length nsS) catalog.
Hypothesis j_joined : In j (joined nsL nsS catalog l).

Let l_length : length l = length nsL := log_row_length rt ns st r r_length.

Lemma fact_songplay_id :
    field songplay_columns "songplay_id" (songplay_row nsL nsS id j) = VLong id.
Proof.
    destruct (inputs_resolved "songplay_id") as (i & Hi); [simpl; tauto|].
    change (field (Spark.put_name "songplay_id" (nsL ++ nsS)) "songplay_id"
              (Spark.put_value "songplay_id" (nsL ++ nsS) (VLong id) j) =
            VLong id).
    eapply fact_row_id; eauto.
Qed.

Lemma fact_start_time :
    field songplay_columns "start_time" (songplay_row nsL nsS id j) = st.
Proof.
    destruct (inputs_resolved "start_time") as (k & Hk); [simpl; tauto|].
    destruct (calendar_resolved "start_time") as (i & Hi); [simpl; tauto|].
    change (field (Spark.put_name "songplay_id" (nsL ++ nsS)) "start_time"
              (Spark.put_value "songplay_id" (nsL ++ nsS) (VLong id) j) = st).
    rewrite (fact_row_left nsL nsS catalog l j id l_length catalog_wf j_joined
               "start_time" i k Hi Hk eq_refl).
    eapply log_row_start_time; eauto.
Qed.

Lemma fact_month :
    field songplay_columns "month" (songplay_row nsL nsS id j) = month rt st.
Proof.
    destruct (inputs_resolved "month") as (k & Hk); [simpl; tauto|].
    destruct (calendar_resolved "month") as (i & Hi); [simpl; tauto|].
    change (field (Spark.put_name "songplay_id" (nsL ++ nsS)) "month"
              (Spark.put_value "songplay_id" (nsL ++ nsS) (VLong id) j) =
            month rt st).
    rewrite (fact_row_left nsL nsS catalog l j id l_length catalog_wf j_joined
               "month" i k Hi Hk eq_refl).
    apply log_row_month; auto.
Qed.

Lemma fact_year :
    field songplay_columns "year" (songplay_row nsL nsS id j) = year rt st.
Proof.
    destruct (calendar_resolved "year") as (i & Hi); [simpl; tauto|].
    change (field nsL "year" j = year rt st).
    erewrite fact_row_year by eauto.
    apply log_row_year; auto.
Qed.

  (** A column taken over from the log keeps the value of the play. *)
Lemma fact_passthrough c n :
    In (c, n) songplay_sources ->
    has_field ns n ->
    field songplay_columns c (songplay_row nsL nsS id j) = field ns n r.
Proof.
    intros Hc Hf.
    assert (Hn : existsb (fun d => name_eq d n) time_columns = false /\
                 name_eq "songplay_id" n = false /\ In n songplay_inputs).
    { simpl in Hc.
      repeat (destruct Hc as [[= <- <-]|Hc];
              [repeat split; try reflexivity; simpl; tauto|]).
      contradiction. }
    destruct Hn as (Hn & Hid & Hin).
    destruct (inputs_resolved n Hin) as (q & Hq).
    destruct (log_row_other rt ns st r n Hn r_length) as (Hp & Hv).
    fold nsL l in Hp, Hv. unfold has_field in Hf.
    assert (Hone : exists i, positions (name_eq n) nsL = [i]).
    { rewrite put_name_positions_other, positions_app in Hq by exact Hid.
      destruct (positions (name_eq n) nsL) as [|a [|b t]]; try discriminate;
        [congruence | eauto]. }
    destruct Hone as (i & Hi).
    pose proof (fact_row_left nsL nsS catalog l j id l_length catalog_wf
                  j_joined n i q Hi Hq Hid) as E.
    rewrite Hv in E. rewrite <- E. simpl in Hc.
    repeat (destruct Hc as [[= <- <-]|Hc]; [reflexivity|]).
    contradiction.
Qed.

  (** The catalog columns hold the matched catalog row's values, or NULL
      when the play matched no catalog row. *)
Lemma fact_song_side n :
    n = "song_id" \/ n = "artist_id" ->
    has_field nsS n ->
    exists x, j = l ++ x /\
      field songplay_columns n (songplay_row nsL nsS id j) = field nsS n x /\
      ((matches nsL nsS catalog l = [] /\ field nsS n x = VNull) \/
       (In x catalog /\ song_matches nsL nsS l x = true)).
Proof.
    intros Hn Hf.
    assert (Hin : In n songplay_inputs)
      by (destruct Hn as [->| ->]; simpl; tauto).
    assert (Hid : name_eq "songplay_id" n = false)
      by (destruct Hn as [->| ->]; reflexivity).
    destruct (inputs_resolved n Hin) as (q & Hq).
    destruct (fact_row_right nsL nsS catalog l j id l_length catalog_wf
                j_joined n q Hf Hq Hid) as (x & Ej & E & Hx).
    exists x. split; [exact Ej|]. split; [|exact Hx]. rewrite <- E.
    destruct Hn as [->| ->]; reflexivity.
Qed.

End FactRowShape.

(** ** Sample runs *)

Lemma completed {A} (x : Session * Res A) (a : A) :
  snd x = Ok a -> x = (fst x, Ok a).
Proof. destruct x as [s r]. simpl. intros ->. reflexivity. Qed.

Ltac sample_run :=
  split;
  [ unfold Runs.end1, Runs.start1, Runs.end2, Runs.start2, Sample.run;
    apply completed; vm_compute; reflexivity
  | exists "data/song_data", "data/log_data"; repeat split; reflexivity ].

Lemma sample_exchange_ok cfg : exchange_ok (UTC.runtime cfg).
Proof. intros ps. apply Permutation_refl. Qed.

(** * The claims *)

(** C6.  For every song catalog that [process_song_data] processes, the
    songs table and the artists table hold exactly one row per catalog
    record, partition by partition and in order: nothing is filtered and
    nothing is deduplicated.  The songs columns are song_id, title,
    artist_id, year and duration, under these very names, each row holding
    the record's values of these fields. *)
Theorem song_tables_one_row_per_record input_data output_dir s s1 df :
  process_song_data input_data output_dir s = (s1, Ok df) ->
  exists catalog songs_table artists_table,
    sources s input_data = Some catalog /\
    fs_lookup (output_dir ++ "/songs.parquet")%string (events s1)
      = Some songs_table /\
    fs_lookup (output_dir ++ "/artists.parquet")%string (events s1)
      = Some artists_table /\
    ds_columns songs_table =
      ["song_id"; "title"; "artist_id"; "year"; "duration"] /\
    ds_rows songs_table =
      map (map (fun r => [field (names catalog) "song_id" r;
                          field (names catalog) "title" r;
                          field (names catalog) "artist_id" r;
                          field (names catalog) "year" r;
                          field (names catalog) "duration" r]))
          (parts catalog) /\
    ds_columns artists_table =
      ["artist_id"; "name"; "location"; "latitude"; "longitude"] /\
    ds_rows artists_table =
      map (map (fun r => [field (names catalog) "artist_id" r;
                          field (names catalog) "artist_name" r;
                          field (names catalog) "artist_location" r;
                          field (names catalog) "artist_latitude" r;
                          field (names catalog) "artist_longitude" r]))
          (parts catalog) /\
    length (concat (ds_rows songs_table)) = length (concat (parts catalog)) /\
    length (concat (ds_rows artists_table)) = length (concat (parts catalog)).
Proof.
  intros H. apply process_song_data_ok in H.
  destruct H as (t & Hsrc & _ & _ & _ & _ & Hev).
  exists t, (songs_dataset t), (artists_dataset t).
  split; [exact Hsrc|]. rewrite Hev.
  change (events s ++ [Wrote (output_dir ++ "/songs.parquet")%string
                         (songs_dataset t);
                       Wrote (output_dir ++ "/artists.parquet")%string
                         (artists_dataset t)])
    with (events s ++ [Wrote (output_dir ++ "/songs.parquet")%string
                         (songs_dataset t)] ++
                      [Wrote (output_dir ++ "/artists.parquet")%string
                         (artists_dataset t)]).
  rewrite app_assoc, !fs_lookup_snoc, !append_eqb_prefix, String.eqb_refl.
  simpl. repeat split; try reflexivity.
  - rewrite <- concat_map, !length_map. reflexivity.
  - rewrite <- concat_map, !length_map. reflexivity.
Qed.

Lemma song_tables_one_row_per_record_witness :
  exists songs_table artists_table,
    fs_lookup "out/songs.parquet"
      (events (fst (process_song_data "data/song_data" "out" Runs.start1)))
      = Some songs_table /\
    fs_lookup "out/artists.parquet"
      (events (fst (process_song_data "data/song_data" "out" Runs.start1)))
      = Some artists_table /\
    length (concat (ds_rows songs_table)) = 1%nat /\
    length (concat (ds_rows artists_table)) = 1%nat.
Proof.
  destruct (song_tables_one_row_per_record "data/song_data" "out" Runs.start1
              (fst (process_song_data "data/song_data" "out" Runs.start1))
              (match snd (process_song_data "data/song_data" "out" Runs.start1)
               with Ok df => df | Err _ => {| columns := []; rows := Ok [] |}
               end))
    as (catalog & st & at_ & Hsrc & H1 & H2 & _ & _ & _ & _ & L1 & L2).
  - apply completed. vm_compute. reflexivity.
  - exists st, at_. injection Hsrc as <-. auto.
Defined.

(** C7 as stated fails: the fact table is written under the name
    [songplay.parquet]; after a completed run the destination root holds no
    dataset named songplays, with or without the [.parquet] suffix. *)
Lemma songplays_dataset_absent :
  snd (Sample.run Sample.songs1 Sample.logs1) = Ok tt /\
  ~ (forall n, In n ["songs"; "artists"; "users"; "time"; "songplays"] ->
       exists ds,
         fs_lookup ("out/" ++ n)%string (events Runs.end1) = Some ds \/
         fs_lookup ("out/" ++ n ++ ".parquet")%string (events Runs.end1)
           = Some ds).
Proof.
  split; [vm_compute; reflexivity|].
  intros H. destruct (H "songplays") as (ds & [E|E]).
  - simpl; tauto.
  - vm_compute in E. discriminate.
  - vm_compute in E. discriminate.
Qed.

(** C7, amended.  A completed run appends exactly five writes to the
    store, in this order: [songs.parquet] partitioned by (year, artist_id),
    [artists.parquet] and [users.parquet] unpartitioned, [time.parquet]
    and [songplay.parquet] partitioned by (year, month), all directly under
    the destination root; whatever was stored at these five paths before
    the run, each of them then holds the dataset this run wrote. *)
Theorem five_datasets_written rt data_loc s s' songs logs output_dir :
  Run rt data_loc s s' songs logs output_dir ->
  exists d1 d2 d3 d4 d5,
    events s' = events s ++
      [Wrote (output_dir ++ "/songs.parquet")%string d1;
       Wrote (output_dir ++ "/artists.parquet")%string d2;
       Wrote (output_dir ++ "/users.parquet")%string d3;
       Wrote (output_dir ++ "/time.parquet")%string d4;
       Wrote (output_dir ++ "/songplay.parquet")%string d5] /\
    fs_lookup (output_dir ++ "/songs.parquet")%string (events s') = Some d1 /\
    fs_lookup (output_dir ++ "/artists.parquet")%string (events s') = Some d2 /\
    fs_lookup (output_dir ++ "/users.parquet")%string (events s') = Some d3 /\
    fs_lookup (output_dir ++ "/time.parquet")%string (events s') = Some d4 /\
    fs_lookup (output_dir ++ "/songplay.parquet")%string (events s') = Some d5 /\
    ds_partition_by d1 = ["year"; "artist_id"] /\
    ds_partition_by d2 = [] /\
    ds_partition_by d3 = [] /\
    ds_partition_by d4 = ["year"; "month"] /\
    ds_partition_by d5 = ["year"; "month"].
Proof.
  intros H. apply main_ok in H.
  destruct H as (_ & _ & _ & _ & P & ds & _ & Hev & Hpb & _ & _).
  exists (songs_dataset songs), (artists_dataset songs), (users_dataset logs),
    (time_dataset (names logs) P), ds.
  split; [exact Hev|]. rewrite Hev.
  pose proof (fs_lookup_run output_dir (events s) (songs_dataset songs)
                (artists_dataset songs) (users_dataset logs)
                (time_dataset (names logs) P) ds) as L.
  cbv zeta in L. destruct L as (L1 & L2 & L3 & L4 & L5).
  repeat split; auto.
Qed.

Lemma five_datasets_written_witness :
  Run Sample.rt "LOCAL" Runs.start1 Runs.end1 Runs.songs1 Runs.logs1 "out" /\
  map event_path (events Runs.end1) =
    ["out/songs.parquet"; "out/artists.parquet"; "out/users.parquet";
     "out/time.parquet"; "out/songplay.parquet"].
Proof.
  assert (R : Run Sample.rt "LOCAL" Runs.start1 Runs.end1 Runs.songs1
                  Runs.logs1 "out") by sample_run.
  split; [exact R|].
  destruct (five_datasets_written _ _ _ _ _ _ _ R)
    as (d1 & d2 & d3 & d4 & d5 & Hev & _).
  rewrite Hev. reflexivity.
Defined.

(** C8 as stated fails: the fact table has no column named user_agent. *)
Lemma songplays_no_user_agent_column :
  exists ds,
    fs_lookup "out/songplay.parquet" (events Runs.end1) = Some ds /\
    ds_columns ds <>
      ["songplay_id"; "start_time"; "user_id"; "level"; "song_id";
       "artist_id"; "session_id"; "location"; "user_agent"; "year"; "month"] /\
    ~ In "user_agent" (ds_columns ds).
Proof.
  eexists. split; [vm_compute; reflexivity|]. split.
  - discriminate.
  - simpl. intros H.
    repeat (destruct H as [H|H]; [discriminate|]). exact H.
Qed.

(** ** The fact table of a completed run *)

Lemma Forall2_concat {A B} (R : A -> B -> Prop) ps qs :
  Forall2 (Forall2 R) ps qs -> Forall2 R (concat ps) (concat qs).
Proof.
  induction 1; simpl; [constructor|]. apply Forall2_app; assumption.
Qed.

Lemma Forall2_in_r {A B} (R : A -> B -> Prop) l l' y :
  Forall2 R l l' -> In y l' -> exists x, In x l /\ R x y.
Proof.
  induction 1 as [|a b l l' Hab _ IH]; [contradiction|].
  intros [<-|Hy].
  - exists a. simpl; auto.
  - destruct (IH Hy) as (x & Hx & HR). exists x. simpl; auto.
Qed.

(** Every fact row is the projection of a joined row built on the
    log-frame row of a play. *)
Lemma fact_row_origin rt data_loc s s' songs logs output_dir :
  Run rt data_loc s s' songs logs output_dir ->
  exchange_ok rt ->
  let ns := names logs in
  let nsL := log_names ns in
  let nsS := names songs in
  let catalog := concat (parts songs) in
  exists P ds,
    fs_lookup (output_dir ++ "/songplay.parquet")%string (events s') = Some ds /\
    ds_columns ds = songplay_columns /\
    Forall2 (Forall2 (derived_from rt ns)) (plays logs) P /\
    ds_rows ds = songplay_rows rt nsL nsS P (parts songs) /\
    Forall (fun x => length x = length nsS) catalog /\
    wf_rows ns (plays logs) /\
    (forall n, In n time_columns ->
       exists i, positions (name_eq n) nsL = [i]) /\
    (forall n, In n songplay_inputs ->
       exists i, positions (name_eq n)
                   (Spark.put_name "songplay_id" (nsL ++ nsS)) = [i]) /\
    forall o, In o (concat (ds_rows ds)) ->
      exists r st j id,
        In r (concat (plays logs)) /\
        length r = length ns /\
        fromtimestamp_millis rt (field ns "ts" r) = Some st /\
        In j (joined nsL nsS catalog (log_row rt ns st r)) /\
        o = songplay_row nsL nsS id j.
Proof.
  intros HR Hx ns nsL nsS catalog. pose proof HR as (_ & _ & _ & _ & _ & _ & _).
  apply main_ok in HR.
  destruct HR as (Hok1 & Hok2 & Hcal & Hin & P & ds & HP & Hev & _ & Hc & Hrows).
  specialize (Hrows Hx). exists P, ds.
  pose proof (fs_lookup_run output_dir (events s) (songs_dataset songs)
                (artists_dataset songs) (users_dataset logs)
                (time_dataset (names logs) P) ds) as L.
  cbv zeta in L. destruct L as (_ & _ & _ & _ & L5). rewrite <- Hev in L5.
  assert (Wc : Forall (fun x => length x = length nsS) catalog)
    by (apply wf_rows_concat, table_ok_wf; exact Hok1).
  assert (Wp : wf_rows ns (plays logs)) by (apply plays_wf; exact Hok2).
  repeat (split; [assumption|]).
  intros o Ho. rewrite Hrows in Ho.
  destruct (in_rows_grouped _ _ _ _
              (songplay_rows_grouped rt nsL nsS P (parts songs)) Ho)
    as (l & outs & Hl & Hg & Hout).
  apply (Permutation_in _ (Hx P)) in Hl.
  destruct (in_rows_forall2 _ _ _ _ HP Hl) as (r & Hr & st & Hst & ->).
  destruct (Forall2_in_r _ _ _ _ Hg Hout) as (j & Hj & id & ->).
  exists r, st, j, id. repeat split; auto.
  apply wf_rows_concat in Wp. rewrite Forall_forall in Wp. auto.
Qed.

(** C3.  In every completed run, each row of the fact table carries the
    year and the month that [year] and [month] compute from the row's own
    start_time, and each row of the time table carries the year and the
    month that the same two functions compute from its start_time: the
    partition keys of the fact table come from the calendar columns of the
    log side, never from the year of the song catalog. *)
Theorem songplays_partition_keys rt data_loc s s' songs logs output_dir :
  Run rt data_loc s s' songs logs output_dir ->
  exchange_ok rt ->
  exists songplays time_table,
    fs_lookup (output_dir ++ "/songplay.parquet")%string (events s')
      = Some songplays /\
    fs_lookup (output_dir ++ "/time.parquet")%string (events s')
      = Some time_table /\
    (forall row, In row (concat (ds_rows songplays)) ->
       field (ds_columns songplays) "year" row =
         year rt (field (ds_columns songplays) "start_time" row) /\
       field (ds_columns songplays) "month" row =
         month rt (field (ds_columns songplays) "start_time" row)) /\
    (forall row, In row (concat (ds_rows time_table)) ->
       field (ds_columns time_table) "year" row =
         year rt (field (ds_columns time_table) "start_time" row) /\
       field (ds_columns time_table) "month" row =
         month rt (field (ds_columns time_table) "start_time" row)).
Proof.
  intros HR Hx.
  destruct (fact_row_origin _ _ _ _ _ _ _ HR Hx)
    as (P & ds & L5 & Hc & HP & Hrows & Wc & Wp & Hcal & Hin & Horigin).
  pose proof (main_ok _ _ _ _ _ _ _ HR)
    as (_ & _ & _ & _ & P' & ds' & HP' & Hev & _).
  pose proof (fs_lookup_run output_dir (events s) (songs_dataset songs)
                (artists_dataset songs) (users_dataset logs)
                (time_dataset (names logs) P') ds') as L.
  cbv zeta in L. destruct L as (_ & _ & _ & L4 & _). rewrite <- Hev in L4.
  exists ds, (time_dataset (names logs) P').
  split; [exact L5|]. split; [exact L4|]. split.
  - intros row Hrow. rewrite Hc.
    destruct (Horigin row Hrow) as (r & st & j & id & Hr & Hlen & Hst & Hj & ->).
    rewrite (fact_year rt (names logs) (names songs) _ st r j id Hcal Hlen Hj).
    rewrite (fact_month rt (names logs) (names songs) _ st r j id Hcal Hin
               Hlen Wc Hj).
    rewrite (fact_start_time rt (names logs) (names songs) _ st r j id Hcal Hin
               Hlen Wc Hj).
    auto.
  - intros row Hrow. simpl in Hrow.
    rewrite <- concat_map in Hrow. apply in_map_iff in Hrow.
    destruct Hrow as (l & <- & Hl).
    destruct (in_rows_forall2 _ _ _ _ HP' Hl) as (r & Hr & st & Hst & ->).
    apply wf_rows_concat in Wp. rewrite Forall_forall in Wp.
    rewrite (log_row_calendar rt (names logs) st r Hcal (Wp r Hr)).
    simpl. auto.
Qed.

Lemma songplays_partition_keys_witness :
  Run Sample.rt "LOCAL" Runs.start1 Runs.end1 Runs.songs1 Runs.logs1 "out" /\
  exchange_ok Sample.rt /\
  exists songplays,
    fs_lookup "out/songplay.parquet" (events Runs.end1) = Some songplays /\
    forall row, In row (concat (ds_rows songplays)) ->
      field (ds_columns songplays) "year" row =
        year Sample.rt (field (ds_columns songplays) "start_time" row) /\
      field (ds_columns songplays) "month" row =
        month Sample.rt (field (ds_columns songplays) "start_time" row).
Proof.
  assert (R : Run Sample.rt "LOCAL" Runs.start1 Runs.end1 Runs.songs1
                  Runs.logs1 "out") by sample_run.
  assert (X : exchange_ok Sample.rt)
    by (intros ps; apply Permutation_refl).
  split; [exact R|]. split; [exact X|].
  destruct (songplays_partition_keys _ _ _ _ _ _ _ R X)
    as (songplays & time_table & L1 & _ & H & _).
  exists songplays. split; [exact L1 | exact H].
Defined.

(** C8, amended.  In every completed run the fact table has exactly the
    columns songplay_id, start_time, user_id, level, song_id, artist_id,
    session_id, location, useragent, year, month, in this order.  Each row
    stems from a play: its start_time is the converted timestamp of the
    play, its year and month are computed from that start_time, user_id
    holds the play's userId, session_id its sessionId, and level, location
    and useragent hold the play's columns of these names (useragent is the
    log's userAgent column, selected without an alias). *)
Theorem songplays_columns rt data_loc s s' songs logs output_dir :
  Run rt data_loc s s' songs logs output_dir ->
  exchange_ok rt ->
  exists songplays,
    fs_lookup (output_dir ++ "/songplay.parquet")%string (events s')
      = Some songplays /\
    ds_columns songplays =
      ["songplay_id"; "start_time"; "user_id"; "level"; "song_id";
       "artist_id"; "session_id"; "location"; "useragent"; "year"; "month"] /\
    forall row, In row (concat (ds_rows songplays)) ->
      length row = 11%nat /\
      exists play st,
        In play (concat (plays logs)) /\
        fromtimestamp_millis rt (field (names logs) "ts" play) = Some st /\
        field (ds_columns songplays) "start_time" row = st /\
        field (ds_columns songplays) "year" row = year rt st /\
        field (ds_columns songplays) "month" row = month rt st /\
        forall c n, In (c, n) songplay_sources -> has_field (names logs) n ->
          field (ds_columns songplays) c row = field (names logs) n play.
Proof.
  intros HR Hx.
  destruct (fact_row_origin _ _ _ _ _ _ _ HR Hx)
    as (P & ds & L5 & Hc & HP & Hrows & Wc & Wp & Hcal & Hin & Horigin).
  exists ds. split; [exact L5|]. split; [exact Hc|].
  intros row Hrow. rewrite Hc.
  destruct (Horigin row Hrow) as (r & st & j & id & Hr & Hlen & Hst & Hj & ->).
  split; [reflexivity|].
  exists r, st. repeat split; auto.
  - eapply fact_start_time; eauto.
  - eapply fact_year; eauto.
  - eapply fact_month; eauto.
  - intros c n Hcn Hf. eapply fact_passthrough; eauto.
Qed.

Lemma songplays_columns_witness :
  Run Sample.rt "LOCAL" Runs.start1 Runs.end1 Runs.songs1 Runs.logs1 "out" /\
  exchange_ok Sample.rt /\
  exists songplays,
    fs_lookup "out/songplay.parquet" (events Runs.end1) = Some songplays /\
    ds_columns songplays =
      ["songplay_id"; "start_time"; "user_id"; "level"; "song_id";
       "artist_id"; "session_id"; "location"; "useragent"; "year"; "month"].
Proof.
  assert (R : Run Sample.rt "LOCAL" Runs.start1 Runs.end1 Runs.songs1
                  Runs.logs1 "out") by sample_run.
  assert (X : exchange_ok Sample.rt)
    by (intros ps; apply Permutation_refl).
  split; [exact R|]. split; [exact X|].
  destruct (songplays_columns _ _ _ _ _ _ _ R X) as (songplays & L & C & _).
  exists songplays. split; [exact L | exact C].
Defined.

(** C4 as stated fails: two plays with the same timestamp give two rows
    of the time table with the same start_time. *)
Lemma time_table_repeats_start_time :
  exists ds,
    fs_lookup "out/time.parquet" (events Runs.end1) = Some ds /\
    ~ NoDup (map (field (ds_columns ds) "start_time") (concat (ds_rows ds))).
Proof.
  eexists. split; [vm_compute; reflexivity|].
  intros H. vm_compute in H. inversion H as [|x l Hx _]; subst.
  apply Hx. left. reflexivity.
Qed.

(** C4, amended.  In every completed run the time table holds exactly one
    row per play (per log row that passes the filter), whatever the order
    in which its rows are stored: its rows are, up to a permutation, rows
    made for the plays one by one, each of them holding the converted
    timestamp of its play under start_time and the hour, day of week, week,
    month, year and day of week computed from it under hour, day, week,
    month, year and weekday.  Plays with equal timestamps give as many
    rows with equal start_time, which is not a key. *)
Theorem time_table_one_row_per_play rt data_loc s s' songs logs output_dir :
  Run rt data_loc s s' songs logs output_dir ->
  exists time_table per_play,
    fs_lookup (output_dir ++ "/time.parquet")%string (events s')
      = Some time_table /\
    Permutation (ds_columns time_table)
      ["start_time"; "hour"; "day"; "week"; "month"; "year"; "weekday"] /\
    Forall2 (fun play row =>
               length row = 7%nat /\
               exists st,
                 fromtimestamp_millis rt (field (names logs) "ts" play)
                   = Some st /\
                 field (ds_columns time_table) "start_time" row = st /\
                 field (ds_columns time_table) "hour" row = hour rt st /\
                 field (ds_columns time_table) "day" row = dayofweek rt st /\
                 field (ds_columns time_table) "week" row
                   = weekofyear rt st /\
                 field (ds_columns time_table) "month" row = month rt st /\
                 field (ds_columns time_table) "year" row = year rt st /\
                 field (ds_columns time_table) "weekday" row
                   = dayofweek rt st)
            (concat (plays logs)) per_play /\
    Permutation per_play (concat (ds_rows time_table)) /\
    length (concat (ds_rows time_table)) = length (concat (plays logs)).
Proof.
  intros HR.
  pose proof (main_ok _ _ _ _ _ _ _ HR)
    as (_ & Hok & Hcal & _ & P & ds & HP & Hev & _).
  pose proof (fs_lookup_run output_dir (events s) (songs_dataset songs)
                (artists_dataset songs) (users_dataset logs)
                (time_dataset (names logs) P) ds) as L.
  cbv zeta in L. destruct L as (_ & _ & _ & L4 & _). rewrite <- Hev in L4.
  exists (time_dataset (names logs) P),
    (concat (ds_rows (time_dataset (names logs) P))).
  split; [exact L4|]. split; [apply Permutation_refl|].
  pose proof (plays_wf logs Hok) as Wp. apply wf_rows_concat in Wp.
  assert (F : Forall2 (fun play row =>
               exists st,
                 fromtimestamp_millis rt (field (names logs) "ts" play)
                   = Some st /\
                 row = [st; hour rt st; dayofweek rt st; weekofyear rt st;
                        month rt st; year rt st; dayofweek rt st])
            (concat (plays logs))
            (concat (ds_rows (time_dataset (names logs) P)))).
  { simpl. rewrite <- concat_map. apply Forall2_concat in HP.
    clear - HP Wp Hcal.
    induction HP as [|r l rs ls (st & Hst & ->) _ IH]; simpl; [constructor|].
    inversion Wp; subst. constructor; [|auto].
    exists st. split; [exact Hst|]. apply log_row_calendar; auto. }
  split; [|split; [apply Permutation_refl|]].
  - eapply Forall2_impl; [|exact F].
    intros play row (st & Hst & ->). split; [reflexivity|].
    exists st. repeat split; auto.
  - symmetry. eapply Forall2_length. exact F.
Qed.

Lemma time_table_one_row_per_play_witness :
  Run Sample.rt "LOCAL" Runs.start1 Runs.end1 Runs.songs1 Runs.logs1 "out" /\
  exists time_table,
    fs_lookup "out/time.parquet" (events Runs.end1) = Some time_table /\
    length (concat (plays Runs.logs1)) = 2%nat /\
    length (concat (ds_rows time_table)) = 2%nat.
Proof.
  assert (R : Run Sample.rt "LOCAL" Runs.start1 Runs.end1 Runs.songs1
                  Runs.logs1 "out") by sample_run.
  split; [exact R|].
  destruct (time_table_one_row_per_play _ _ _ _ _ _ _ R)
    as (time_table & per_play & L & _ & _ & _ & N).
  exists time_table. split; [exact L|]. split; [reflexivity | exact N].
Defined.

(** ** Surrogate keys *)

Lemma monotonically_increasing_id_inj p k p' k' :
  (0 <= p < 2 ^ 31)%Z -> (0 <= k < 2 ^ 33)%Z ->
  (0 <= p' < 2 ^ 31)%Z -> (0 <= k' < 2 ^ 33)%Z ->
  monotonically_increasing_id p k = monotonically_increasing_id p' k' ->
  p = p' /\ k = k'.
Proof.
  unfold monotonically_increasing_id, wrap64.
  change (2 ^ 63)%Z with 9223372036854775808%Z.
  change (2 ^ 64)%Z with 18446744073709551616%Z.
  change (2 ^ 33)%Z with 8589934592%Z.
  change (2 ^ 31)%Z with 2147483648%Z.
  intros Hp Hk Hp' Hk' H.
  Z.div_mod_to_equations. lia.
Qed.

Lemma mapi_from_in {A B} (f : Z -> A -> B) k l v :
  In v (mapi_from f k l) ->
  exists i x, (k <= i < k + Z.of_nat (length l))%Z /\ In x l /\ v = f i x.
Proof.
  revert k; induction l as [|x l IH]; intros k; [contradiction|].
  cbn [mapi_from length In]. intros [<-|Hv].
  - exists k, x. repeat split; auto; lia.
  - destruct (IH _ Hv) as (i & y & Hi & Hy & ->).
    exists i, y. repeat split; auto; lia.
Qed.

Section Ids.

Context {A B : Type} (G : Z -> Z -> B) (pmax kmax : Z).

Hypothesis G_inj :
    forall p k p' k',
      (0 <= p < pmax)%Z -> (0 <= k < kmax)%Z ->
      (0 <= p' < pmax)%Z -> (0 <= k' < kmax)%Z ->
      G p k = G p' k' -> p = p' /\ k = k'.

Lemma ids_partition_nodup p k (part : list A) :
    (0 <= p < pmax)%Z -> (0 <= k)%Z ->
    (k + Z.of_nat (length part) <= kmax)%Z ->
    NoDup (mapi_from (fun i _ => G p i) k part).
Proof.
    intros Hp. revert k; induction part as [|x part IH]; intros k Hk Hlen.
    - constructor.
    - cbn [mapi_from length] in *. constructor.
      + intros Hin. apply mapi_from_in in Hin.
        destruct Hin as (i & y & Hi & _ & E).
        apply G_inj in E; lia.
      + apply IH; lia.
Qed.

Lemma ids_nodup p0 (X : list (list A)) :
    (0 <= p0)%Z -> (p0 + Z.of_nat (length X) <= pmax)%Z ->
    Forall (fun part => (Z.of_nat (length part) <= kmax)%Z) X ->
    NoDup (concat (mapi_from (fun p part => mapi_from (fun i _ => G p i) 0 part)
                             p0 X)).
Proof.
    revert p0; induction X as [|part X IH]; intros p0 Hp0 Hlen HX.
    - constructor.
    - cbn [mapi_from concat length] in *. inversion HX; subst.
      apply NoDup_app.
      + apply ids_partition_nodup; lia.
      + apply IH; auto; lia.
      + intros v Hv Hv'. apply mapi_from_in in Hv.
        destruct Hv as (k & x & Hk & _ & ->).
        apply in_concat in Hv'. destruct Hv' as (ys & Hys & Hv').
        apply mapi_from_in in Hys. destruct Hys as (p & part' & Hp & Hpart' & ->).
        apply mapi_from_in in Hv'. destruct Hv' as (k' & x' & Hk' & _ & E).
        assert (Z.of_nat (length part') <= kmax)%Z
          by (rewrite Forall_forall in H2; auto).
        apply G_inj in E; lia.
Qed.

End Ids.

Lemma map_rows_shape {A B} (f : Z -> Z -> A -> B) X :
  map (@length B) (map_rows f X) = map (@length A) X.
Proof.
  unfold map_rows. generalize 0%Z at 2.
  induction X as [|part X IH]; intros p; simpl; [reflexivity|].
  rewrite mapi_from_length, IH. reflexivity.
Qed.

Lemma in_flat_map_rows {A B} (g : A -> list B) X j :
  In j (concat (map (flat_map g) X)) -> exists l, In l (concat X) /\ In j (g l).
Proof.
  intros H. apply in_concat in H. destruct H as (part' & Hp & Hj).
  apply in_map_iff in Hp. destruct Hp as (part & <- & Hpart).
  apply in_flat_map in Hj. destruct Hj as (l & Hl & Hj).
  exists l. split; [|exact Hj]. apply in_concat. eauto.
Qed.

(** C5, amended.  In every completed run the songplay_id values of the
    fact table are pairwise distinct, provided the table is computed in at
    most 2^31 partitions of at most 2^33 rows each (the range within which
    [monotonically_increasing_id] never repeats a value). *)
Theorem songplay_ids_distinct rt data_loc s s' songs logs output_dir :
  Run rt data_loc s s' songs logs output_dir ->
  exchange_ok rt ->
  exists songplays,
    fs_lookup (output_dir ++ "/songplay.parquet")%string (events s')
      = Some songplays /\
    ((Z.of_nat (length (ds_rows songplays)) <= 2 ^ 31)%Z ->
     Forall (fun part => (Z.of_nat (length part) <= 2 ^ 33)%Z)
            (ds_rows songplays) ->
     NoDup (map (field (ds_columns songplays) "songplay_id")
                (concat (ds_rows songplays)))).
Proof.
  intros HR Hx.
  destruct (fact_row_origin _ _ _ _ _ _ _ HR Hx)
    as (P & ds & L5 & Hc & HP & Hrows & Wc & Wp & Hcal & Hin & Horigin).
  exists ds. split; [exact L5|]. intros Hparts Hsizes.
  rewrite Hc, concat_map.
  set (J := map (flat_map (joined (log_names (names logs)) (names songs)
                             (concat (parts songs)))) (exchange rt P)).
  assert (E : map (map (field songplay_columns "songplay_id")) (ds_rows ds) =
              map_rows (fun p k (_ : Row) =>
                          VLong (monotonically_increasing_id p k)) J).
  { rewrite Hrows. unfold songplay_rows. fold J. rewrite map_map_rows.
    apply map_rows_ext_in. intros p k j Hj.
    apply in_flat_map_rows in Hj. destruct Hj as (l & Hl & Hj).
    apply (Permutation_in _ (Hx P)) in Hl.
    destruct (in_rows_forall2 _ _ _ _ HP Hl) as (r & Hr & st & Hst & ->).
    apply wf_rows_concat in Wp. rewrite Forall_forall in Wp.
    eapply fact_songplay_id; eauto. }
  rewrite E. unfold map_rows.
  apply ids_nodup with (pmax := (2 ^ 31)%Z) (kmax := (2 ^ 33)%Z).
  - intros p k p' k' Hp Hk Hp' Hk' [= Hid].
    apply monotonically_increasing_id_inj; assumption.
  - lia.
  - assert (Hl : length J = length (ds_rows ds)).
    { rewrite <- (length_map (@length Row) J),
        <- (length_map (@length Row) (ds_rows ds)).
      rewrite Hrows. unfold songplay_rows. fold J.
      rewrite map_rows_shape. reflexivity. }
    rewrite Hl. lia.
  - assert (Hs : map (@length Row) J = map (@length Row) (ds_rows ds)).
    { rewrite Hrows. unfold songplay_rows. fold J.
      rewrite map_rows_shape. reflexivity. }
    apply Forall_forall. intros part Hpart.
    assert (Hin' : In (length part) (map (@length Row) (ds_rows ds)))
      by (rewrite <- Hs; apply in_map; exact Hpart).
    apply in_map_iff in Hin'. destruct Hin' as (part' & <- & Hpart').
    rewrite Forall_forall in Hsizes. auto.
Qed.

Lemma songplay_ids_distinct_witness :
  Run Sample.rt "LOCAL" Runs.start1 Runs.end1 Runs.songs1 Runs.logs1 "out" /\
  exchange_ok Sample.rt /\
  exists songplays,
    fs_lookup "out/songplay.parquet" (events Runs.end1) = Some songplays /\
    NoDup (map (field (ds_columns songplays) "songplay_id")
               (concat (ds_rows songplays))).
Proof.
  assert (R : Run Sample.rt "LOCAL" Runs.start1 Runs.end1 Runs.songs1
                  Runs.logs1 "out") by sample_run.
  assert (X : exchange_ok Sample.rt)
    by (intros ps; apply Permutation_refl).
  split; [exact R|]. split; [exact X|].
  destruct (songplay_ids_distinct _ _ _ _ _ _ _ R X) as (songplays & L & N).
  exists songplays. split; [exact L|].
  assert (E : Some songplays =
              fs_lookup "out/songplay.parquet" (events Runs.end1))
    by (symmetry; exact L).
  vm_compute in E. injection E as ->.
  apply N.
  - vm_compute. discriminate.
  - repeat constructor; vm_compute; discriminate.
Defined.

(** ** Beyond the range of the ids *)

Lemma NoDup_app_disjoint {A} (l l' : list A) a :
  NoDup (l ++ l') -> In a l -> In a l' -> False.
Proof.
  induction l as [|b l IH]; simpl; intros Hnd Hl Hl'; [contradiction|].
  inversion Hnd as [|? ? Hb Hnd']; subst. destruct Hl as [->|Hl].
  - apply Hb. apply in_or_app. right. exact Hl'.
  - exact (IH Hnd' Hl Hl').
Qed.

Lemma mapi_from_at {A B} (f : Z -> A -> B) k l m x :
  nth_error l m = Some x -> In (f (k + Z.of_nat m)%Z x) (mapi_from f k l).
Proof.
  revert k m; induction l as [|y l IH]; intros k m H;
    [destruct m; discriminate|].
  destruct m as [|m]; simpl in H.
  - injection H as ->. cbn [mapi_from]. left. f_equal. lia.
  - cbn [mapi_from]. right.
    replace (k + Z.of_nat (S m))%Z with ((k + 1) + Z.of_nat m)%Z by lia.
    apply IH. exact H.
Qed.

(** Two partitions, the first of which holds a row number [i] that is
    given the id of the first row of the second. *)
Lemma ids_collide {A B} (G : Z -> Z -> A -> B) x n i :
  (0 <= i < Z.of_nat n)%Z -> G 0%Z i x = G 1%Z 0%Z x ->
  ~ NoDup (concat (map_rows G [repeat x n; [x]])).
Proof.
  intros Hi HG Hnd. unfold map_rows in Hnd. cbn [mapi_from concat] in Hnd.
  rewrite app_nil_r in Hnd. change (0 + 1)%Z with 1%Z in Hnd.
  apply (NoDup_app_disjoint _ _ (G 0%Z i x) Hnd).
  - replace i with (0 + Z.of_nat (Z.to_nat i))%Z by lia.
    apply mapi_from_at. apply nth_error_repeat. lia.
  - rewrite HG. left. reflexivity.
Qed.

Lemma flat_map_repeat {A B} (g : A -> list B) x y n :
  g x = [y] -> flat_map g (repeat x n) = repeat y n.
Proof.
  intros H. induction n as [|n IH]; simpl; [reflexivity|].
  rewrite H, IH. reflexivity.
Qed.

Lemma write_parquet_total df keys path s ps :
  (exists ks, res_mapM (fun k => resolve_name k (columns df)) keys = Ok ks) ->
  Spark.distinct_names (map attr_name (columns df)) = true ->
  rows df = Ok ps ->
  Spark.write_parquet df keys path s =
    ({| next_id := next_id s;
        sources := sources s;
        events := events s ++
          [Wrote path {| ds_partition_by := keys;
                         ds_columns := map attr_name (columns df);
                         ds_rows := ps |}] |}, Ok tt).
Proof.
  intros (ks & Hk) Hd Hr. unfold Spark.write_parquet, bind, lift.
  rewrite Hk, Hd, Hr. reflexivity.
Qed.

Lemma select_rows_ok df sels s s1 df' ps :
  Spark.select df sels s = (s1, Ok df') -> rows df = Ok ps ->
  exists ps', rows df' = Ok ps'.
Proof.
  intros H Hr. apply select_ok in H. destruct H as (outs & _ & _ & H).
  rewrite H, Hr. simpl. eauto.
Qed.

Lemma withColumn_id_total df n s :
  Spark.has_column n (map attr_name (columns df)) = false ->
  Spark.withColumn df n MonotonicallyIncreasingId s =
    ({| next_id := N.succ (next_id s);
        sources := sources s;
        events := events s |},
     Ok {| columns := columns df ++ [{| attr_id := next_id s; attr_name := n |}];
           rows := res_bind (rows df)
                     (mapM_rows (fun p k r =>
                        res_map (fun v => Spark.put_value n
                                            (map attr_name (columns df)) v r)
                                (Ok (VLong (monotonically_increasing_id p k)))))
        |}).
Proof.
  intros Hc. unfold Spark.withColumn. cbn [Spark.analyze_column].
  unfold bind, lift. rewrite Hc. reflexivity.
Qed.

Lemma select_total df sels s s' outs :
  mapM (Spark.select_one (columns df)) sels s = (s', Ok outs) ->
  Spark.select df sels s =
    (s', Ok {| columns := map fst outs;
               rows := res_map (map (map (fun r => map (fun o => snd o r) outs)))
                               (rows df) |}).
Proof. intros H. unfold Spark.select, bind. rewrite H. reflexivity. Qed.

(** One step of a program run on given frames: the step is computed. *)
Ltac closed_step H x sx Hx :=
  let e := fresh "e" in
  apply bind_inv in H;
  destruct H as [(x & sx & Hx & H) | (e & Hx & _)];
  [ | vm_compute in Hx; discriminate ].

(** One step of a program, split into its two outcomes. *)
Ltac open_step H x sx Hx :=
  let e := fresh "e" in
  apply bind_inv in H;
  destruct H as [(x & sx & Hx & H) | (e & Hx & _)].

(** [process_songplay_data] completes on the frames of the sample run,
    however many rows the log frame holds. *)
Lemma overfull_completes n :
  exists s1,
    process_songplay_data Sample.rt Overfull.song_df (Overfull.log_df n) "out"
      Overfull.session = (s1, Ok tt).
Proof.
  destruct (process_songplay_data Sample.rt Overfull.song_df
              (Overfull.log_df n) "out" Overfull.session)
    as [s1 [[]|e]] eqn:H; [eauto|exfalso].
  unfold process_songplay_data in H.
  closed_step H artist sa Ha. vm_compute in Ha. injection Ha as <- <-.
  closed_step H artist_name sb Hb. vm_compute in Hb. injection Hb as <- <-.
  closed_step H song sc Hc. vm_compute in Hc. injection Hc as <- <-.
  closed_step H title sd Hd. vm_compute in Hd. injection Hd as <- <-.
  closed_step H df1 se Hj.
  assert (R1 : exists J, rows df1 = Ok J).
  { pose proof (join_ok _ _ _ _ _ _ _ _ Hj) as (f & _ & _ & Hr).
    rewrite Hr. unfold Overfull.log_df. cbn [rows res_bind].
    assert (E : rows Overfull.song_df = Ok Sample.songs1)
      by (vm_compute; reflexivity).
    rewrite E. cbn [res_bind]. eauto. }
  vm_compute in Hj. injection Hj as <- <-.
  open_step H df2 sf Hid;
    [|rewrite withColumn_id_total in Hid by (vm_compute; reflexivity);
      discriminate].
  assert (R2 : exists J, rows df2 = Ok J).
  { pose proof (withColumn_id_ok _ _ _ _ _ Hid) as Hw. cbv zeta in Hw.
    destruct Hw as (_ & Hr & _). destruct R1 as (J & R1).
    rewrite Hr, R1. cbn [res_map res_bind]. eauto. }
  rewrite withColumn_id_total in Hid by (vm_compute; reflexivity).
  injection Hid as <- <-.
  closed_step H log_year sg Hy. vm_compute in Hy. injection Hy as <- <-.
  open_step H songplays sh Hsel;
    [|erewrite select_total in Hsel by (vm_compute; reflexivity);
      discriminate].
  assert (R3 : exists ps, rows songplays = Ok ps).
  { destruct R2 as (J & R2). eapply select_rows_ok; eauto. }
  erewrite select_total in Hsel by (vm_compute; reflexivity).
  injection Hsel as <- <-.
  destruct R3 as (ps & R3).
  rewrite (write_parquet_total _ _ _ _ ps) in H;
    [discriminate
    | eexists; vm_compute; reflexivity
    | vm_compute; reflexivity
    | exact R3].
Qed.

Lemma overfull_ids n :
  (2 ^ 33 < Z.of_nat n)%Z ->
  exists s1 songplays,
    process_songplay_data Sample.rt Overfull.song_df (Overfull.log_df n) "out"
      Overfull.session = (s1, Ok tt) /\
    fs_lookup "out/songplay.parquet" (events s1) = Some songplays /\
    ~ NoDup (map (field (ds_columns songplays) "songplay_id")
                 (concat (ds_rows songplays))).
Proof.
  intros Hn. destruct (overfull_completes n) as (s1 & H). exists s1.
  pose proof (process_songplay_data_ok _ _ _ _ _ _ H) as Hok.
  cbv zeta in Hok.
  destruct Hok as (_ & _ & _ & ds & Hev & _ & Hc & Hrows).
  exists ds. split; [exact H|]. split.
  - rewrite Hev, fs_lookup_snoc, String.eqb_refl. reflexivity.
  - rewrite Hc, (Hrows [repeat Overfull.row n; [Overfull.row]] Sample.songs1).
    + set (nsL := map attr_name (columns (Overfull.log_df n))).
      set (nsS := map attr_name (columns Overfull.song_df)).
      assert (Hg : exists j,
                 joined nsL nsS (concat Sample.songs1) Overfull.row = [j] /\
                 forall id, field songplay_columns "songplay_id"
                              (songplay_row nsL nsS id j) = VLong id).
      { eexists. split; [vm_compute; reflexivity|].
        intros id. vm_compute. reflexivity. }
      destruct Hg as (j & Hj & Hid).
      unfold songplay_rows.
      change (exchange Sample.rt [repeat Overfull.row n; [Overfull.row]])
        with [repeat Overfull.row n; [Overfull.row]].
      cbn [map flat_map]. rewrite (flat_map_repeat _ _ j n Hj), Hj.
      cbn [app]. rewrite concat_map, map_map_rows.
      rewrite (map_rows_ext_in _
                 (fun p k (_ : Row) => VLong (monotonically_increasing_id p k))).
      * apply ids_collide with (i := (2 ^ 33)%Z).
        -- change (2 ^ 33)%Z with 8589934592%Z in *. lia.
        -- vm_compute. reflexivity.
      * intros p k x Hx. cbn [concat] in Hx. rewrite app_nil_r in Hx.
        assert (x = j).
        { apply in_app_or in Hx. destruct Hx as [Hx|[<-|[]]];
            [apply repeat_spec in Hx; exact Hx | reflexivity]. }
        subst x. apply Hid.
    + apply sample_exchange_ok.
    + reflexivity.
    + unfold wf_rows. constructor.
      * apply Forall_forall. intros x Hx. apply repeat_spec in Hx. subst x.
        vm_compute. reflexivity.
      * constructor; [|constructor].
        constructor; [vm_compute; reflexivity | constructor].
    + vm_compute. reflexivity.
    + unfold wf_rows. repeat (constructor; try (vm_compute; reflexivity)).
Qed.

(** C5 as stated fails: [monotonically_increasing_id] keeps the number of
    a record within its partition in 33 bits.  When the log frame handed
    to [process_songplay_data] holds 2^33 + 1 rows in its first partition,
    the last of them is given the id of the first row of the second
    partition, and the fact table that is written holds two rows with the
    same songplay_id. *)
Lemma songplay_ids_repeat :
  monotonically_increasing_id 0 (2 ^ 33) = monotonically_increasing_id 1 0 /\
  exists s1 songplays,
    process_songplay_data Sample.rt Overfull.song_df
      (Overfull.log_df (Z.to_nat (2 ^ 33 + 1))) "out" Overfull.session
      = (s1, Ok tt) /\
    fs_lookup "out/songplay.parquet" (events s1) = Some songplays /\
    ~ NoDup (map (field (ds_columns songplays) "songplay_id")
                 (concat (ds_rows songplays))).
Proof.
  split; [vm_compute; reflexivity|].
  apply overfull_ids.
  change (2 ^ 33)%Z with 8589934592%Z. rewrite Z2Nat.id; lia.
Qed.

(** C2.  In every completed run, every row of the users table, of the
    time table and of the fact table stems from a log record whose page is
    "NextSong": a users row holds that record's user fields, a time row the
    calendar fields of its converted timestamp, a fact row that timestamp
    as start_time together with the record's own columns.  No record with
    another page value contributes a row. *)
Theorem outputs_from_next_song rt data_loc s s' songs logs output_dir :
  Run rt data_loc s s' songs logs output_dir ->
  exchange_ok rt ->
  exists users time_table songplays,
    fs_lookup (output_dir ++ "/users.parquet")%string (events s')
      = Some users /\
    fs_lookup (output_dir ++ "/time.parquet")%string (events s')
      = Some time_table /\
    fs_lookup (output_dir ++ "/songplay.parquet")%string (events s')
      = Some songplays /\
    (forall row, In row (concat (ds_rows users)) ->
       exists r, In r (concat (parts logs)) /\
                 field (names logs) "page" r = VStr "NextSong" /\
                 row = [field (names logs) "UserId" r;
                        field (names logs) "FirstName" r;
                        field (names logs) "LastName" r;
                        field (names logs) "gender" r;
                        field (names logs) "level" r]) /\
    (forall row, In row (concat (ds_rows time_table)) ->
       exists r st, In r (concat (parts logs)) /\
                    field (names logs) "page" r = VStr "NextSong" /\
                    fromtimestamp_millis rt (field (names logs) "ts" r)
                      = Some st /\
                    row = [st; hour rt st; dayofweek rt st; weekofyear rt st;
                           month rt st; year rt st; dayofweek rt st]) /\
    (forall row, In row (concat (ds_rows songplays)) ->
       exists r st, In r (concat (parts logs)) /\
                    field (names logs) "page" r = VStr "NextSong" /\
                    fromtimestamp_millis rt (field (names logs) "ts" r)
                      = Some st /\
                    field (ds_columns songplays) "start_time" row = st /\
                    forall c n, In (c, n) songplay_sources ->
                      has_field (names logs) n ->
                      field (ds_columns songplays) c row =
                      field (names logs) n r).
Proof.
  intros HR Hx.
  destruct (fact_row_origin _ _ _ _ _ _ _ HR Hx)
    as (P & ds & L5 & Hc & HP & Hrows & Wc & Wp & Hcal & Hin & Horigin).
  pose proof (main_ok _ _ _ _ _ _ _ HR)
    as (_ & Hok & _ & _ & P' & ds' & HP' & Hev & _).
  pose proof (fs_lookup_run output_dir (events s) (songs_dataset songs)
                (artists_dataset songs) (users_dataset logs)
                (time_dataset (names logs) P') ds') as L.
  cbv zeta in L. destruct L as (_ & _ & L3 & L4 & _). rewrite <- Hev in L3, L4.
  exists (users_dataset logs), (time_dataset (names logs) P'), ds.
  split; [exact L3|]. split; [exact L4|]. split; [exact L5|].
  pose proof Wp as Wp'. apply wf_rows_concat in Wp'.
  rewrite Forall_forall in Wp'.
  split; [|split].
  - intros row Hrow. simpl in Hrow.
    change (map (fun part => map (users_row (names logs))
                               (filter (is_next_song (names logs)) part))
                (parts logs))
      with (map (fun part => map (users_row (names logs))
                               ((fun q => filter (is_next_song (names logs)) q)
                                  part))
                (parts logs)) in Hrow.
    rewrite <- (map_map (fun q => filter (is_next_song (names logs)) q)
                  (map (users_row (names logs)))) in Hrow.
    rewrite <- concat_map in Hrow. apply in_map_iff in Hrow.
    destruct Hrow as (r & <- & Hr).
    apply in_plays in Hr. destruct Hr as (Hr & Hpage).
    exists r. auto.
  - intros row Hrow. simpl in Hrow.
    rewrite <- concat_map in Hrow. apply in_map_iff in Hrow.
    destruct Hrow as (l & <- & Hl).
    destruct (in_rows_forall2 _ _ _ _ HP' Hl) as (r & Hr & st & Hst & ->).
    pose proof (Wp' r Hr) as Hlen.
    apply in_plays in Hr. destruct Hr as (Hr & Hpage).
    exists r, st. repeat split; auto.
    apply log_row_calendar; auto.
  - intros row Hrow. rewrite Hc.
    destruct (Horigin row Hrow) as (r & st & j & id & Hr & Hlen & Hst & Hj & ->).
    apply in_plays in Hr. destruct Hr as (Hr & Hpage).
    exists r, st. repeat split; auto.
    + eapply fact_start_time; eauto.
    + intros c n Hcn Hf. eapply fact_passthrough; eauto.
Qed.

Lemma outputs_from_next_song_witness :
  Run Sample.rt "LOCAL" Runs.start1 Runs.end1 Runs.songs1 Runs.logs1 "out" /\
  exchange_ok Sample.rt /\
  exists users,
    fs_lookup "out/users.parquet" (events Runs.end1) = Some users /\
    forall row, In row (concat (ds_rows users)) ->
      exists r, In r (concat (parts Runs.logs1)) /\
                field (names Runs.logs1) "page" r = VStr "NextSong" /\
                row = [field (names Runs.logs1) "UserId" r;
                       field (names Runs.logs1) "FirstName" r;
                       field (names Runs.logs1) "LastName" r;
                       field (names Runs.logs1) "gender" r;
                       field (names Runs.logs1) "level" r].
Proof.
  assert (R : Run Sample.rt "LOCAL" Runs.start1 Runs.end1 Runs.songs1
                  Runs.logs1 "out") by sample_run.
  assert (X : exchange_ok Sample.rt)
    by (intros ps; apply Permutation_refl).
  split; [exact R|]. split; [exact X|].
  destruct (outputs_from_next_song _ _ _ _ _ _ _ R X)
    as (users & time_table & songplays & L & _ & _ & H & _).
  exists users. split; [exact L | exact H].
Defined.

(** ** Matching plays against the catalog *)

Lemma grouped_impl {A B} (R R' : A -> list B -> Prop) ls os :
  (forall l outs, In l ls -> R l outs -> R' l outs) ->
  grouped R ls os -> grouped R' ls os.
Proof.
  intros H G. induction G as [|l outs ls os HR _ IH]; constructor.
  - apply H; [left; reflexivity | exact HR].
  - apply IH. intros l' outs' Hl. apply H. right. exact Hl.
Qed.

Lemma rows_grouped_impl {A B} (R R' : A -> list B -> Prop) X rows :
  (forall l outs, In l (concat X) -> R l outs -> R' l outs) ->
  Forall2 (grouped R) X rows -> Forall2 (grouped R') X rows.
Proof.
  intros H F. induction F as [|ls os X rows G _ IH]; constructor.
  - eapply grouped_impl; [|exact G]. intros l outs Hl. apply H.
    simpl. apply in_or_app. auto.
  - apply IH. intros l outs Hl. apply H. simpl. apply in_or_app. auto.
Qed.

Lemma matches_log_row rt ns nsS catalog st r :
  length r = length ns ->
  matches (log_names ns) nsS catalog (log_row rt ns st r) =
  matches ns nsS catalog r.
Proof.
  intros Hlen. unfold matches. apply filter_ext. intros x.
  unfold song_matches.
  destruct (log_row_other rt ns st r "artist" eq_refl Hlen) as (_ & ->).
  destruct (log_row_other rt ns st r "song" eq_refl Hlen) as (_ & ->).
  reflexivity.
Qed.

Lemma null_key_no_match ns nsS catalog r :
  field ns "artist" r = VNull \/ field ns "song" r = VNull ->
  matches ns nsS catalog r = [].
Proof.
  intros H. unfold matches.
  assert (E : forall x, song_matches ns nsS r x = false).
  { intros x. unfold song_matches. destruct H as [-> | ->]; simpl.
    - destruct (sql_eq _ _) as [|[|]| | | |]; reflexivity.
    - destruct (sql_eq _ _) as [|[|]| | | |];
        destruct (field nsS "title" x); reflexivity. }
  induction catalog as [|x t IH]; simpl; [reflexivity|].
  rewrite E. exact IH.
Qed.

Lemma joined_count nsL nsS catalog l :
  length (joined nsL nsS catalog l) =
  Nat.max 1 (length (matches nsL nsS catalog l)).
Proof.
  unfold joined, matches.
  destruct (filter (song_matches nsL nsS l) catalog) as [|m ms];
    [reflexivity|].
  rewrite length_map. simpl. reflexivity.
Qed.

Lemma list_sum_perm l l' : Permutation l l' -> list_sum l = list_sum l'.
Proof. induction 1; simpl; lia. Qed.

Lemma length_flat_map_rows {A B} (g : A -> list B) X :
  length (concat (map (flat_map g) X)) =
  list_sum (map (fun l => length (g l)) (concat X)).
Proof.
  induction X as [|part X IH]; simpl; [reflexivity|].
  rewrite length_app, map_app, list_sum_app, IH, length_flat_map.
  reflexivity.
Qed.

Lemma length_map_rows {A B} (f : Z -> Z -> A -> B) X :
  length (concat (map_rows f X)) = length (concat X).
Proof. rewrite !length_concat, map_rows_shape. reflexivity. Qed.

Lemma list_sum_forall2 {A B} (f : A -> nat) (g : B -> nat) l l' :
  Forall2 (fun x y => f x = g y) l l' ->
  list_sum (map f l) = list_sum (map g l').
Proof. induction 1; simpl; congruence. Qed.

Lemma list_sum_max_ge {A} (f : A -> nat) l :
  length l <= list_sum (map (fun x => Nat.max 1 (f x)) l).
Proof.
  induction l; unfold list_sum in *; cbn [map length fold_right] in *; lia.
Qed.

Lemma list_sum_max_eq {A} (f : A -> nat) l :
  (forall x, In x l -> f x <= 1) ->
  list_sum (map (fun x => Nat.max 1 (f x)) l) = length l.
Proof.
  induction l as [|x l IH]; intros H; [reflexivity|].
  assert (IH' := IH (fun y Hy => H y (or_intror Hy))).
  specialize (H x (or_introl eq_refl)).
  unfold list_sum in *. cbn [map length fold_right] in *. lia.
Qed.

(** The fact rows of a play that matches no catalog row. *)
Lemma unmatched_group rt ns nsS catalog st r outs :
  (forall n, In n time_columns ->
     exists i, positions (name_eq n) (log_names ns) = [i]) ->
  (forall n, In n songplay_inputs ->
     exists i, positions (name_eq n)
                 (Spark.put_name "songplay_id" (log_names ns ++ nsS)) = [i]) ->
  length r = length ns ->
  Forall (fun x => length x = length nsS) catalog ->
  has_field nsS "song_id" -> has_field nsS "artist_id" ->
  matches ns nsS catalog r = [] ->
  songplay_group (log_names ns) nsS catalog (log_row rt ns st r) outs ->
  exists o, outs = [o] /\
            field songplay_columns "start_time" o = st /\
            field songplay_columns "song_id" o = VNull /\
            field songplay_columns "artist_id" o = VNull.
Proof.
  intros Hcal Hin Hlen Wc Hs Ha Hm G.
  rewrite <- (matches_log_row rt ns nsS catalog st r Hlen) in Hm.
  unfold songplay_group in G.
  assert (Ej : joined (log_names ns) nsS catalog (log_row rt ns st r) =
               [log_row rt ns st r ++ repeat VNull (length nsS)]).
  { unfold joined. unfold matches in Hm. rewrite Hm. reflexivity. }
  assert (Hj : In (log_row rt ns st r ++ repeat VNull (length nsS))
                  (joined (log_names ns) nsS catalog (log_row rt ns st r)))
    by (rewrite Ej; left; reflexivity).
  rewrite Ej in G. inversion G as [|j o js os (id & ->) G']; subst.
  inversion G'; subst. eexists. split; [reflexivity|].
  split; [eapply fact_start_time; eauto|].
  split.
  - destruct (fact_song_side rt ns nsS catalog st r _ id Hin Hlen Wc Hj
                "song_id" (or_introl eq_refl) Hs)
      as (x & _ & -> & [(_ & E) | (Hx & Hmx)]); [exact E|].
    exfalso. unfold matches in Hm.
    assert (Hf : In x (filter (song_matches (log_names ns) nsS
                                 (log_row rt ns st r)) catalog))
      by (apply filter_In; auto).
    rewrite Hm in Hf. exact Hf.
  - destruct (fact_song_side rt ns nsS catalog st r _ id Hin Hlen Wc Hj
                "artist_id" (or_intror eq_refl) Ha)
      as (x & _ & -> & [(_ & E) | (Hx & Hmx)]); [exact E|].
    exfalso. unfold matches in Hm.
    assert (Hf : In x (filter (song_matches (log_names ns) nsS
                                 (log_row rt ns st r)) catalog))
      by (apply filter_In; auto).
    rewrite Hm in Hf. exact Hf.
Qed.

(** C9.  In every completed run over a catalog that has song_id and
    artist_id columns, a play whose artist or whose song is NULL matches no
    catalog row, and the fact table holds exactly one row for it, with NULL
    song_id and NULL artist_id: the fact partitions are made of one group of
    rows per log-frame row, and the group of such a play is that single
    row. *)
Theorem null_keys_unmatched rt data_loc s s' songs logs output_dir :
  Run rt data_loc s s' songs logs output_dir ->
  exchange_ok rt ->
  has_field (names songs) "song_id" ->
  has_field (names songs) "artist_id" ->
  exists P songplays,
    fs_lookup (output_dir ++ "/songplay.parquet")%string (events s')
      = Some songplays /\
    Forall2 (Forall2 (derived_from rt (names logs))) (plays logs) P /\
    Forall2
      (grouped (fun l outs =>
         forall r, In r (concat (plays logs)) ->
           derived_from rt (names logs) r l ->
           field (names logs) "artist" r = VNull \/
           field (names logs) "song" r = VNull ->
           matches (names logs) (names songs) (concat (parts songs)) r = [] /\
           exists o, outs = [o] /\
                     field (ds_columns songplays) "song_id" o = VNull /\
                     field (ds_columns songplays) "artist_id" o = VNull))
      (exchange rt P) (ds_rows songplays).
Proof.
  intros HR Hx Hs Ha.
  destruct (fact_row_origin _ _ _ _ _ _ _ HR Hx)
    as (P & ds & L5 & Hc & HP & Hrows & Wc & Wp & Hcal & Hin & _).
  exists P, ds. split; [exact L5|]. split; [exact HP|].
  rewrite Hrows, Hc.
  eapply rows_grouped_impl; [|apply songplay_rows_grouped].
  intros l outs _ G r Hr (st & Hst & ->) Hnull.
  apply wf_rows_concat in Wp. rewrite Forall_forall in Wp.
  pose proof (null_key_no_match (names logs) (names songs)
                (concat (parts songs)) r Hnull) as Hm.
  split; [exact Hm|].
  destruct (unmatched_group rt (names logs) (names songs) _ st r outs
              Hcal Hin (Wp r Hr) Wc Hs Ha Hm G) as (o & -> & _ & E1 & E2).
  exists o. auto.
Qed.

Lemma null_keys_unmatched_witness :
  Run Sample.rt "LOCAL" NullKey.start NullKey.finish Runs.songs1
      NullKey.logs "out" /\
  exchange_ok Sample.rt /\
  (exists r, In r (concat (plays NullKey.logs)) /\
             field (names NullKey.logs) "artist" r = VNull) /\
  (exists r, In r (concat (plays NullKey.logs)) /\
             field (names NullKey.logs) "song" r = VNull) /\
  exists songplays,
    fs_lookup "out/songplay.parquet" (events NullKey.finish)
      = Some songplays /\
    length (concat (ds_rows songplays)) = 2%nat /\
    forall row, In row (concat (ds_rows songplays)) ->
      field (ds_columns songplays) "song_id" row = VNull /\
      field (ds_columns songplays) "artist_id" row = VNull.
Proof.
  assert (R : Run Sample.rt "LOCAL" NullKey.start NullKey.finish Runs.songs1
                  NullKey.logs "out").
  { split.
    - unfold NullKey.finish, NullKey.start, Sample.run.
      apply completed. vm_compute. reflexivity.
    - exists "data/song_data", "data/log_data". repeat split; reflexivity. }
  assert (X : exchange_ok Sample.rt)
    by (intros ps; apply Permutation_refl).
  assert (Hs : has_field (names Runs.songs1) "song_id")
    by (vm_compute; discriminate).
  assert (Ha : has_field (names Runs.songs1) "artist_id")
    by (vm_compute; discriminate).
  split; [exact R|]. split; [exact X|].
  split; [eexists; split; [left; reflexivity | reflexivity]|].
  split; [eexists; split; [right; left; reflexivity | reflexivity]|].
  destruct (null_keys_unmatched _ _ _ _ _ _ _ R X Hs Ha)
    as (P & songplays & L & HP & G).
  exists songplays. split; [exact L|]. split.
  - assert (E : Some songplays =
                fs_lookup "out/songplay.parquet" (events NullKey.finish))
      by (symmetry; exact L).
    vm_compute in E. injection E as ->. reflexivity.
  - intros row Hrow.
    destruct (in_rows_grouped _ _ _ _ G Hrow) as (l & outs & Hl & Hg & Ho).
    apply (Permutation_in _ (X P)) in Hl.
    destruct (in_rows_forall2 _ _ _ _ HP Hl) as (r & Hr & Hd).
    destruct (Hg r Hr Hd) as (_ & o & -> & E1 & E2).
    + simpl in Hr. destruct Hr as [<-|[<-|[]]];
        [left; reflexivity | right; reflexivity].
    + destruct Ho as [<-|[]]. auto.
Defined.

(** C1 as stated fails: with a catalog that lists the same title and
    artist twice, one play gives two rows of the fact table. *)
Lemma songplays_more_rows_than_plays :
  snd (Sample.run Sample.songs2 Sample.logs2) = Ok tt /\
  exists ds,
    fs_lookup "out/songplay.parquet" (events Runs.end2) = Some ds /\
    length (concat (plays Runs.logs2)) = 1%nat /\
    length (concat (ds_rows ds)) = 2%nat /\
    length (concat (ds_rows ds)) <> length (concat (plays Runs.logs2)).
Proof.
  split; [vm_compute; reflexivity|].
  eexists. split; [vm_compute; reflexivity|].
  split; [vm_compute; reflexivity|].
  split; [vm_compute; reflexivity|].
  vm_compute. discriminate.
Qed.

(** C1, amended.  In every completed run over a catalog that has song_id
    and artist_id columns, the fact table holds, for each play, one row per
    catalog row the play matches, and one row when it matches none: it has
    at least as many rows as there are plays, and exactly as many when no
    play matches more than one catalog row.  A play that matches nothing
    is neither dropped nor an error: its group in the fact table is one
    row with NULL song_id and NULL artist_id.  The catalog of a completed
    run holds at least one record: a source without records has no
    column, and the first [select] of [process_song_data] fails on it. *)
Theorem songplays_row_count rt data_loc s s' songs logs output_dir :
  Run rt data_loc s s' songs logs output_dir ->
  exchange_ok rt ->
  has_field (names songs) "song_id" ->
  has_field (names songs) "artist_id" ->
  let catalog := concat (parts songs) in
  catalog <> [] /\
  exists P songplays,
    fs_lookup (output_dir ++ "/songplay.parquet")%string (events s')
      = Some songplays /\
    length (concat (ds_rows songplays)) =
      list_sum (map (fun r => Nat.max 1 (length
                       (matches (names logs) (names songs) catalog r)))
                    (concat (plays logs))) /\
    length (concat (plays logs)) <= length (concat (ds_rows songplays)) /\
    ((forall r, In r (concat (plays logs)) ->
        length (matches (names logs) (names songs) catalog r) <= 1) ->
     length (concat (ds_rows songplays)) = length (concat (plays logs))) /\
    Forall2 (Forall2 (derived_from rt (names logs))) (plays logs) P /\
    Forall2
      (grouped (fun l outs =>
         forall r, In r (concat (plays logs)) ->
           derived_from rt (names logs) r l ->
           matches (names logs) (names songs) catalog r = [] ->
           exists o, outs = [o] /\
                     field (ds_columns songplays) "song_id" o = VNull /\
                     field (ds_columns songplays) "artist_id" o = VNull))
      (exchange rt P) (ds_rows songplays).
Proof.
  intros HR Hx Hs Ha catalog.
  split; [exact (proj1 (run_sources_nonempty _ _ _ _ _ _ _ HR))|].
  destruct (fact_row_origin _ _ _ _ _ _ _ HR Hx)
    as (P & ds & L5 & Hc & HP & Hrows & Wc & Wp & Hcal & Hin & _).
  exists P, ds. split; [exact L5|].
  pose proof Wp as Wp'. apply wf_rows_concat in Wp'.
  assert (Hcount :
    length (concat (ds_rows ds)) =
    list_sum (map (fun r => Nat.max 1 (length
                     (matches (names logs) (names songs) catalog r)))
                  (concat (plays logs)))).
  { rewrite Hrows. unfold songplay_rows.
    rewrite length_map_rows, length_flat_map_rows.
    rewrite (list_sum_perm _ _ (Permutation_map _ (Hx P))).
    symmetry. apply list_sum_forall2.
    apply Forall2_concat in HP. clear - HP Wp'.
    induction HP as [|r l rs ls (st & _ & ->) _ IH]; [constructor|].
    inversion Wp'; subst. constructor; [|auto].
    rewrite joined_count, matches_log_row by assumption. reflexivity. }
  split; [exact Hcount|]. split; [|split; [|split]].
  - rewrite Hcount. apply list_sum_max_ge.
  - intros H. rewrite Hcount. apply list_sum_max_eq. exact H.
  - exact HP.
  - rewrite Hrows, Hc.
    eapply rows_grouped_impl; [|apply songplay_rows_grouped].
    intros l outs _ G r Hr (st & Hst & ->) Hm.
    rewrite Forall_forall in Wp'.
    destruct (unmatched_group rt (names logs) (names songs) _ st r outs
                Hcal Hin (Wp' r Hr) Wc Hs Ha Hm G) as (o & -> & _ & E1 & E2).
    exists o. auto.
Qed.

Lemma songplays_row_count_witness :
  Run Sample.rt "LOCAL" Runs.start2 Runs.end2 Runs.songs2 Runs.logs2 "out" /\
  exchange_ok Sample.rt /\
  has_field (names Runs.songs2) "song_id" /\
  has_field (names Runs.songs2) "artist_id" /\
  exists songplays,
    fs_lookup "out/songplay.parquet" (events Runs.end2) = Some songplays /\
    length (concat (plays Runs.logs2)) = 1%nat /\
    length (concat (ds_rows songplays)) = 2%nat.
Proof.
  assert (R : Run Sample.rt "LOCAL" Runs.start2 Runs.end2 Runs.songs2
                  Runs.logs2 "out") by sample_run.
  assert (X : exchange_ok Sample.rt)
    by (intros ps; apply Permutation_refl).
  assert (Hs : has_field (names Runs.songs2) "song_id")
    by (vm_compute; discriminate).
  assert (Ha : has_field (names Runs.songs2) "artist_id")
    by (vm_compute; discriminate).
  split; [exact R|]. split; [exact X|]. split; [exact Hs|].
  split; [exact Ha|].
  destruct (songplays_row_count _ _ _ _ _ _ _ R X Hs Ha)
    as (_ & P & songplays & L & N & _).
  exists songplays. split; [exact L|]. split; [reflexivity|].
  rewrite N. reflexivity.
Defined.

(** ** Failing timestamp conversions *)

Lemma analysis_never_py {A} (m : M A) s s1 e :
  analysis_only m -> m s = (s1, Err e) -> e <> PythonException.
Proof. intros Q H. destruct (Q _ _ _ H) as (_ & _ & N). apply N. reflexivity. Qed.

(** One step of a program that ended in a Python exception: a step that
    only analyses cannot be the one that failed. *)
Ltac static_step H x sx Hx :=
  let e := fresh "e" in
  let He := fresh "He" in
  apply bind_inv in H;
  destruct H as [(x & sx & Hx & H) | (e & Hx & He)];
  [ | exfalso; injection He as <-;
      refine (analysis_never_py _ _ _ _ _ Hx eq_refl); auto 6 with etl ].

(** A write of computed rows either succeeds or is refused on analysis. *)
Lemma write_parquet_rows_ok df keys path s s1 r ps :
  Spark.write_parquet df keys path s = (s1, r) -> rows df = Ok ps ->
  r <> Err PythonException.
Proof.
  intros H Hr. apply write_parquet_inv in H. destruct H as (_ & H).
  rewrite Hr in H. destruct H as [(_ & e & -> & N) | (-> & _)].
  - intros [= ->]. apply N. reflexivity.
  - discriminate.
Qed.

Lemma process_song_data_never_py input_data output_dir s s1 :
  process_song_data input_data output_dir s <> (s1, Err PythonException).
Proof.
  unfold process_song_data. intros H.
  static_step H df0 sa Hread.
  static_step H songs_table sb Hsel1.
  apply read_json_inferred in Hread. destruct Hread as (t & _ & _ & _ & Hrows).
  destruct (select_rows_ok _ _ _ _ _ _ Hsel1 Hrows) as (ps1 & Hr1).
  apply bind_inv in H. destruct H as [(u & sc & Hw1 & H) | (e & Hw1 & He)];
    [|injection He as <-;
      exact (write_parquet_rows_ok _ _ _ _ _ _ _ Hw1 Hr1 eq_refl)].
  static_step H artists_table sd Hsel2.
  destruct (select_rows_ok _ _ _ _ _ _ Hsel2 Hrows) as (ps2 & Hr2).
  apply bind_inv in H. destruct H as [(u' & se & Hw2 & H) | (e & Hw2 & He)];
    [discriminate|].
  injection He as <-.
  exact (write_parquet_rows_ok _ _ _ _ _ _ _ Hw2 Hr2 eq_refl).
Qed.



Lemma withColumn_rows_py df n c s s1 df' e :
  Spark.withColumn df n c s = (s1, Ok df') -> rows df' = Err e ->
  rows df = Err e \/ e = PythonException.
Proof.
  intros H He. apply withColumn_ok in H.
  destruct H as (gen & Hg & _ & Hr & _). rewrite Hr in He.
  destruct (rows df) as [ps|e'] eqn:E; simpl in He; [|left; congruence].
  right. apply mapM_rows_err in He. destruct He as (p & k & x & He).
  destruct c as [ex|f arg|]; simpl in Hg.
  - apply res_map_ok in Hg. destruct Hg as (g & _ & ->). discriminate.
  - apply res_map_ok in Hg. destruct Hg as (g & _ & ->).
    simpl in He. destruct (f (g x)); simpl in He; congruence.
  - injection Hg as <-. discriminate.
Qed.


Lemma process_songplay_data_never_py rt song_df log_df output_dir s s1 PL PS :
  rows log_df = Ok PL -> rows song_df = Ok PS ->
  process_songplay_data rt song_df log_df output_dir s
    <> (s1, Err PythonException).
Proof.
  intros HL HS H. unfold process_songplay_data in H.
  static_step H artist sa Hartist.
  static_step H artist_name sb Hname.
  static_step H song sc Hsong.
  static_step H title sd Htitle.
  static_step H df1 se Hjoin.
  static_step H df2 sf Hid.
  static_step H log_year sg Hyear.
  static_step H songplays sh Hsel.
  apply join_ok in Hjoin. destruct Hjoin as (f & _ & _ & Hr1).
  rewrite HL, HS in Hr1. simpl in Hr1.
  apply withColumn_id_ok in Hid. cbv zeta in Hid. destruct Hid as (_ & Hr2 & _).
  rewrite Hr1 in Hr2. simpl in Hr2.
  destruct (select_rows_ok _ _ _ _ _ _ Hsel Hr2) as (ps & Hr).
  exact (write_parquet_rows_ok _ _ _ _ _ _ _ H Hr eq_refl).
Qed.



(** ** What a program writes, whatever its outcome *)

Lemma emits_static {A} (m : M A) : analysis_only m -> emits [] m.
Proof.
  intros Q s s1 r H. destruct (Q _ _ _ H) as (Ev & Sr & _).
  split; [exact Sr|]. exists []. rewrite app_nil_r. split; [exact Ev|].
  destruct r; [reflexivity | exists []; reflexivity].
Qed.

Lemma emits_write df keys path : emits [path] (Spark.write_parquet df keys path).
Proof.
  intros s s1 r H. apply write_parquet_inv in H. destruct H as (Sr & H).
  split; [exact Sr|].
  destruct H as [(Ev & e & -> & _) | H].
  - exists []. rewrite app_nil_r. split; [exact Ev|]. exists [path]. reflexivity.
  - destruct (rows df) as [ps|e]; destruct H as (-> & Ev); eexists;
      (split; [exact Ev|]); [reflexivity | exists []; reflexivity].
Qed.

Lemma emits_bind {A B} p1 p2 (m : M A) (k : A -> M B) :
  emits p1 m -> (forall a, emits p2 (k a)) -> emits (p1 ++ p2) (bind m k).
Proof.
  intros Hm Hk s s1 r H. apply bind_inv in H.
  destruct H as [(a & s2 & H1 & H2) | (e & H1 & ->)].
  - destruct (Hm _ _ _ H1) as (Sr1 & new1 & Ev1 & E1).
    destruct (Hk a _ _ _ H2) as (Sr2 & new2 & Ev2 & E2).
    split; [congruence|]. exists (new1 ++ new2).
    split; [rewrite Ev2, Ev1, app_assoc; reflexivity|].
    rewrite map_app, E1. destruct r as [b|e]; [rewrite E2; reflexivity|].
    destruct E2 as (rest & E2). exists rest.
    rewrite <- app_assoc, E2. reflexivity.
  - destruct (Hm _ _ _ H1) as (Sr1 & new1 & Ev1 & rest & E1).
    split; [exact Sr1|]. exists new1. split; [exact Ev1|].
    exists (rest ++ p2). rewrite app_assoc, E1. reflexivity.
Qed.

Lemma emits_bind_static {A B} p (m : M A) (k : A -> M B) :
  analysis_only m -> (forall a, emits p (k a)) -> emits p (bind m k).
Proof.
  intros Hm Hk. change p with ([] ++ p).
  apply emits_bind; [apply emits_static; exact Hm | exact Hk].
Qed.

Lemma emits_ret {A} (a : A) : emits [] (ret a).
Proof. apply emits_static, analysis_only_ret. Qed.

Ltac emits_steps :=
  repeat first
    [ apply emits_ret
    | apply emits_write
    | apply emits_bind_static; [solve [auto 6 with etl] | intros ?]
    | match goal with
      | |- emits (?p :: ?q) (bind (Spark.write_parquet _ _ _) _) =>
          change (p :: q) with ([p] ++ q);
          apply emits_bind; [apply emits_write | intros ?]
      end ].

Lemma emits_process_song_data input_data output_dir :
  emits [(output_dir ++ "/songs.parquet")%string;
         (output_dir ++ "/artists.parquet")%string]
        (process_song_data input_data output_dir).
Proof. unfold process_song_data. emits_steps. Qed.

Lemma emits_process_log_data rt input_data output_dir :
  emits [(output_dir ++ "/users.parquet")%string;
         (output_dir ++ "/time.parquet")%string]
        (process_log_data rt input_data output_dir).
Proof. unfold process_log_data. emits_steps. Qed.

Lemma emits_process_songplay_data rt song_df log_df output_dir :
  emits [(output_dir ++ "/songplay.parquet")%string]
        (process_songplay_data rt song_df log_df output_dir).
Proof. unfold process_songplay_data. emits_steps. Qed.

Lemma fs_lookup_untouched path evs new :
  ~ In path (map event_path new) ->
  fs_lookup path (evs ++ new) = fs_lookup path evs.
Proof.
  unfold fs_lookup. rewrite fold_left_app.
  generalize (fold_left
                (fun acc ev =>
                   match ev with
                   | Wrote p ds => if (p =? path)%string then Some ds else acc
                   | Cleared p => if (p =? path)%string then None else acc
                   end) evs None) as acc.
  induction new as [|ev new IH]; intros acc H; [reflexivity|].
  simpl in *. rewrite IH by tauto.
  destruct ev as [p ds|p]; simpl in H;
    destruct (String.eqb_spec p path) as [->|Hp]; tauto.
Qed.

Lemma emits_config {A} rt sec key p (k : string -> M A) :
  (forall v, config rt sec key = Some v -> emits p (k v)) ->
  emits p (bind (config_get rt sec key) k).
Proof.
  intros Hk s s1 r H. apply bind_inv in H.
  destruct H as [(v & s2 & Hv & H) | (e & Hv & ->)].
  - apply config_get_ok in Hv. destruct Hv as (Hv & ->).
    exact (Hk v Hv _ _ _ H).
  - destruct (analysis_only_config_get rt sec key _ _ _ Hv) as (Ev & Sr & _).
    split; [exact Sr|]. exists []. rewrite app_nil_r. split; [exact Ev|].
    exists p. reflexivity.
Qed.

Lemma emits_main rt data_loc :
  emits (match config rt data_loc "OUTPUT_DATA" with
         | Some output_dir => dataset_paths output_dir
         | None => []
         end) (main rt data_loc).
Proof.
  unfold main.
  apply emits_bind_static; [apply analysis_only_aws | intros _].
  apply emits_config. intros input_song_data _.
  apply emits_config. intros input_log_data _.
  apply emits_config. intros output_dir ->.
  change (dataset_paths output_dir)
    with ([(output_dir ++ "/songs.parquet")%string;
           (output_dir ++ "/artists.parquet")%string] ++
          [(output_dir ++ "/users.parquet")%string;
           (output_dir ++ "/time.parquet")%string] ++
          [(output_dir ++ "/songplay.parquet")%string]).
  apply emits_bind; [apply emits_process_song_data | intros song_df].
  apply emits_bind; [apply emits_process_log_data | intros log_df].
  apply emits_process_songplay_data.
Qed.

Lemma run_result {A} (x : Session * Res A) (r : Res A) :
  snd x = r -> x = (fst x, r).
Proof. destruct x as [s r']. simpl. intros ->. reflexivity. Qed.

(** ** The users table is written first *)





(** *** The errors of the steps that come before the users table *)











(** * Further properties of the script *)

(** ** The order and the place of the writes *)

(** X1.  Whatever the outcome of a run (completion, analysis error,
    missing key, Python exception), [main] leaves the sources alone and
    only appends to the store, at the five dataset paths under the
    configured output directory and in the fixed order songs, artists,
    users, time, songplay: a failed run has touched the first few of these
    paths and none after them, a completed run all five, and a run without
    a configured output directory none.  The dataset stored at any other
    path is the one that was there before. *)
Theorem run_writes_in_order rt data_loc s s' res :
  main rt data_loc s = (s', res) ->
  sources s' = sources s /\
  exists new,
    events s' = events s ++ new /\
    (forall path, ~ In path (map event_path new) ->
       fs_lookup path (events s') = fs_lookup path (events s)) /\
    match config rt data_loc "OUTPUT_DATA" with
    | Some output_dir =>
        (exists rest, map event_path new ++ rest = dataset_paths output_dir) /\
        (res = Ok tt -> map event_path new = dataset_paths output_dir)
    | None => new = []
    end.
Proof.
  intros H. destruct (emits_main rt data_loc _ _ _ H) as (Sr & new & Ev & E).
  split; [exact Sr|]. exists new. split; [exact Ev|]. split.
  - intros path Hp. rewrite Ev. apply fs_lookup_untouched. exact Hp.
  - destruct (config rt data_loc "OUTPUT_DATA") as [output_dir|].
    + destruct res as [[]|e].
      * split; [exists []; rewrite app_nil_r; exact E | intros _; exact E].
      * split; [exact E | discriminate].
    + destruct res as [u|e].
      * apply map_eq_nil in E. exact E.
      * destruct E as (rest & E). apply app_eq_nil in E.
        destruct E as (E & _). apply map_eq_nil in E. exact E.
Qed.

Lemma run_writes_in_order_witness :
  exists new,
    events Failing.finish = events Failing.start ++ new /\
    exists rest, map event_path new ++ rest = dataset_paths "out".
Proof.
  assert (H : main Sample.rt "LOCAL" Failing.start
              = (Failing.finish, Err PythonException)).
  { unfold Failing.finish, Failing.start, Sample.run.
    apply run_result. vm_compute. reflexivity. }
  destruct (run_writes_in_order _ _ _ _ _ H) as (_ & new & Ev & _ & E).
  exists new. split; [exact Ev|].
  change (config Sample.rt "LOCAL" "OUTPUT_DATA") with (Some "out") in E.
  destruct E as (E & _). exact E.
Defined.

(** ** Configuration *)

Ltac config_step options key :=
  let v := fresh "v" in
  let E := fresh "E" in
  destruct (options key) as [v| |] eqn:E;
  [ | eexists; split;
      [reflexivity | left; exists key; repeat split; auto; simpl; tauto]
    | eexists; split;
      [reflexivity | right; left; exists key; repeat split; auto; simpl; tauto] ].

Ltac setenv_step options key v :=
  let E := fresh "E" in
  destruct (has_nul v) eqn:E;
  [ eexists; split;
    [reflexivity
    | right; right; exists key, v; repeat split; auto; simpl; tauto] | ].

(** X2.  When [dl.cfg] has no section [data_loc], or when that section
    lacks one of the options [main] reads from it, [main] raises before it
    reads or writes anything: the session is left as it was.  The error is
    KeyError([data_loc]) when the section is absent.  Otherwise it is the
    error of a lookup [main] makes in that section: KeyError naming an
    option the section lacks, an interpolation error of an option whose
    value cannot be expanded, or, in the AWS mode, the ValueError of a
    credential that holds a null byte. *)
Theorem missing_key_stops_run rt data_loc s :
  dl_cfg rt data_loc = None \/
  (exists options key,
     dl_cfg rt data_loc = Some options /\
     In key (config_keys data_loc) /\
     options key = Missing) ->
  exists e,
    main rt data_loc s = (s, Err e) /\
    match dl_cfg rt data_loc with
    | None => e = KeyError data_loc
    | Some options =>
        (exists key, In key (config_keys data_loc) /\
                     options key = Missing /\ e = KeyError key) \/
        (exists key, In key (config_keys data_loc) /\
                     options key = BadValue /\ e = InterpolationError) \/
        (exists key v, In key ["AWS_ACCESS_KEY_ID"; "AWS_SECRET_ACCESS_KEY"] /\
                       data_loc = "AWS" /\ options key = Found v /\
                       has_nul v = true /\ e = ValueError)
    end.
Proof.
  unfold main, config_keys.
  destruct (String.eqb_spec data_loc "AWS") as [->|Hne]; intros H.
  - unfold bind, config_get, setenv, ret, fail.
    destruct (dl_cfg rt "AWS") as [options|] eqn:Es;
      [|eexists; split; reflexivity].
    config_step options "AWS_ACCESS_KEY_ID".
    setenv_step options "AWS_ACCESS_KEY_ID" v.
    config_step options "AWS_SECRET_ACCESS_KEY".
    setenv_step options "AWS_SECRET_ACCESS_KEY" v0.
    config_step options "INPUT_SONG_DATA".
    config_step options "INPUT_LOG_DATA".
    config_step options "OUTPUT_DATA".
    exfalso. destruct H as [H | (o & key & Ho & Hin & Hk)]; [discriminate|].
    injection Ho as <-. simpl in Hin.
    repeat (destruct Hin as [<-|Hin]; [congruence|]). exact Hin.
  - unfold bind, config_get, ret, fail.
    destruct (dl_cfg rt data_loc) as [options|] eqn:Es;
      [|eexists; split; reflexivity].
    config_step options "INPUT_SONG_DATA".
    config_step options "INPUT_LOG_DATA".
    config_step options "OUTPUT_DATA".
    exfalso. destruct H as [H | (o & key & Ho & Hin & Hk)]; [discriminate|].
    injection Ho as <-. simpl in Hin.
    repeat (destruct Hin as [<-|Hin]; [congruence|]). exact Hin.
Qed.

Lemma missing_key_stops_run_witness :
  main Sample.rt "AWS" Runs.start1 = (Runs.start1, Err (KeyError "AWS")).
Proof.
  destruct (missing_key_stops_run Sample.rt "AWS" Runs.start1) as (e & H & He).
  - left. reflexivity.
  - change (dl_cfg Sample.rt "AWS") with (@None (string -> Lookup)) in He.
    rewrite <- He. exact H.
Defined.

(** ** Missing sources *)

(** X3.  When the log source does not exist, a run in the local mode
    whose song step succeeds ends in the analysis error "Path does not
    exist" for the log path after it has written the songs and the artists
    tables, and nothing else: the two song tables of a run are not undone
    by the failure of its log step. *)
Theorem missing_log_leaves_song_tables rt data_loc s s1 df
        input_song_data input_log_data output_dir :
  data_loc <> "AWS" ->
  config rt data_loc "INPUT_SONG_DATA" = Some input_song_data ->
  config rt data_loc "INPUT_LOG_DATA" = Some input_log_data ->
  config rt data_loc "OUTPUT_DATA" = Some output_dir ->
  process_song_data input_song_data output_dir s = (s1, Ok df) ->
  sources s input_log_data = None ->
  main rt data_loc s =
    (s1, Err (AnalysisException
                ("Path does not exist: " ++ input_log_data)%string)) /\
  exists songs,
    sources s input_song_data = Some songs /\
    events s1 = events s ++
      [Wrote (output_dir ++ "/songs.parquet")%string (songs_dataset songs);
       Wrote (output_dir ++ "/artists.parquet")%string
             (artists_dataset songs)].
Proof.
  intros Ha C1 C2 C3 Hsong Hlog.
  pose proof (process_song_data_ok _ _ _ _ _ Hsong)
    as (songs & Hs & _ & _ & _ & Hsrc & Hev).
  split; [|exists songs; auto].
  apply String.eqb_neq in Ha.
  unfold main. rewrite Ha.
  unfold bind at 1. unfold ret at 1.
  unfold bind at 1. rewrite (config_get_found _ _ _ _ s C1).
  unfold bind at 1. rewrite (config_get_found _ _ _ _ s C2).
  unfold bind at 1. rewrite (config_get_found _ _ _ _ s C3).
  unfold bind at 1. rewrite Hsong.
  unfold bind at 1. unfold process_log_data.
  unfold bind at 1. unfold Spark.read_json.
  unfold bind at 1. unfold Spark.source. rewrite Hsrc, Hlog. reflexivity.
Qed.

Lemma missing_log_leaves_song_tables_witness :
  exists s1,
    main (UTC.runtime (Sample.config_of "data/song_data" "nowhere" "out"))
         "LOCAL" Runs.start1 =
      (s1, Err (AnalysisException "Path does not exist: nowhere")) /\
    map event_path (events s1) = ["out/songs.parquet"; "out/artists.parquet"].
Proof.
  exists (fst (process_song_data "data/song_data" "out" Runs.start1)).
  destruct (missing_log_leaves_song_tables
              (UTC.runtime (Sample.config_of "data/song_data" "nowhere" "out"))
              "LOCAL" Runs.start1
              (fst (process_song_data "data/song_data" "out" Runs.start1))
              (match snd (process_song_data "data/song_data" "out" Runs.start1)
               with Ok df => df | Err _ => {| columns := []; rows := Ok [] |}
               end)
              "data/song_data" "nowhere" "out")
    as (H & songs & Hs & Hev).
  - discriminate.
  - reflexivity.
  - reflexivity.
  - reflexivity.
  - apply completed. vm_compute. reflexivity.
  - reflexivity.
  - split; [exact H|]. rewrite Hev. reflexivity.
Defined.

(** ** Missing columns *)

Lemma resolved_has_field n cols i a :
  resolve_name n cols = Ok (i, a) -> has_field (map attr_name cols) n.
Proof.
  intros H. apply unique_position_ok in H. destruct H as (H & _).
  unfold has_field. rewrite <- resolve_name_positions, H. discriminate.
Qed.

(** X4.  A catalog that lacks one of the columns song_id, title,
    artist_id, year, duration makes [process_song_data] fail on analysis
    before it writes anything: neither the songs table nor the artists
    table is written, and the store is as it was. *)
Theorem song_columns_required input_data output_dir s catalog n :
  sources s input_data = Some catalog ->
  In n ["song_id"; "title"; "artist_id"; "year"; "duration"] ->
  ~ has_field (names catalog) n ->
  exists s1 e,
    process_song_data input_data output_dir s = (s1, Err e) /\
    e <> PythonException /\
    events s1 = events s /\
    sources s1 = sources s.
Proof.
  intros Hsrc Hn Hmiss.
  destruct (process_song_data input_data output_dir s) as [s1 r] eqn:H.
  unfold process_song_data in H. apply bind_inv in H.
  destruct H as [(df0 & sa & Hread & H) | (e & Hread & ->)].
  - apply bind_inv in H.
    destruct H as [(songs_table & sb & Hsel & H) | (e & Hsel & ->)].
    + exfalso.
      apply read_json_ok in Hread; [|eapply select_nonempty; exact Hsel].
      destruct Hread as (t & Ht & _ & Hns & _).
      assert (t = catalog) by congruence. subst t.
      inv_select Hsel outs. rewrite <- Hns in Hmiss. simpl in Hn.
      repeat (destruct Hn as [<-|Hn];
              [match goal with
               | R : resolve_name ?m _ = Ok _ |- _ =>
                   match type of Hmiss with
                   | context [m] => exact (Hmiss (resolved_has_field _ _ _ _ R))
                   end
               end|]).
      exact Hn.
    + assert (Q1 : analysis_only (Spark.read_json input_data))
        by auto with etl.
      assert (Q2 : analysis_only
                (Spark.select df0 [Sel "song_id"; Sel "title"; Sel "artist_id";
                                   Sel "year"; Sel "duration"]))
        by auto with etl.
      destruct (Q1 _ _ _ Hread) as (E1 & S1 & _).
      destruct (Q2 _ _ _ Hsel) as (E2 & S2 & N).
      exists s1, e. repeat split; try congruence. apply N. reflexivity.
  - assert (Q1 : analysis_only (Spark.read_json input_data))
      by auto with etl.
    destruct (Q1 _ _ _ Hread) as (E1 & S1 & N).
    exists s1, e. repeat split; auto.
Qed.

Lemma song_columns_required_witness :
  exists s1 e,
    process_song_data "data/log_data" "out" Runs.start1 = (s1, Err e) /\
    e <> PythonException /\
    events s1 = events Runs.start1 /\
    sources s1 = sources Runs.start1.
Proof.
  apply (song_columns_required "data/log_data" "out" Runs.start1 Runs.logs1
           "title").
  - reflexivity.
  - simpl. tauto.
  - intros H. apply H. vm_compute. reflexivity.
Defined.



(** ** Sources without records *)

(** X6.  A song source that exists but holds no record has no column:
    [process_song_data] fails on the analysis of its first [select],
    before it writes anything; neither the songs table nor the artists
    table is written. *)
Theorem empty_catalog_fails input_data output_dir s catalog :
  sources s input_data = Some catalog ->
  Spark.table_ok catalog = true ->
  concat (parts catalog) = [] ->
  exists s1 msg,
    process_song_data input_data output_dir s
      = (s1, Err (AnalysisException msg)) /\
    events s1 = events s /\
    sources s1 = sources s.
Proof.
  intros Hs Hok Hempty.
  destruct (read_json_total _ _ _ Hs Hok)
    as (sa & df & Hr & Hn & _ & _ & He & Hsr).
  assert (Hc : columns df = []).
  { unfold inferred_names in Hn. rewrite Hempty in Hn.
    destruct (columns df); [reflexivity | discriminate]. }
  unfold process_song_data. unfold bind at 1. rewrite Hr.
  unfold bind at 1.
  destruct (Spark.select df
              [Sel "song_id"; Sel "title"; Sel "artist_id"; Sel "year";
               Sel "duration"] sa) as [sb [songs_table|e]] eqn:Hsel.
  - exfalso. apply select_nonempty in Hsel. exact (Hsel Hc).
  - quiet Hsel. apply select_err in Hsel.
    destruct Hsel as (sel & Hin & Hsel). rewrite Hc in Hsel.
    simpl in Hin.
    destruct Hin as [<-|[<-|[<-|[<-|[<-|[]]]]]]; injection Hsel as <-;
      eexists _, _; (split; [reflexivity | split; congruence]).
Qed.

Lemma empty_catalog_fails_witness :
  exists s1 msg,
    process_song_data "data/song_data" "out"
      (Sample.session [] Sample.logs1)
      = (s1, Err (AnalysisException msg)) /\
    events s1 = [] /\
    sources s1 = sources (Sample.session [] Sample.logs1).
Proof.
  apply (empty_catalog_fails "data/song_data" "out"
           (Sample.session [] Sample.logs1)
           {| names := Sample.song_columns; parts := [] |});
    reflexivity.
Defined.


